(** * Tower Defence: the simulation core of [tower_defence.py]

    A shallow embedding of the classes [Enemy], [Projectile], [Tower],
    [Wave] and [Game], and the properties of the engine proved on it.

    Numbers.  Python [int] values (money, lives, health, tower
    coordinates, waypoints, frame counters) are [Z].  Python [float]
    values (enemy and projectile coordinates, speeds, distances) are
    binary64 numbers, carried here by Rocq's primitive [float] with the
    very same IEEE operations: [math.sqrt] is [PrimFloat.sqrt], [x**2]
    is the correctly rounded square [x * x], and an [int] that meets a
    [float] is converted first ([float_of_Z], exact below 2^53).

    Objects.  Enemies are referenced from several places (the live
    list, a tower's [target], a projectile's [target]) and mutated in
    place, so they live in an append-only store [heap]; a reference is
    the index of the object in the store.  Towers are referenced by
    their index in [towers] (a tower is never removed).  Drawing code,
    fonts, the clock and [hover_pos] are outside the model. *)

From Stdlib Require Import ZArith Floats Lia List Bool Permutation.
From stdpp Require Import base list.
Import ListNotations.
Open Scope Z_scope.

(** ** Numbers *)

Definition float_of_Z (z : Z) : float :=
  if z <? 0 then PrimFloat.opp (PrimFloat.of_uint63 (Uint63.of_Z (- z)))
  else PrimFloat.of_uint63 (Uint63.of_Z z).

(** [math.sqrt(dx**2 + dy**2)] *)
Definition hypot (dx dy : float) : float :=
  PrimFloat.sqrt (PrimFloat.add (PrimFloat.mul dx dx) (PrimFloat.mul dy dy)).

(** [math.sqrt((x - px)**2 + (y - py)**2)] on integers: the sum of
    squares is an exact [int], converted by [math.sqrt]. *)
Definition int_distance (x y px py : Z) : float :=
  PrimFloat.sqrt (float_of_Z ((x - px) ^ 2 + (y - py) ^ 2)).

(** ** Constants *)

Definition SCREEN_WIDTH : Z := 1000.
Definition SCREEN_HEIGHT : Z := 700.
Definition STARTING_MONEY : Z := 500.
Definition STARTING_LIVES : Z := 20.
Definition TOWER_COST : Z := 100.
Definition UPGRADE_COST : Z := 150.

Inductive GameState := MENU | PLAYING | PAUSED | GAME_OVER | VICTORY.

Module EnemyType.
Inductive t := BASIC | FAST | TANK.
End EnemyType.

Module TowerType.
Inductive t := BASIC | SNIPER | SPLASH.
End TowerType.

#[global] Instance GameState_eq_dec : EqDecision GameState.
Proof. solve_decision. Defined.
#[global] Instance EnemyType_eq_dec : EqDecision EnemyType.t.
Proof. solve_decision. Defined.
#[global] Instance TowerType_eq_dec : EqDecision TowerType.t.
Proof. solve_decision. Defined.

Definition Path := list (Z * Z).

(** ** Enemy *)

Record Enemy := mkEnemy {
  e_type : EnemyType.t;
  e_path : Path;
  path_index : nat;
  e_x : float;
  e_y : float;
  health : Z;
  max_health : Z;
  e_speed : float;
  reward : Z
}.

Definition _get_max_health (ty : EnemyType.t) : Z :=
  match ty with
  | EnemyType.BASIC => 100
  | EnemyType.FAST => 60
  | EnemyType.TANK => 250
  end.

Definition _get_speed (ty : EnemyType.t) : float :=
  match ty with
  | EnemyType.BASIC => 2%float
  | EnemyType.FAST => 4%float
  | EnemyType.TANK => 1%float
  end.

Definition _get_reward (ty : EnemyType.t) : Z :=
  match ty with
  | EnemyType.BASIC => 20
  | EnemyType.FAST => 15
  | EnemyType.TANK => 50
  end.

(** [path[i]]; every use below is guarded by a bound on [i], and
    [Enemy.__init__] is only called with the game's path, so the
    default stands for an [IndexError] that cannot occur. *)
Definition waypoint (p : Path) (i : nat) : Z * Z := nth i p (0, 0).

(** [Enemy.__init__] *)
Definition new_Enemy (ty : EnemyType.t) (p : Path) : Enemy :=
  let '(x, y) := waypoint p 0 in
  {| e_type := ty; e_path := p; path_index := 0;
     e_x := float_of_Z x; e_y := float_of_Z y;
     health := _get_max_health ty; max_health := _get_max_health ty;
     e_speed := _get_speed ty; reward := _get_reward ty |}.

Definition at_end (e : Enemy) : bool :=
  Z.of_nat (path_index e) >=? Z.of_nat (length (e_path e)) - 1.

Definition set_path_index (i : nat) (e : Enemy) : Enemy :=
  {| e_type := e_type e; e_path := e_path e; path_index := i;
     e_x := e_x e; e_y := e_y e; health := health e;
     max_health := max_health e; e_speed := e_speed e; reward := reward e |}.

Definition set_pos (x y : float) (e : Enemy) : Enemy :=
  {| e_type := e_type e; e_path := e_path e; path_index := path_index e;
     e_x := x; e_y := y; health := health e;
     max_health := max_health e; e_speed := e_speed e; reward := reward e |}.

Definition set_health (h : Z) (e : Enemy) : Enemy :=
  {| e_type := e_type e; e_path := e_path e; path_index := path_index e;
     e_x := e_x e; e_y := e_y e; health := h;
     max_health := max_health e; e_speed := e_speed e; reward := reward e |}.

(** [Enemy.move]: the enemy after the call, and the returned flag. *)
Definition Enemy_move (e : Enemy) : Enemy * bool :=
  if at_end e then (e, true)
  else
    let '(target_x, target_y) := waypoint (e_path e) (path_index e + 1) in
    let dx := PrimFloat.sub (float_of_Z target_x) (e_x e) in
    let dy := PrimFloat.sub (float_of_Z target_y) (e_y e) in
    let distance := hypot dx dy in
    if PrimFloat.leb distance (e_speed e) then
      let e1 := set_path_index (path_index e + 1) e in
      if at_end e1 then (e1, true)
      else
        let '(x, y) := waypoint (e_path e1) (path_index e1) in
        (set_pos (float_of_Z x) (float_of_Z y) e1, false)
    else
      (set_pos
         (PrimFloat.add (e_x e) (PrimFloat.mul (PrimFloat.div dx distance) (e_speed e)))
         (PrimFloat.add (e_y e) (PrimFloat.mul (PrimFloat.div dy distance) (e_speed e)))
         e, false).

(** [Enemy.take_damage] *)
Definition take_damage (damage : Z) (e : Enemy) : Enemy * bool :=
  let e1 := set_health (health e - damage) e in
  (e1, health e1 <=? 0).

(** The path built in [Game.__init__]. *)
Definition game_path : Path :=
  [(0, 200); (200, 200); (200, 400); (400, 400); (400, 200);
   (600, 200); (600, 500); (800, 500); (800, 300); (1000, 300)].

(** [n] successive calls of [move]: the enemy reached and the flags
    returned, the most recent first. *)
Fixpoint moves (n : nat) (e : Enemy) : Enemy * list bool :=
  match n with
  | O => (e, [])
  | S k =>
      let '(e1, bs) := moves k e in
      let '(e2, b) := Enemy_move e1 in
      (e2, b :: bs)
  end.

#[global] Instance Enemy_inhabited : Inhabited Enemy :=
  populate (new_Enemy EnemyType.BASIC []).

(** ** Projectile *)

Record Projectile := mkProjectile {
  p_x : float;
  p_y : float;
  p_target : nat;
  p_damage : Z;
  p_speed : float
}.

(** [Projectile.__init__], with the default [speed = 8.0] *)
Definition new_Projectile (x y : float) (tgt : nat) (dmg : Z) : Projectile :=
  {| p_x := x; p_y := y; p_target := tgt; p_damage := dmg; p_speed := 8%float |}.

(** [Projectile.move]; [tgt] is the object [self.target] refers to. *)
Definition Projectile_move (tgt : Enemy) (p : Projectile) : Projectile * bool :=
  let dx := PrimFloat.sub (e_x tgt) (p_x p) in
  let dy := PrimFloat.sub (e_y tgt) (p_y p) in
  let distance := hypot dx dy in
  if PrimFloat.leb distance (p_speed p) then (p, true)
  else
    ({| p_x := PrimFloat.add (p_x p) (PrimFloat.mul (PrimFloat.div dx distance) (p_speed p));
        p_y := PrimFloat.add (p_y p) (PrimFloat.mul (PrimFloat.div dy distance) (p_speed p));
        p_target := p_target p; p_damage := p_damage p; p_speed := p_speed p |},
     false).

(** ** Tower *)

Record Tower := mkTower {
  t_x : Z;
  t_y : Z;
  t_type : TowerType.t;
  level : Z;
  range : Z;
  damage : Z;
  fire_rate : Z;
  last_shot : Z;
  target : option nat
}.

Definition _get_range (ty : TowerType.t) (lvl : Z) : Z :=
  let base_range :=
    match ty with
    | TowerType.SNIPER => 150
    | TowerType.BASIC => 120
    | TowerType.SPLASH => 100
    end in
  base_range + (lvl - 1) * 20.

Definition _get_damage (ty : TowerType.t) (lvl : Z) : Z :=
  let base_damage :=
    match ty with
    | TowerType.SNIPER => 50
    | TowerType.BASIC => 30
    | TowerType.SPLASH => 20
    end in
  base_damage + (lvl - 1) * 15.

Definition _get_fire_rate (ty : TowerType.t) : Z :=
  match ty with
  | TowerType.BASIC => 30
  | TowerType.SNIPER => 90
  | TowerType.SPLASH => 60
  end.

(** [Tower.__init__] *)
Definition new_Tower (x y : Z) (ty : TowerType.t) : Tower :=
  {| t_x := x; t_y := y; t_type := ty; level := 1;
     range := _get_range ty 1; damage := _get_damage ty 1;
     fire_rate := _get_fire_rate ty; last_shot := 0; target := None |}.

Definition can_upgrade (t : Tower) : bool := level t <? 3.

(** [Tower.upgrade] *)
Definition upgrade (t : Tower) : Tower :=
  if level t <? 3 then
    {| t_x := t_x t; t_y := t_y t; t_type := t_type t; level := level t + 1;
       range := _get_range (t_type t) (level t + 1);
       damage := _get_damage (t_type t) (level t + 1);
       fire_rate := fire_rate t; last_shot := last_shot t; target := target t |}
  else t.

Definition set_target (tg : option nat) (t : Tower) : Tower :=
  {| t_x := t_x t; t_y := t_y t; t_type := t_type t; level := level t;
     range := range t; damage := damage t; fire_rate := fire_rate t;
     last_shot := last_shot t; target := tg |}.

Definition set_last_shot (f : Z) (t : Tower) : Tower :=
  {| t_x := t_x t; t_y := t_y t; t_type := t_type t; level := level t;
     range := range t; damage := damage t; fire_rate := fire_rate t;
     last_shot := f; target := target t |}.

(** The [distance] computed in the body of [Tower.find_target]. *)
Definition tower_distance (t : Tower) (e : Enemy) : float :=
  hypot (PrimFloat.sub (e_x e) (float_of_Z (t_x t)))
        (PrimFloat.sub (e_y e) (float_of_Z (t_y t))).

Definition in_range (t : Tower) (e : Enemy) : bool :=
  PrimFloat.leb (tower_distance t e) (float_of_Z (range t)).

(** The loop of [Tower.find_target], from the loop variables
    [closest] and [min_distance]; [ids] are the references in the
    list passed in, [heap] the objects they refer to. *)
Fixpoint find_target_loop (t : Tower) (heap : list Enemy) (ids : list nat)
    (closest : option nat) (min_distance : float) : option nat :=
  match ids with
  | [] => closest
  | id :: rest =>
      let distance := tower_distance t (heap !!! id) in
      if PrimFloat.leb distance (float_of_Z (range t)) && PrimFloat.ltb distance min_distance
      then find_target_loop t heap rest (Some id) distance
      else find_target_loop t heap rest closest min_distance
  end.

Definition find_target (t : Tower) (heap : list Enemy) (ids : list nat) : option nat :=
  find_target_loop t heap ids None infinity.

(** [Tower.shoot]: the tower after the call and the projectile, if any. *)
Definition shoot (current_frame : Z) (t : Tower) : Tower * option Projectile :=
  if current_frame - last_shot t >=? fire_rate t then
    match target t with
    | Some tgt =>
        (set_last_shot current_frame t,
         Some (new_Projectile (float_of_Z (t_x t)) (float_of_Z (t_y t)) tgt (damage t)))
    | None => (t, None)
    end
  else (t, None).

(** ** Wave *)

Record Wave := mkWave {
  wave_number : Z;
  w_path : Path;
  enemies_to_spawn : list EnemyType.t;
  spawn_timer : Z;
  spawn_delay : Z;
  complete : bool
}.

(** [random.shuffle] is the one external collaborator of the core: all
    that is known of it is that it permutes its argument.  An outcome
    of the generator is a function with that property. *)
Record Shuffle := mkShuffle {
  shuffle :> list EnemyType.t -> list EnemyType.t;
  shuffle_perm : forall l, Permutation (shuffle l) l
}.

(** [Wave._generate_enemies] *)
Definition _generate_enemies (sh : Shuffle) (n : Z) : list EnemyType.t :=
  let enemies := [] in
  let basic_count := Z.min (5 + n * 2) 20 in
  let enemies := enemies ++ repeat EnemyType.BASIC (Z.to_nat basic_count) in
  let enemies :=
    if n >=? 2 then
      let fast_count := Z.min n 10 in
      enemies ++ repeat EnemyType.FAST (Z.to_nat fast_count)
    else enemies in
  let enemies :=
    if n >=? 4 then
      let tank_count := Z.min ((n - 3) / 2) 5 in
      enemies ++ repeat EnemyType.TANK (Z.to_nat tank_count)
    else enemies in
  sh enemies.

(** [Wave.__init__] *)
Definition new_Wave (sh : Shuffle) (n : Z) (p : Path) : Wave :=
  {| wave_number := n; w_path := p; enemies_to_spawn := _generate_enemies sh n;
     spawn_timer := 0; spawn_delay := 60; complete := false |}.

(** [Wave.update]: the wave after the call and the enemy spawned, if any. *)
Definition Wave_update (current_frame : Z) (w : Wave) : Wave * option Enemy :=
  match enemies_to_spawn w with
  | [] =>
      ({| wave_number := wave_number w; w_path := w_path w;
          enemies_to_spawn := []; spawn_timer := spawn_timer w;
          spawn_delay := spawn_delay w; complete := true |}, None)
  | enemy_type :: rest =>
      let timer := spawn_timer w + 1 in
      if timer >=? spawn_delay w then
        ({| wave_number := wave_number w; w_path := w_path w;
            enemies_to_spawn := rest; spawn_timer := 0;
            spawn_delay := spawn_delay w; complete := complete w |},
         Some (new_Enemy enemy_type (w_path w)))
      else
        ({| wave_number := wave_number w; w_path := w_path w;
            enemies_to_spawn := enemy_type :: rest; spawn_timer := timer;
            spawn_delay := spawn_delay w; complete := complete w |}, None)
  end.

(** ** Game *)

Record Game := mkGame {
  state : GameState;
  frame_count : Z;
  path : Path;
  towers : list Tower;
  enemies : list nat;
  heap : list Enemy;
  projectiles : list Projectile;
  money : Z;
  lives : Z;
  current_wave : Z;
  wave : option Wave;
  wave_active : bool;
  selected_tower : option nat;
  placing_tower : bool
}.

Definition set_state (s : GameState) (g : Game) : Game :=
  mkGame s (frame_count g) (path g) (towers g) (enemies g) (heap g)
    (projectiles g) (money g) (lives g) (current_wave g) (wave g)
    (wave_active g) (selected_tower g) (placing_tower g).

Definition set_frame_count (f : Z) (g : Game) : Game :=
  mkGame (state g) f (path g) (towers g) (enemies g) (heap g)
    (projectiles g) (money g) (lives g) (current_wave g) (wave g)
    (wave_active g) (selected_tower g) (placing_tower g).

Definition set_towers (ts : list Tower) (g : Game) : Game :=
  mkGame (state g) (frame_count g) (path g) ts (enemies g) (heap g)
    (projectiles g) (money g) (lives g) (current_wave g) (wave g)
    (wave_active g) (selected_tower g) (placing_tower g).

Definition set_enemies (es : list nat) (g : Game) : Game :=
  mkGame (state g) (frame_count g) (path g) (towers g) es (heap g)
    (projectiles g) (money g) (lives g) (current_wave g) (wave g)
    (wave_active g) (selected_tower g) (placing_tower g).

Definition set_heap (h : list Enemy) (g : Game) : Game :=
  mkGame (state g) (frame_count g) (path g) (towers g) (enemies g) h
    (projectiles g) (money g) (lives g) (current_wave g) (wave g)
    (wave_active g) (selected_tower g) (placing_tower g).

Definition set_projectiles (ps : list Projectile) (g : Game) : Game :=
  mkGame (state g) (frame_count g) (path g) (towers g) (enemies g) (heap g)
    ps (money g) (lives g) (current_wave g) (wave g)
    (wave_active g) (selected_tower g) (placing_tower g).

Definition set_money (m : Z) (g : Game) : Game :=
  mkGame (state g) (frame_count g) (path g) (towers g) (enemies g) (heap g)
    (projectiles g) m (lives g) (current_wave g) (wave g)
    (wave_active g) (selected_tower g) (placing_tower g).

Definition set_lives (l : Z) (g : Game) : Game :=
  mkGame (state g) (frame_count g) (path g) (towers g) (enemies g) (heap g)
    (projectiles g) (money g) l (current_wave g) (wave g)
    (wave_active g) (selected_tower g) (placing_tower g).

Definition set_wave (w : option Wave) (g : Game) : Game :=
  mkGame (state g) (frame_count g) (path g) (towers g) (enemies g) (heap g)
    (projectiles g) (money g) (lives g) (current_wave g) w
    (wave_active g) (selected_tower g) (placing_tower g).

Definition set_wave_active (b : bool) (g : Game) : Game :=
  mkGame (state g) (frame_count g) (path g) (towers g) (enemies g) (heap g)
    (projectiles g) (money g) (lives g) (current_wave g) (wave g)
    b (selected_tower g) (placing_tower g).

Definition set_selected_tower (s : option nat) (g : Game) : Game :=
  mkGame (state g) (frame_count g) (path g) (towers g) (enemies g) (heap g)
    (projectiles g) (money g) (lives g) (current_wave g) (wave g)
    (wave_active g) s (placing_tower g).

Definition set_placing_tower (b : bool) (g : Game) : Game :=
  mkGame (state g) (frame_count g) (path g) (towers g) (enemies g) (heap g)
    (projectiles g) (money g) (lives g) (current_wave g) (wave g)
    (wave_active g) (selected_tower g) b.

(** [Game.__init__] *)
Definition new_Game : Game :=
  {| state := MENU; frame_count := 0; path := game_path;
     towers := []; enemies := []; heap := []; projectiles := [];
     money := STARTING_MONEY; lives := STARTING_LIVES; current_wave := 0;
     wave := None; wave_active := false;
     selected_tower := None; placing_tower := false |}.

(** [Game.reset_game]: every attribute it assigns; [path] and the
    objects already allocated are left alone (the old enemies are no
    longer referenced from the game). *)
Definition reset_game (g : Game) : Game :=
  {| state := PLAYING; frame_count := 0; path := path g;
     towers := []; enemies := []; heap := heap g; projectiles := [];
     money := STARTING_MONEY; lives := STARTING_LIVES; current_wave := 0;
     wave := None; wave_active := false;
     selected_tower := None; placing_tower := false |}.

(** [Game.start_next_wave]; [sh] is what [random.shuffle] does in the
    constructor of the wave. *)
Definition start_next_wave (sh : Shuffle) (g : Game) : Game :=
  let n := current_wave g + 1 in
  {| state := state g; frame_count := frame_count g; path := path g;
     towers := towers g; enemies := enemies g; heap := heap g;
     projectiles := projectiles g;
     money := if n >? 1 then money g + 50 else money g;
     lives := lives g; current_wave := n;
     wave := Some (new_Wave sh n (path g)); wave_active := true;
     selected_tower := selected_tower g; placing_tower := placing_tower g |}.

Definition near_waypoint (x y : Z) (p : Z * Z) : bool :=
  PrimFloat.ltb (int_distance x y (fst p) (snd p)) 40%float.

Definition near_tower (x y : Z) (t : Tower) : bool :=
  PrimFloat.ltb (int_distance x y (t_x t) (t_y t)) 50%float.

(** [Game.can_place_tower] *)
Definition can_place_tower (g : Game) (x y : Z) : bool :=
  if existsb (near_waypoint x y) (path g) then false
  else if existsb (near_tower x y) (towers g) then false
  else if y >? SCREEN_HEIGHT - 100 then false
  else true.

(** [Game.place_tower] *)
Definition place_tower (x y : Z) (g : Game) : Game :=
  if (money g >=? TOWER_COST) && can_place_tower g x y then
    set_placing_tower false
      (set_money (money g - TOWER_COST)
         (set_towers (towers g ++ [new_Tower x y TowerType.BASIC]) g))
  else g.

(** [Game.get_tower_at_pos]; a tower's [radius] is 15. *)
Fixpoint tower_at (x y : Z) (i : nat) (ts : list Tower) : option nat :=
  match ts with
  | [] => None
  | t :: rest =>
      if PrimFloat.leb (int_distance x y (t_x t) (t_y t)) 15%float then Some i
      else tower_at x y (S i) rest
  end.

Definition get_tower_at_pos (g : Game) (x y : Z) : option nat :=
  tower_at x y 0%nat (towers g).

(** [Game.upgrade_tower]; the argument is a tower of the game, given by
    its index (an index outside the list stands for no Python value). *)
Definition upgrade_tower (i : nat) (g : Game) : Game :=
  match towers g !! i with
  | Some t =>
      if (money g >=? UPGRADE_COST) && can_upgrade t then
        set_money (money g - UPGRADE_COST)
          (set_towers (<[i := upgrade t]> (towers g)) g)
      else g
  | None => g
  end.

(** *** One tick: [Game.update] *)

(** [list.remove]: the first occurrence goes. *)
Fixpoint remove_first (id : nat) (l : list nat) : list nat :=
  match l with
  | [] => []
  | x :: r => if Nat.eqb x id then r else x :: remove_first id r
  end.

(** [x in list], on references. *)
Definition mem (id : nat) (l : list nat) : bool := existsb (Nat.eqb id) l.

(** [self.enemies.append(enemy)] for a freshly constructed enemy. *)
Definition add_enemy (e : Enemy) (g : Game) : Game :=
  set_enemies (enemies g ++ [length (heap g)]) (set_heap (heap g ++ [e]) g).

(** The block under [# Update wave]. *)
Definition update_wave (g : Game) : Game :=
  match wave g with
  | Some w =>
      if negb (complete w) then
        let '(w1, spawned) := Wave_update (frame_count g) w in
        let g1 := set_wave (Some w1) g in
        match spawned with
        | Some e => add_enemy e g1
        | None => g1
        end
      else
        match enemies g with
        | [] =>
            if current_wave g >=? 10 then set_state VICTORY g
            else set_wave_active false g
        | _ :: _ => g
        end
  | None => g
  end.

(** The body of [for enemy in self.enemies[:]]. *)
Definition update_enemy (id : nat) (g : Game) : Game :=
  let '(e1, reached) := Enemy_move (heap g !!! id) in
  let g1 := set_heap (<[id := e1]> (heap g)) g in
  if reached then
    let g2 := set_lives (lives g1 - 1) g1 in
    let g3 := set_enemies (remove_first id (enemies g2)) g2 in
    if lives g3 <=? 0 then set_state GAME_OVER g3 else g3
  else g1.

(** The loop over the copy [self.enemies[:]]. *)
Fixpoint enemies_loop (snapshot : list nat) (g : Game) : Game :=
  match snapshot with
  | [] => g
  | id :: rest => enemies_loop rest (update_enemy id g)
  end.

Definition update_enemies (g : Game) : Game := enemies_loop (enemies g) g.

(** The body of [for tower in self.towers], on the tower of index [i]. *)
Definition update_tower (i : nat) (g : Game) : Game :=
  match towers g !! i with
  | Some t =>
      let t1 := set_target (find_target t (heap g) (enemies g)) t in
      let '(t2, projectile) := shoot (frame_count g) t1 in
      let g1 := set_towers (<[i := t2]> (towers g)) g in
      match projectile with
      | Some p => set_projectiles (projectiles g1 ++ [p]) g1
      | None => g1
      end
  | None => g
  end.

Fixpoint towers_loop (idxs : list nat) (g : Game) : Game :=
  match idxs with
  | [] => g
  | i :: rest => towers_loop rest (update_tower i g)
  end.

Definition update_towers (g : Game) : Game :=
  towers_loop (seq 0 (length (towers g))) g.

(** The body of [for projectile in self.projectiles[:]].  The loop
    visits every projectile of the copy once and either removes that
    very object from [self.projectiles] or leaves it there, moved; the
    second component is the projectile if it stays. *)
Definition update_projectile (p : Projectile) (g : Game) : Game * option Projectile :=
  let '(p1, hit) := Projectile_move (heap g !!! p_target p) p in
  if hit || negb (mem (p_target p) (enemies g)) then
    if mem (p_target p) (enemies g) then
      let '(e1, killed) := take_damage (p_damage p) (heap g !!! p_target p) in
      let g1 := set_heap (<[p_target p := e1]> (heap g)) g in
      if killed then
        (set_enemies (remove_first (p_target p) (enemies g1))
           (set_money (money g1 + reward e1) g1), None)
      else (g1, None)
    else (g, None)
  else (g, Some p1).

(** The loop over the copy [self.projectiles[:]]: the game reached and
    the projectiles that stay, in order. *)
Fixpoint projectiles_loop (snapshot : list Projectile) (g : Game) : Game * list Projectile :=
  match snapshot with
  | [] => (g, [])
  | p :: rest =>
      let '(g1, kept) := update_projectile p g in
      let '(g2, ps) := projectiles_loop rest g1 in
      (g2, match kept with Some p1 => p1 :: ps | None => ps end)
  end.

Definition update_projectiles (g : Game) : Game :=
  let '(g1, ps) := projectiles_loop (projectiles g) g in
  set_projectiles ps g1.

(** [Game.update] *)
Definition update (g : Game) : Game :=
  match state g with
  | PLAYING =>
      let g := set_frame_count (frame_count g + 1) g in
      let g := update_wave g in
      let g := update_enemies g in
      let g := update_towers g in
      update_projectiles g
  | _ => g
  end.

(** *** The click handlers that call the operations above *)

Definition on_button (x y : Z) (top : Z) : bool :=
  (SCREEN_WIDTH / 2 - 100 <=? x) && (x <=? SCREEN_WIDTH / 2 + 100)
  && (top <=? y) && (y <=? top + 50).

(** [Game.handle_menu_click] *)
Definition handle_menu_click (pos : Z * Z) (g : Game) : Game :=
  if on_button (fst pos) (snd pos) 300 then reset_game g else g.

(** [Game.handle_end_screen_click] *)
Definition handle_end_screen_click (pos : Z * Z) (g : Game) : Game :=
  if on_button (fst pos) (snd pos) 350 then reset_game g else g.

(** ** Notions used in the statements *)

(** [n] ticks in a row. *)
Fixpoint ticks (n : nat) (g : Game) : Game :=
  match n with
  | O => g
  | S k => ticks k (update g)
  end.

(** The states of a session: what the constructor builds, closed under
    the operations of the controller. *)
Inductive reachable : Game -> Prop :=
| reach_new : reachable new_Game
| reach_reset g : reachable g -> reachable (reset_game g)
| reach_update g : reachable g -> reachable (update g)
| reach_place x y g : reachable g -> reachable (place_tower x y g)
| reach_upgrade i g : reachable g -> reachable (upgrade_tower i g)
| reach_wave sh g : reachable g -> reachable (start_next_wave sh g).

(** A tower whose derived attributes are those of the stat table. *)
Definition Tower_ok (t : Tower) : Prop :=
  1 <= level t <= 3
  /\ range t = _get_range (t_type t) (level t)
  /\ damage t = _get_damage (t_type t) (level t)
  /\ fire_rate t = _get_fire_rate (t_type t).

(** Rewards are those of [_get_reward], hence never negative. *)
Definition heap_ok (h : list Enemy) : Prop :=
  Forall (fun e => 0 <= reward e) h.

(** How many enemies of the snapshot report the end of the path during
    the enemy loop started in [g]. *)
Fixpoint arrivals (snapshot : list nat) (g : Game) : nat :=
  match snapshot with
  | [] => O
  | id :: rest =>
      ((if snd (Enemy_move (heap g !!! id)) then 1 else 0)
       + arrivals rest (update_enemy id g))%nat
  end.

(** The game at the start of the enemy loop of the tick begun in [g]. *)
Definition before_enemies (g : Game) : Game :=
  update_wave (set_frame_count (frame_count g + 1) g).

(** The number of enemies that reach the end during the tick begun in [g]. *)
Definition reached_end (g : Game) : nat :=
  match state g with
  | PLAYING => arrivals (enemies (before_enemies g)) (before_enemies g)
  | _ => O
  end.

(** The counts of section 4.4 of the specification, in its words. *)
Definition spec_basic_count (n : Z) : Z := Z.min (5 + 2 * n) 20.
Definition spec_fast_count (n : Z) : Z := if 2 <=? n then Z.min n 10 else 0.
Definition spec_tank_count (n : Z) : Z := if 4 <=? n then Z.min ((n - 3) / 2) 5 else 0.

(** Two outcomes of the shuffle: the list as built, and reversed. *)
Definition keep_order : Shuffle :=
  mkShuffle (fun l => l) (fun l => Permutation_refl l).

Definition reversed : Shuffle :=
  mkShuffle (@rev EnemyType.t) (fun l => Permutation_sym (Permutation_rev l)).

(** The number of calls of [move] after which an enemy of the game
    reports the end: the length of the path, 1900, over the speed. *)
Definition travel_time (ty : EnemyType.t) : nat :=
  match ty with
  | EnemyType.BASIC => 950
  | EnemyType.FAST => 475
  | EnemyType.TANK => 1900
  end.

Definition between (a b : Z) (x : float) : bool :=
  PrimFloat.leb (float_of_Z (Z.min a b)) x && PrimFloat.leb x (float_of_Z (Z.max a b)).

(** The point lies on the segment from waypoint [i] to waypoint [i+1];
    the segments of [game_path] are parallel to the axes, so that the
    bounding box of a segment is the segment. *)
Definition on_segment (p : Path) (i : nat) (x y : float) : bool :=
  between (fst (waypoint p i)) (fst (waypoint p (i + 1))) x
  && between (snd (waypoint p i)) (snd (waypoint p (i + 1))) y.

(** An enemy is on the segment it is walking; once at the end, it is on
    the last segment. *)
Definition on_path (e : Enemy) : bool :=
  on_segment (e_path e)
    (Nat.min (path_index e) (length (e_path e) - 2)) (e_x e) (e_y e).

(** A session as the player drives it: the commands, in order. *)
Inductive Command :=
| Reset
| Tick (n : nat)
| Place (x y : Z)
| Upgrade (i : nat)
| NextWave (sh : Shuffle).

Definition perform (c : Command) (g : Game) : Game :=
  match c with
  | Reset => reset_game g
  | Tick n => ticks n g
  | Place x y => place_tower x y g
  | Upgrade i => upgrade_tower i g
  | NextWave sh => start_next_wave sh g
  end.

Fixpoint session (cs : list Command) (g : Game) : Game :=
  match cs with
  | [] => g
  | c :: rest => session rest (perform c g)
  end.

(** A session in which every wave is started while the previous one is
    still spawning: Basic enemies enter every 60 ticks from tick 60 on,
    the twentieth at tick 1200, and the first Fast one at tick 1675; no
    tower is built.  It stops after tick 2148. *)
Definition leaking_session : Game :=
  session
    [Reset; NextWave keep_order; Tick 420; NextWave keep_order; Tick 540;
     NextWave keep_order; Tick 655; NextWave reversed; Tick 533]
    new_Game.

(** The invariant of a session. *)
Definition session_ok (g : Game) : Prop :=
  0 <= money g /\ (state g <> GAME_OVER -> 1 <= lives g) /\ heap_ok (heap g).

(** What the loop variables [closest] and [min_distance] of
    [find_target] know after the enemies [seen]. *)
Definition nearest_so_far (t : Tower) (heap : list Enemy)
    (seen : list nat) (closest : option nat) (m : float) : Prop :=
  let dist id := tower_distance t (heap !!! id) in
  let near id := in_range t (heap !!! id) in
  PrimFloat.leb m m = true
  /\ (forall j, j ∈ seen -> near j = true -> PrimFloat.leb m (dist j) = true)
  /\ match closest with
     | None => m = infinity /\ forall j, j ∈ seen -> near j = false
     | Some c =>
         m = dist c /\ near c = true
         /\ exists before after, seen = before ++ c :: after
            /\ forall j, j ∈ before -> near j = true ->
                         PrimFloat.ltb (dist c) (dist j) = true
     end.

(** The flags that [n] calls of [move] return, the most recent first,
    when the end is reported from call [T] on. *)
Definition flags_after (T n : nat) : list bool :=
  repeat true (n - (T - 1)) ++ repeat false (Nat.min n (T - 1)).

Fixpoint same_flags (l1 l2 : list bool) : bool :=
  match l1, l2 with
  | [], [] => true
  | b1 :: r1, b2 :: r2 => Bool.eqb b1 b2 && same_flags r1 r2
  | _, _ => false
  end.

(** After [n] calls an enemy of the game is on the path and has
    returned the flags expected of its type. *)
Definition moves_check (ty : EnemyType.t) (n : nat) : bool :=
  let '(e, bs) := moves n (new_Enemy ty game_path) in
  on_path e && same_flags bs (flags_after (travel_time ty) n).

(** [P] on the [2^depth] integers from [lo] on. *)
Fixpoint all_from (P : Z -> bool) (depth : nat) (lo : Z) : bool :=
  match depth with
  | O => P lo
  | S d => all_from P d lo && all_from P d (lo + 2 ^ Z.of_nat d)
  end.

(** On an integer [n], [math.sqrt(n) < r] is [n < r * r]. *)
Definition sqrt_lt_exact (r : Z) (n : Z) : bool :=
  Bool.eqb (PrimFloat.ltb (PrimFloat.sqrt (float_of_Z n)) (float_of_Z r)) (n <? r * r).

(** The length of a path whose segments are parallel to the axes. *)
Fixpoint rectilinear_length (p : Path) : Z :=
  match p with
  | [] => 0
  | (x1, y1) :: rest =>
      match rest with
      | [] => 0
      | (x2, y2) :: _ => Z.abs (x2 - x1) + Z.abs (y2 - y1) + rectilinear_length rest
      end
  end.

(** ** The rest of the controller: clicks during play and the main loop *)

(** [Game.handle_game_click]; [sh] is what [random.shuffle] does if the
    click starts a wave. *)
Definition handle_game_click (sh : Shuffle) (pos : Z * Z) (button : Z) (g : Game) : Game :=
  let '(x, y) := pos in
  if button =? 3 then set_placing_tower false (set_selected_tower None g)
  else if y >? SCREEN_HEIGHT - 100 then
    if (250 <=? x) && (x <=? 400)
       && (SCREEN_HEIGHT - 50 <=? y) && (y <=? SCREEN_HEIGHT - 15) then
      if negb (wave_active g) then start_next_wave sh g else g
    else if (450 <=? x) && (x <=? 600)
            && (SCREEN_HEIGHT - 80 <=? y) && (y <=? SCREEN_HEIGHT - 45) then
      if money g >=? TOWER_COST
      then set_selected_tower None (set_placing_tower true g)
      else g
    else if (450 <=? x) && (x <=? 600)
            && (SCREEN_HEIGHT - 40 <=? y) && (y <=? SCREEN_HEIGHT - 5) then
      match selected_tower g with
      | Some i =>
          match towers g !! i with
          | Some t => if can_upgrade t then upgrade_tower i g else g
          | None => g
          end
      | None => g
      end
    else g
  else if placing_tower g then place_tower x y g
  else set_selected_tower (get_tower_at_pos g x y) g.

(** The events [Game.run] looks at.  A click carries the outcome of the
    shuffle it may trigger; a motion only sets [hover_pos], which is
    read by the drawing code alone. *)
Inductive Event :=
| QUIT
| MOUSEBUTTONDOWN (pos : Z * Z) (button : Z) (sh : Shuffle)
| MOUSEMOTION (pos : Z * Z).

(** The body of [for event in pygame.event.get()]. *)
Definition handle_event (ev : Event) (g : Game) : Game :=
  match ev with
  | MOUSEBUTTONDOWN pos button sh =>
      match state g with
      | MENU => handle_menu_click pos g
      | PLAYING => handle_game_click sh pos button g
      | GAME_OVER | VICTORY => handle_end_screen_click pos g
      | PAUSED => g
      end
  | _ => g
  end.

Fixpoint handle_events (evs : list Event) (g : Game) : Game :=
  match evs with
  | [] => g
  | ev :: rest => handle_events rest (handle_event ev g)
  end.

Definition is_quit (ev : Event) : bool :=
  match ev with QUIT => true | _ => false end.

(** [Game.run] on the events of successive frames: each frame handles
    its events, then updates; the frame that sees [QUIT] is the last. *)
Fixpoint run (frames : list (list Event)) (g : Game) : Game :=
  match frames with
  | [] => g
  | evs :: rest =>
      let g1 := update (handle_events evs g) in
      if existsb is_quit evs then g1 else run rest g1
  end.

(** The states the main loop goes through. *)
Inductive played : Game -> Prop :=
| played_new : played new_Game
| played_event ev g : played g -> played (handle_event ev g)
| played_update g : played g -> played (update g).

(** ** More notions used in the statements *)

(** Damage taken in several hits: the enemy after them and the flag
    returned by the last one. *)
Fixpoint take_damages (ds : list Z) (e : Enemy) : Enemy * bool :=
  match ds with
  | [] => (e, false)
  | d :: rest =>
      let '(e1, dead) := take_damage d e in
      match rest with
      | [] => (e1, dead)
      | _ :: _ => take_damages rest e1
      end
  end.

Definition sum_Z (l : list Z) : Z := fold_right Z.add 0 l.

(** [n] calls of [Wave.update]: the wave after them and the enemies
    spawned, in order. *)
Fixpoint Wave_updates (n : nat) (w : Wave) : Wave * list Enemy :=
  match n with
  | O => (w, [])
  | S k =>
      let '(w1, spawned) := Wave_update 0 w in
      let '(w2, es) := Wave_updates k w1 in
      (w2, match spawned with Some e => e :: es | None => es end)
  end.

Definition set_schedule (l : list EnemyType.t) (timer : Z) (w : Wave) : Wave :=
  {| wave_number := wave_number w; w_path := w_path w;
     enemies_to_spawn := l; spawn_timer := timer;
     spawn_delay := spawn_delay w; complete := complete w |}.

Definition set_complete (b : bool) (w : Wave) : Wave :=
  {| wave_number := wave_number w; w_path := w_path w;
     enemies_to_spawn := enemies_to_spawn w; spawn_timer := spawn_timer w;
     spawn_delay := spawn_delay w; complete := b |}.

(** A live enemy: on its way along the path of the game, with some
    health left, and with the attributes of its type. *)
Definition enemy_ok (e : Enemy) : Prop :=
  at_end e = false
  /\ 0 < health e <= max_health e
  /\ e_path e = game_path
  /\ max_health e = _get_max_health (e_type e)
  /\ reward e = _get_reward (e_type e)
  /\ e_speed e = _get_speed (e_type e).

(** The live list holds no enemy twice, and refers to live enemies. *)
Definition live_ok (g : Game) : Prop :=
  NoDup (enemies g)
  /\ forall id, id ∈ enemies g -> exists e, heap g !! id = Some e /\ enemy_ok e.

Definition wave_ok (g : Game) : Prop :=
  match wave g with
  | Some w =>
      wave_number w = current_wave g /\ 1 <= current_wave g
      /\ w_path w = game_path /\ spawn_delay w = 60
      /\ 0 <= spawn_timer w < 60
      /\ (complete w = true -> enemies_to_spawn w = [])
  | None => current_wave g = 0 /\ wave_active g = false
  end.

(** No wave running, no enemy. *)
Definition quiet (g : Game) : Prop :=
  wave_active g = false ->
  enemies g = []
  /\ match wave g with Some w => complete w = true | None => True end.

Definition proj_ok (p : Projectile) : Prop := 0 < p_damage p /\ p_speed p = 8%float.

Definition sound (g : Game) : Prop :=
  path g = game_path /\ live_ok g /\ wave_ok g /\ quiet g
  /\ Forall Tower_ok (towers g) /\ Forall proj_ok (projectiles g)
  /\ 0 <= frame_count g.

(** A game through the main loop: the player starts from the menu,
    takes the tower button, builds at (300, 250) and starts wave 1;
    [n] frames without events follow. *)
Definition opening : list (list Event) :=
  [[MOUSEBUTTONDOWN (500, 320) 1 keep_order];
   [MOUSEBUTTONDOWN (500, 640) 1 keep_order];
   [MOUSEBUTTONDOWN (300, 250) 1 keep_order];
   [MOUSEBUTTONDOWN (300, 660) 1 keep_order]].

Definition first_wave (n : nat) : Game := run (opening ++ repeat [] n) new_Game.

(** An enemy of the game of type [ty] after [a] calls of [move], with
    health [h]. *)
Definition walker (ty : EnemyType.t) (a : nat) (h : Z) : Enemy :=
  set_health h (fst (moves a (new_Enemy ty game_path))).

(** [e] has made [a] moves since it entered. *)
Definition walks (e : Enemy) (ty : EnemyType.t) (a : nat) : Prop :=
  e = walker ty a (health e).

(** The enemies on the field with their types and the moves made. *)
Definition walking (kind : nat -> EnemyType.t) (age : nat -> nat) (g : Game) : Prop :=
  forall id, id ∈ enemies g ->
    exists e, heap g !! id = Some e /\ walks e (kind id) (age id)
              /\ (1 <= age id < travel_time (kind id))%nat.

(** Enemies of one wave enter 60 ticks apart: the moves made by two of
    them differ by a multiple of 60, and follow the timer of the wave
    while it spawns. *)
Definition in_step (kind : nat -> EnemyType.t) (age : nat -> nat) (g : Game) : Prop :=
  walking kind age g
  /\ (forall i j, i ∈ enemies g -> j ∈ enemies g ->
        Z.of_nat (age i) mod 60 = Z.of_nat (age j) mod 60 /\ (age i = age j -> i = j))
  /\ (forall w, wave g = Some w -> complete w = false ->
        forall id, id ∈ enemies g ->
          Z.of_nat (age id) mod 60 = (spawn_timer w + 1) mod 60).

Definition marching (g : Game) : Prop := exists kind age, in_step kind age g.

Definition lives_ok (g : Game) : Prop :=
  0 <= lives g <= STARTING_LIVES /\ (lives g = 0 <-> state g = GAME_OVER).

(** The enemy [id] is about to make the move that reports the end. *)
Definition due (kind : nat -> EnemyType.t) (age : nat -> nat) (id : nat) : bool :=
  Nat.eqb (S (age id)) (travel_time (kind id)).

Fixpoint dues (kind : nat -> EnemyType.t) (age : nat -> nat) (l : list nat) : nat :=
  match l with
  | [] => 0
  | id :: rest => ((if due kind age id then 1 else 0) + dues kind age rest)%nat
  end.

(** What the towers and the projectiles do to the enemies: some lose
    health, some leave the field. *)
Definition thins (g g' : Game) : Prop :=
  wave g' = wave g /\ lives g' = lives g /\ state g' = state g
  /\ (forall id, id ∈ enemies g' -> id ∈ enemies g)
  /\ (forall id e, heap g !! id = Some e ->
        exists h, heap g' !! id = Some (set_health h e))
  /\ current_wave g' = current_wave g /\ wave_active g' = wave_active g.

(** [in_step] at the start of the enemy loop: an enemy that has just
    entered has made no move yet, and the timer has advanced already. *)
Definition about_to_move (kind : nat -> EnemyType.t) (age : nat -> nat) (g : Game) : Prop :=
  (forall id, id ∈ enemies g ->
     exists e, heap g !! id = Some e /\ walks e (kind id) (age id)
               /\ (age id < travel_time (kind id))%nat)
  /\ (forall i j, i ∈ enemies g -> j ∈ enemies g ->
        Z.of_nat (age i) mod 60 = Z.of_nat (age j) mod 60 /\ (age i = age j -> i = j))
  /\ (forall w, wave g = Some w -> complete w = false ->
        forall id, id ∈ enemies g ->
          (Z.of_nat (age id) + 1) mod 60 = (spawn_timer w + 1) mod 60).

(** What the main loop keeps. *)
Definition fair (g : Game) : Prop := sound g /\ marching g /\ lives_ok g.

(** The changes of state in the game. *)
Definition transition (s s' : GameState) : bool :=
  match s, s' with
  | MENU, PLAYING | PLAYING, GAME_OVER | PLAYING, VICTORY
  | GAME_OVER, PLAYING | VICTORY, PLAYING => true
  | _, _ => false
  end.

Definition staged (g : Game) : Prop :=
  (0 <= current_wave g <= 10)
  /\ (wave_active g = false -> current_wave g < 10)
  /\ state g <> PAUSED
  /\ (state g = MENU -> g = new_Game)
  /\ (state g = VICTORY ->
      current_wave g = 10 /\ enemies g = []
      /\ exists w, wave g = Some w /\ complete w = true).

(** A game that is won: five towers are built before the first wave
    (on the tower button, then on the site), and each of the ten waves
    is started (on the wave button) and given 2600 frames. *)
Definition click (x y : Z) : list Event := [MOUSEBUTTONDOWN (x, y) 1 keep_order].

Definition build (x y : Z) : list (list Event) := [click 500 640; click x y].

Definition one_wave (n : nat) : list (list Event) := click 300 660 :: repeat [] n.

Definition winning_frames : list (list Event) :=
  [click 500 320] ++ build 300 300 ++ build 500 300 ++ build 700 400
  ++ build 300 350 ++ build 500 250 ++ concat (repeat (one_wave 2600) 10).

Definition winning_game : Game := run winning_frames new_Game.

(** Where the towers stand, in the order they were built. *)
Definition site (t : Tower) : Z * Z := (t_x t, t_y t).

Definition sites (g : Game) : list (Z * Z) := site <$> towers g.

Definition near_site (x y : Z) (s : Z * Z) : bool :=
  PrimFloat.ltb (int_distance x y (fst s) (snd s)) 50%float.

(** A site that [can_place_tower] accepts, given the sites taken. *)
Definition site_ok (earlier : list (Z * Z)) (s : Z * Z) : Prop :=
  existsb (near_waypoint (fst s) (snd s)) game_path = false
  /\ existsb (near_site (fst s) (snd s)) earlier = false
  /\ (snd s >? SCREEN_HEIGHT - 100) = false.

Definition spaced (l : list (Z * Z)) : Prop :=
  forall j s, l !! j = Some s -> site_ok (take j l) s.

(** On an integer [n], [math.sqrt(n) <= r] is [n <= r * r]. *)
Definition sqrt_le_exact (r : Z) (n : Z) : bool :=
  Bool.eqb (PrimFloat.leb (PrimFloat.sqrt (float_of_Z n)) (float_of_Z r)) (n <=? r * r).

(** The square of the distance between two points of the screen. *)
Definition sq_dist (x y px py : Z) : Z := (x - px) ^ 2 + (y - py) ^ 2.

(** What a tower has cost: the price of the tower and of its upgrades. *)
Definition cost (t : Tower) : Z := TOWER_COST + UPGRADE_COST * (level t - 1).

Definition spent (g : Game) : Z := sum_Z (cost <$> towers g).

(** The money given at the start of the waves after the first. *)
Definition bonus (g : Game) : Z := 50 * Z.max 0 (current_wave g - 1).

Definition thrifty (g : Game) : Prop :=
  heap_ok (heap g) /\ 0 <= current_wave g /\ 0 <= money g
  /\ STARTING_MONEY + bonus g <= money g + spent g.

(** ** Integers on the screen

    Coordinates of the screen, differences and speeds are small
    integers, on which the binary64 operations of the code are exact.
    The checks below say so for every integer (or pair) of a range;
    the properties evaluate them. *)

Definition feq (a b : float) : bool := PrimFloat.Leibniz.eqb a b.

(** [P] on the pairs of integers of [lo, lo + 2^depth). *)
Definition all_pairs (P : Z -> Z -> bool) (depth : nat) (lo : Z) : bool :=
  all_from (fun a => all_from (P a) depth lo) depth lo.

Definition sub_exact (a b : Z) : bool :=
  feq (PrimFloat.sub (float_of_Z a) (float_of_Z b)) (float_of_Z (a - b)).

Definition add_exact (a b : Z) : bool :=
  feq (PrimFloat.add (float_of_Z a) (float_of_Z b)) (float_of_Z (a + b)).

Definition leb_exact (a b : Z) : bool :=
  Bool.eqb (PrimFloat.leb (float_of_Z a) (float_of_Z b)) (a <=? b).

(** The speeds of [_get_speed], as integers. *)
Definition speed_of (ty : EnemyType.t) : Z :=
  match ty with
  | EnemyType.BASIC => 2
  | EnemyType.FAST => 4
  | EnemyType.TANK => 1
  end.

Definition speeds : list Z := [1; 2; 4].

(** Along an axis the distance is the absolute value of the difference. *)
Definition hypot_axis_exact (d : Z) : bool :=
  feq (hypot (float_of_Z d) (float_of_Z 0)) (float_of_Z (Z.abs d))
  && feq (hypot (float_of_Z 0) (float_of_Z d)) (float_of_Z (Z.abs d)).

(** [(dx / distance) * speed] along an axis: the speed with the sign of
    [dx] on the axis of the move, 0 on the other. *)
Definition unit_step_exact (d : Z) : bool :=
  (d =? 0)
  || forallb (fun s =>
       feq (PrimFloat.mul (PrimFloat.div (float_of_Z d) (float_of_Z (Z.abs d)))
              (float_of_Z s))
           (float_of_Z (Z.sgn d * s))
       && feq (PrimFloat.mul (PrimFloat.div (float_of_Z 0) (float_of_Z (Z.abs d)))
                 (float_of_Z s))
              (float_of_Z 0)) speeds.

Definition step_add_exact (x : Z) : bool :=
  forallb (add_exact x) [-4; -2; -1; 0; 1; 2; 4].

Definition speed_leb_exact (a : Z) : bool := forallb (leb_exact a) speeds.

(** ** Enemies on the paths of the screen *)

Definition on_screen (q : Z * Z) : bool :=
  (0 <=? fst q) && (fst q <=? 1023) && (0 <=? snd q) && (snd q <=? 1023).

(** Every segment is parallel to an axis. *)
Fixpoint rectilinear (p : Path) : bool :=
  match p with
  | a :: rest =>
      match rest with
      | b :: _ => ((fst a =? fst b) || (snd a =? snd b)) && rectilinear rest
      | [] => true
      end
  | [] => true
  end.

(** The paths that fit the screen: two waypoints or more,
    integer coordinates from 0 to 1023, segments parallel to the axes. *)
Definition screen_path (p : Path) : bool :=
  (2 <=? length p)%nat && forallb on_screen p && rectilinear p.

(** [Enemy.move] on integers: where the enemy is on the path. *)
Record Walker := mkWalker { w_index : nat; w_x : Z; w_y : Z }.

Definition walk_step (p : Path) (s : Z) (w : Walker) : Walker * bool :=
  if Z.of_nat (w_index w) >=? Z.of_nat (length p) - 1 then (w, true)
  else
    let '(tx, ty) := waypoint p (w_index w + 1) in
    if Z.abs (tx - w_x w) + Z.abs (ty - w_y w) <=? s then
      if Z.of_nat (w_index w + 1) >=? Z.of_nat (length p) - 1
      then (mkWalker (w_index w + 1) (w_x w) (w_y w), true)
      else (mkWalker (w_index w + 1) tx ty, false)
    else
      (mkWalker (w_index w)
         (w_x w + Z.sgn (tx - w_x w) * s) (w_y w + Z.sgn (ty - w_y w) * s),
       false).

Definition walk_start (p : Path) : Walker :=
  mkWalker 0 (fst (waypoint p 0)) (snd (waypoint p 0)).

(** [n] steps from the first waypoint, and the flags, the most recent
    first. *)
Fixpoint walk (p : Path) (s : Z) (n : nat) : Walker * list bool :=
  match n with
  | O => (walk_start p, [])
  | S k =>
      let '(w1, bs) := walk p s k in
      let '(w2, b) := walk_step p s w1 in
      (w2, b :: bs)
  end.

(** The enemy of type [ty] that is where [w] is on the path [p]. *)
Definition enemy_at (ty : EnemyType.t) (p : Path) (w : Walker) : Enemy :=
  {| e_type := ty; e_path := p; path_index := w_index w;
     e_x := float_of_Z (w_x w); e_y := float_of_Z (w_y w);
     health := _get_max_health ty; max_health := _get_max_health ty;
     e_speed := _get_speed ty; reward := _get_reward ty |}.

Definition seg_len (a b : Z * Z) : Z :=
  Z.abs (fst b - fst a) + Z.abs (snd b - snd a).

(** The calls of [move] a segment of length [L] takes at speed [s]:
    [L / s] rounded up, and one at least. *)
Definition seg_moves (s L : Z) : Z := Z.max 1 ((L + s - 1) / s).

(** The calls of [move] a path takes, segment by segment. *)
Fixpoint travel (s : Z) (p : Path) : Z :=
  match p with
  | a :: rest =>
      match rest with
      | b :: _ => seg_moves s (seg_len a b) + travel s rest
      | [] => 0
      end
  | [] => 0
  end.

(** The calls of [move] left before the end is reported. *)
Definition moves_left (p : Path) (s : Z) (w : Walker) : Z :=
  if Z.of_nat (w_index w) >=? Z.of_nat (length p) - 1 then 0
  else seg_moves s (seg_len (w_x w, w_y w) (waypoint p (w_index w + 1)))
       + travel s (drop (w_index w + 1) p).

Definition in_box (a b : Z * Z) (x y : Z) : Prop :=
  Z.min (fst a) (fst b) <= x <= Z.max (fst a) (fst b)
  /\ Z.min (snd a) (snd b) <= y <= Z.max (snd a) (snd b).

(** The walker is on the segment it walks; at the end, on the last one. *)
Definition walker_ok (p : Path) (w : Walker) : Prop :=
  (w_index w <= length p - 1)%nat
  /\ in_box (waypoint p (Nat.min (w_index w) (length p - 2)))
            (waypoint p (Nat.min (w_index w) (length p - 2) + 1))
            (w_x w) (w_y w).

(** A path far from the screen: two waypoints on the x axis, at 2^54
    and 2^55. *)
Definition far_path : Path := [(18014398509481984, 0); (36028797018963968, 0)].

(** ** The tower step and the projectile step, declaratively *)

(** What the tower step does to one tower in the game [g]: the new
    target, and the shot if the cooldown allows. *)
Definition tower_turn (g : Game) (t : Tower) : Tower * option Projectile :=
  shoot (frame_count g) (set_target (find_target t (heap g) (enemies g)) t).

(** The projectile hits its target, as [Projectile.move] tests it, with
    the enemies where they are in the heap [h]. *)
Definition hits (h : list Enemy) (p : Projectile) : bool :=
  snd (Projectile_move (h !!! p_target p) p).

(** The projectile after its move. *)
Definition flown (h : list Enemy) (p : Projectile) : Projectile :=
  fst (Projectile_move (h !!! p_target p) p).

(** The damage that the projectile deals to the enemy [id] if it hits. *)
Definition dealt (h : list Enemy) (p : Projectile) (id : nat) : Z :=
  if Nat.eqb (p_target p) id && hits h p then p_damage p else 0.

(** The damage that the projectiles of [ps] that hit deal to the enemy
    [id]. *)
Fixpoint damage_on (h : list Enemy) (ps : list Projectile) (id : nat) : Z :=
  match ps with
  | [] => 0
  | p :: rest => dealt h p id + damage_on h rest id
  end.

(** The enemy [id] outlives the projectiles [ps]. *)
Definition outlives (h : list Enemy) (ps : list Projectile) (id : nat) : bool :=
  damage_on h ps id <? health (h !!! id).

(** The rewards of the enemies of [ids] that do not. *)
Fixpoint bounty (h : list Enemy) (ps : list Projectile) (ids : list nat) : Z :=
  match ids with
  | [] => 0
  | id :: rest =>
      (if outlives h ps id then 0 else reward (h !!! id)) + bounty h ps rest
  end.

(** ** Distances on the screen *)

Definition sq_exact (d : Z) : bool :=
  feq (PrimFloat.mul (float_of_Z d) (float_of_Z d)) (float_of_Z (d * d)).

Definition sum_sq_exact (a b : Z) : bool := add_exact (a * a) (b * b).

(** [math.sqrt] of an integer. *)
Definition sqrt_Z (n : Z) : float := PrimFloat.sqrt (float_of_Z n).

(** The square root is strictly increasing on consecutive integers. *)
Definition sqrt_strict (n : Z) : bool := PrimFloat.ltb (sqrt_Z n) (sqrt_Z (n + 1)).

Definition sqrt_square_exact (r : Z) : bool := feq (sqrt_Z (r * r)) (float_of_Z r).

(** The enemy is at the point [q], in integers. *)
Definition at_point (e : Enemy) (q : Z * Z) : Prop :=
  e_x e = float_of_Z (fst q) /\ e_y e = float_of_Z (snd q).

(** The square of the Euclidean distance from the tower to a point. *)
Definition sq_from (t : Tower) (q : Z * Z) : Z :=
  sq_dist (fst q) (snd q) (t_x t) (t_y t).

(** ** A game that is lost

    Through the main loop, with the clicks of a player who starts the
    three first waves and builds late: a tower at (850, 400) in frame
    3920, one at (750, 400) in frame 3925, and one at (900, 350) in the
    frame in which the last life is lost. *)

(** The clicks that build a tower within one frame. *)
Definition build_now (x y : Z) : list Event := click 500 640 ++ click x y.

Definition losing_frames : list (list Event) :=
  [click 500 320] ++ one_wave 1369 ++ one_wave 1489 ++ one_wave 1058
  ++ [build_now 850 400] ++ repeat [] 4 ++ [build_now 750 400] ++ repeat [] 3.

(** The game when the events of its last frame are handled, before the
    tick of that frame. *)
Definition last_life : Game :=
  handle_events (build_now 900 350) (run losing_frames new_Game).

(** * Properties *)

(** ** Order on binary64 numbers

    Transitivity and totality of [<?] and [<=?] away from NaN, from the
    specification of the primitive comparisons. *)

Ltac cmp_cases :=
  repeat match goal with
  | |- context [Z.compare ?a ?b] => destruct (Z.compare_spec a b); subst
  | H : context [Z.compare ?a ?b] |- _ => destruct (Z.compare_spec a b); subst
  | |- context [PosDef.Pos.compare_cont Eq ?a ?b] =>
      change (PosDef.Pos.compare_cont Eq a b) with (Pos.compare a b);
      destruct (Pos.compare_spec a b); subst
  | H : context [PosDef.Pos.compare_cont Eq ?a ?b] |- _ =>
      change (PosDef.Pos.compare_cont Eq a b) with (Pos.compare a b) in H;
      destruct (Pos.compare_spec a b); subst
  end; simpl in *; try congruence; try lia.

Ltac case_split :=
  repeat match goal with
         | |- context [match ?x with _ => _ end] => destruct x
         end.

Section FloatOrder.

Lemma SFltb_leb_trans a b c :
  SFltb a b = true -> SFleb b c = true -> SFltb a c = true.
Proof.
  unfold SFltb, SFleb.
  destruct a as [[]|[]| |[] m1 e1], b as [[]|[]| |[] m2 e2],
           c as [[]|[]| |[] m3 e3]; simpl; try congruence; cmp_cases.
Qed.

Lemma SFleb_ltb_trans a b c :
  SFleb a b = true -> SFltb b c = true -> SFltb a c = true.
Proof.
  unfold SFltb, SFleb.
  destruct a as [[]|[]| |[] m1 e1], b as [[]|[]| |[] m2 e2],
           c as [[]|[]| |[] m3 e3]; simpl; try congruence; cmp_cases.
Qed.

Lemma SFleb_total a b :
  SFleb a a = true -> SFleb b b = true -> SFltb a b = false -> SFleb b a = true.
Proof.
  unfold SFltb, SFleb.
  destruct a as [[]|[]| |[] m1 e1], b as [[]|[]| |[] m2 e2];
    simpl; try congruence; cmp_cases.
Qed.

Lemma SFleb_refl_l a b : SFleb a b = true -> SFleb a a = true.
Proof.
  unfold SFleb.
  destruct a as [[]|[]| |[] m1 e1], b as [[]|[]| |[] m2 e2];
    simpl; try congruence; intros _; cmp_cases.
Qed.

Lemma SFltb_leb a b : SFltb a b = true -> SFleb a b = true.
Proof. unfold SFltb, SFleb. destruct (SFcompare a b) as [[]|]; congruence. Qed.

Lemma ltb_leb_trans a b c :
  PrimFloat.ltb a b = true -> PrimFloat.leb b c = true -> PrimFloat.ltb a c = true.
Proof. rewrite !ltb_spec, leb_spec. apply SFltb_leb_trans. Qed.

Lemma leb_ltb_trans a b c :
  PrimFloat.leb a b = true -> PrimFloat.ltb b c = true -> PrimFloat.ltb a c = true.
Proof. rewrite !ltb_spec, leb_spec. apply SFleb_ltb_trans. Qed.

Lemma leb_total a b :
  PrimFloat.leb a a = true -> PrimFloat.leb b b = true ->
  PrimFloat.ltb a b = false -> PrimFloat.leb b a = true.
Proof. rewrite ltb_spec, !leb_spec. apply SFleb_total. Qed.

Lemma leb_refl_l a b : PrimFloat.leb a b = true -> PrimFloat.leb a a = true.
Proof. rewrite !leb_spec. apply SFleb_refl_l. Qed.

Lemma ltb_leb a b : PrimFloat.ltb a b = true -> PrimFloat.leb a b = true.
Proof. rewrite ltb_spec, leb_spec. apply SFltb_leb. Qed.

End FloatOrder.

(** ** Enemies on the path *)

Lemma Enemy_move_at_end (e : Enemy) : at_end e = true -> Enemy_move e = (e, true).
Proof. intros H. unfold Enemy_move. now rewrite H. Qed.

Lemma Enemy_move_keeps (e : Enemy) :
  let e' := fst (Enemy_move e) in
  reward e' = reward e /\ health e' = health e /\ e_type e' = e_type e
  /\ e_path e' = e_path e /\ e_speed e' = e_speed e.
Proof. unfold Enemy_move. case_split; cbn; auto. Qed.

(** A call that reports the end moves nothing: the position is the one
    before the call, and so is the enemy but for [path_index]. *)
Lemma Enemy_move_reporting (e : Enemy) :
  snd (Enemy_move e) = true ->
  e_x (fst (Enemy_move e)) = e_x e /\ e_y (fst (Enemy_move e)) = e_y e
  /\ at_end (fst (Enemy_move e)) = true.
Proof.
  unfold Enemy_move.
  destruct (at_end e) eqn:He; [cbn; auto|].
  destruct (waypoint (e_path e) (path_index e + 1)) as [tx ty].
  destruct (PrimFloat.leb _ _); [|cbn; discriminate].
  destruct (at_end (set_path_index (path_index e + 1) e)) eqn:He1; [cbn; auto|].
  destruct (waypoint _ _). cbn. discriminate.
Qed.

Lemma same_flags_eq (l1 l2 : list bool) : same_flags l1 l2 = true -> l1 = l2.
Proof.
  revert l2. induction l1 as [|b1 r1 IH]; intros [|b2 r2]; cbn; try discriminate; auto.
  intros [Hb Hr]%andb_true_iff. apply Bool.eqb_prop in Hb. f_equal; auto.
Qed.

Lemma moves_check_basic :
  forallb (moves_check EnemyType.BASIC) (seq 0 951) = true.
Proof. vm_compute. reflexivity. Qed.

Lemma moves_check_fast :
  forallb (moves_check EnemyType.FAST) (seq 0 476) = true.
Proof. vm_compute. reflexivity. Qed.

Lemma moves_check_tank :
  forallb (moves_check EnemyType.TANK) (seq 0 1901) = true.
Proof. vm_compute. reflexivity. Qed.

Lemma moves_check_all (ty : EnemyType.t) (n : nat) :
  (n <= travel_time ty)%nat -> moves_check ty n = true.
Proof.
  intros Hn.
  assert (H : forallb (moves_check ty) (seq 0 (S (travel_time ty))) = true)
    by (destruct ty; [exact moves_check_basic | exact moves_check_fast
                     | exact moves_check_tank]).
  rewrite forallb_forall in H. apply H, in_seq. lia.
Qed.

Lemma travel_time_pos (ty : EnemyType.t) : (1 <= travel_time ty)%nat.
Proof. destruct ty; cbv; repeat constructor. Qed.

Lemma moves_succ (n : nat) (e : Enemy) :
  moves (S n) e
  = (fst (Enemy_move (fst (moves n e))),
     snd (Enemy_move (fst (moves n e))) :: snd (moves n e)).
Proof.
  cbn [moves]. destruct (moves n e) as [e1 bs]. cbn [fst snd].
  now destruct (Enemy_move e1).
Qed.

(** Once at the end, further calls change nothing and report the end again. *)
Lemma moves_past_end (T k : nat) (e : Enemy) :
  at_end (fst (moves T e)) = true ->
  moves (T + k) e = (fst (moves T e), repeat true k ++ snd (moves T e)).
Proof.
  intros Hend. induction k as [|k IH].
  - rewrite Nat.add_0_r. now destruct (moves T e).
  - rewrite Nat.add_succ_r, moves_succ, IH. cbn [fst snd].
    rewrite (Enemy_move_at_end _ Hend). reflexivity.
Qed.

(** ** Waves *)

Section Waves.

Variable sh : Shuffle.

Lemma generate_enemies_unshuffled (n : Z) :
  1 <= n ->
  Permutation (_generate_enemies sh n)
    (repeat EnemyType.BASIC (Z.to_nat (spec_basic_count n))
     ++ repeat EnemyType.FAST (Z.to_nat (spec_fast_count n))
     ++ repeat EnemyType.TANK (Z.to_nat (spec_tank_count n))).
Proof.
  intros Hn. unfold _generate_enemies.
  etransitivity; [apply shuffle_perm|].
  unfold spec_basic_count, spec_fast_count, spec_tank_count.
  replace (5 + n * 2) with (5 + 2 * n) by lia.
  destruct (Z.geb_spec n 2) as [H2|H2], (Z.leb_spec 2 n) as [H2'|H2']; try lia;
    destruct (Z.geb_spec n 4) as [H4|H4], (Z.leb_spec 4 n) as [H4'|H4']; try lia;
    cbn [app repeat Z.to_nat]; rewrite ?app_nil_r, <- ?app_assoc; reflexivity.
Qed.

Lemma count_occ_repeat_eq (ty : EnemyType.t) (k : nat) :
  count_occ EnemyType_eq_dec (repeat ty k) ty = k.
Proof.
  induction k; simpl; [reflexivity|].
  destruct (EnemyType_eq_dec ty ty); congruence.
Qed.

Lemma count_occ_repeat_ne (ty ty' : EnemyType.t) (k : nat) :
  ty <> ty' -> count_occ EnemyType_eq_dec (repeat ty k) ty' = O.
Proof.
  intros Hne. induction k; simpl; [reflexivity|].
  destruct (EnemyType_eq_dec ty ty'); congruence.
Qed.

(** C5: for every wave number N >= 1 and whatever the shuffle does, the
    spawn list of a new wave is a permutation of min(5 + 2N, 20) Basic
    enemies, then min(N, 10) Fast ones when N >= 2, then
    min(floor((N - 3) / 2), 5) Tank ones when N >= 4; these are the
    numbers of enemies of each type in the list, and their sum is its
    length. *)
Theorem wave_spawn_list (n : Z) (p : Path) :
  1 <= n ->
  let l := enemies_to_spawn (new_Wave sh n p) in
  Permutation l
    (repeat EnemyType.BASIC (Z.to_nat (spec_basic_count n))
     ++ repeat EnemyType.FAST (Z.to_nat (spec_fast_count n))
     ++ repeat EnemyType.TANK (Z.to_nat (spec_tank_count n)))
  /\ Z.of_nat (count_occ EnemyType_eq_dec l EnemyType.BASIC) = spec_basic_count n
  /\ Z.of_nat (count_occ EnemyType_eq_dec l EnemyType.FAST) = spec_fast_count n
  /\ Z.of_nat (count_occ EnemyType_eq_dec l EnemyType.TANK) = spec_tank_count n
  /\ Z.of_nat (length l)
     = spec_basic_count n + spec_fast_count n + spec_tank_count n.
Proof.
  intros Hn l.
  assert (Hp := generate_enemies_unshuffled n Hn).
  change (_generate_enemies sh n) with l in Hp.
  assert (Hb : 0 <= spec_basic_count n) by (unfold spec_basic_count; lia).
  assert (Hf : 0 <= spec_fast_count n)
    by (unfold spec_fast_count; destruct (Z.leb_spec 2 n); lia).
  assert (Ht : 0 <= spec_tank_count n).
  { unfold spec_tank_count. destruct (Z.leb_spec 4 n); [|lia].
    assert (0 <= (n - 3) / 2) by (apply Z.div_pos; lia). lia. }
  split; [exact Hp|].
  pose proof (Permutation_length Hp) as Hlen.
  rewrite (Permutation_count_occ EnemyType_eq_dec) in Hp.
  repeat split.
  - rewrite Hp, !count_occ_app, count_occ_repeat_eq, !count_occ_repeat_ne
      by discriminate. lia.
  - rewrite Hp, !count_occ_app, count_occ_repeat_eq, !count_occ_repeat_ne
      by discriminate. lia.
  - rewrite Hp, !count_occ_app, count_occ_repeat_eq, !count_occ_repeat_ne
      by discriminate. lia.
  - rewrite Hlen, !length_app, !repeat_length. lia.
Qed.

End Waves.

(** Wave 1 holds 7 enemies and wave 5 holds 21. *)
Lemma wave_spawn_list_waves_1_and_5 :
  (1 <= 1 /\ Z.of_nat (length (enemies_to_spawn (new_Wave reversed 1 game_path))) = 7)
  /\ (1 <= 5 /\ Z.of_nat (length (enemies_to_spawn (new_Wave reversed 5 game_path))) = 21).
Proof.
  split; (split; [lia|]).
  - destruct (wave_spawn_list reversed 1 game_path ltac:(lia)) as (_ & _ & _ & _ & H).
    rewrite H. reflexivity.
  - destruct (wave_spawn_list reversed 5 game_path ltac:(lia)) as (_ & _ & _ & _ & H).
    rewrite H. reflexivity.
Defined.

(** ** Towers *)

Lemma range_finite (t : Tower) :
  Tower_ok t -> PrimFloat.ltb (float_of_Z (range t)) infinity = true.
Proof.
  intros (Hl & Hr & _). rewrite Hr.
  assert (level t = 1 \/ level t = 2 \/ level t = 3) as [-> | [-> | ->]] by lia;
    destruct (t_type t); vm_compute; reflexivity.
Qed.

Section FindTarget.

Variable t : Tower.
Variable heap : list Enemy.
Hypothesis t_ok : Tower_ok t.

Lemma find_target_loop_inv (ids seen : list nat) (closest : option nat) (m : float) :
  nearest_so_far t heap seen closest m ->
  exists m',
    nearest_so_far t heap (seen ++ ids) (find_target_loop t heap ids closest m) m'.
Proof.
  revert seen closest m. induction ids as [|x ids IH]; intros seen closest m Hinv.
  - exists m. now rewrite app_nil_r.
  - cbn [find_target_loop].
    replace (seen ++ x :: ids) with ((seen ++ [x]) ++ ids) by now rewrite <- app_assoc.
    set (dx := tower_distance t (heap !!! x)).
    change (PrimFloat.leb dx (float_of_Z (range t))) with (in_range t (heap !!! x)).
    destruct Hinv as (Hm & Hle & Hc). cbv zeta in Hle, Hc.
    destruct (in_range t (heap !!! x)) eqn:Hx; cbn [andb];
      [destruct (PrimFloat.ltb dx m) eqn:Hlt|]; apply IH; unfold nearest_so_far.
    + (* a new closest enemy *)
      assert (Hxx : PrimFloat.leb dx dx = true) by (eapply leb_refl_l; exact Hx).
      split; [exact Hxx|]. split.
      * intros j [Hj | Hj%list_elem_of_singleton]%elem_of_app Hn.
        -- apply ltb_leb. eapply ltb_leb_trans; eauto.
        -- now subst j.
      * split; [reflexivity|]. split; [exact Hx|].
        exists seen, []. split; [reflexivity|].
        intros j Hj Hn. eapply ltb_leb_trans; eauto.
    + (* in range, not closer *)
      assert (Hxx : PrimFloat.leb dx dx = true) by (eapply leb_refl_l; exact Hx).
      split; [exact Hm|]. split.
      * intros j [Hj | Hj%list_elem_of_singleton]%elem_of_app Hn; [auto|].
        subst j. now apply leb_total.
      * destruct closest as [c|].
        -- destruct Hc as (-> & Hnc & before & after & -> & Hb).
           split; [reflexivity|]. split; [exact Hnc|].
           exists before, (after ++ [x]). split; [|exact Hb].
           now rewrite <- app_assoc.
        -- destruct Hc as (-> & _). exfalso.
           assert (PrimFloat.ltb dx infinity = true)
             by (eapply leb_ltb_trans; [exact Hx | apply range_finite, t_ok]).
           congruence.
    + (* out of range *)
      split; [exact Hm|]. split.
      * intros j [Hj | Hj%list_elem_of_singleton]%elem_of_app Hn; [auto|].
        subst j. congruence.
      * destruct closest as [c|].
        -- destruct Hc as (-> & Hnc & before & after & -> & Hb).
           split; [reflexivity|]. split; [exact Hnc|].
           exists before, (after ++ [x]). split; [|exact Hb].
           now rewrite <- app_assoc.
        -- destruct Hc as (-> & Hnone). split; [reflexivity|].
           intros j [Hj | Hj%list_elem_of_singleton]%elem_of_app; [auto|].
           now subst j.
Qed.

Lemma find_target_inv (ids : list nat) :
  exists m, nearest_so_far t heap ids (find_target t heap ids) m.
Proof.
  apply (find_target_loop_inv ids [] None infinity).
  split; [reflexivity|]. split.
  - intros j Hj. inversion Hj.
  - split; [reflexivity|]. intros j Hj. inversion Hj.
Qed.

End FindTarget.

Lemma find_target_ignores_target (t : Tower) (tg : option nat) heap ids :
  find_target (set_target tg t) heap ids = find_target t heap ids.
Proof.
  unfold find_target. generalize (@None nat) infinity.
  induction ids as [|x ids IH]; intros c m; [reflexivity|].
  cbn [find_target_loop]. rewrite !IH. reflexivity.
Qed.

(** A target is a live enemy within range. *)
Lemma find_target_Some (t : Tower) (h : list Enemy) (ids : list nat) (c : nat) :
  Tower_ok t -> find_target t h ids = Some c ->
  c ∈ ids /\ in_range t (h !!! c) = true.
Proof.
  intros Hok E. destruct (find_target_inv t h Hok ids) as (m & _ & _ & Hc).
  rewrite E in Hc. destruct Hc as (_ & Hn & before & after & -> & _).
  split; [|exact Hn]. apply elem_of_app. right. now left.
Qed.

(** What the tower step appends to the projectiles. *)
Lemma update_tower_projectiles (i : nat) (t : Tower) (g : Game) :
  towers g !! i = Some t ->
  projectiles (update_tower i g)
  = projectiles g
    ++ match find_target t (heap g) (enemies g) with
       | Some c =>
           if frame_count g - last_shot t >=? fire_rate t
           then [new_Projectile (float_of_Z (t_x t)) (float_of_Z (t_y t)) c (damage t)]
           else []
       | None => []
       end.
Proof.
  intros Ht. unfold update_tower. rewrite Ht. unfold shoot.
  cbn [last_shot fire_rate set_target target t_x t_y damage].
  destruct (_ >=? _); destruct (find_target t (heap g) (enemies g));
    cbn [set_towers set_projectiles projectiles]; now rewrite ?app_nil_r.
Qed.

(** C7: [shoot] emits a projectile exactly when [current_frame -
    last_shot >= fire_rate] and the tower has a target; it then sets
    [last_shot] to the current frame, and the projectile starts at the
    tower, carries the tower's damage and aims at the tower's target;
    otherwise the tower is unchanged.  Hence two projectiles of a tower
    are at least [fire_rate] frames apart, as long as [last_shot] and
    [fire_rate] are what the first shot left.  In a tick the target is
    what [find_target] returns for the live enemies, a live enemy within
    range (for a tower with the range of the stat table), so that
    nothing is emitted when there is none. *)
Theorem shoot_spec (f : Z) (t : Tower) :
  (snd (shoot f t) <> None <-> fire_rate t <= f - last_shot t /\ target t <> None)
  /\ (forall p, snd (shoot f t) = Some p ->
        fst (shoot f t) = set_last_shot f t
        /\ p_damage p = damage t
        /\ target t = Some (p_target p)
        /\ p_x p = float_of_Z (t_x t) /\ p_y p = float_of_Z (t_y t))
  /\ (snd (shoot f t) = None -> fst (shoot f t) = t)
  /\ (forall f' t' p p',
        snd (shoot f t) = Some p ->
        last_shot t' = last_shot (fst (shoot f t)) ->
        fire_rate t' = fire_rate t ->
        snd (shoot f' t') = Some p' ->
        fire_rate t <= f' - f)
  /\ (forall g i,
        towers g !! i = Some t ->
        projectiles (update_tower i g)
        = projectiles g
          ++ match find_target t (heap g) (enemies g) with
             | Some c =>
                 if frame_count g - last_shot t >=? fire_rate t
                 then [new_Projectile (float_of_Z (t_x t)) (float_of_Z (t_y t))
                         c (damage t)]
                 else []
             | None => []
             end)
  /\ (Tower_ok t ->
      forall h ids c, find_target t h ids = Some c ->
        c ∈ ids /\ in_range t (h !!! c) = true).
Proof.
  unfold shoot.
  destruct (Z.geb_spec (f - last_shot t) (fire_rate t)) as [Hc | Hc];
    destruct (target t) as [tg|] eqn:Htg; cbn [fst snd];
    (split; [split; [intros H | intros [H1 H2]]
            | split; [intros p Hp
                     | split; [intros Hn
                              | split; [intros f' t' p p' Hp Hl Hf Hp'
                                       | split; [intros g i Hi;
                                                 now apply update_tower_projectiles
                                                | intros Hok h ids c E;
                                                  now apply find_target_Some]]]]]);
    try discriminate; try congruence; try lia; try (split; [lia | congruence]).
  - injection Hp as <-. repeat split.
  - cbn [last_shot set_last_shot] in Hl.
    destruct (Z.geb_spec (f' - last_shot t') (fire_rate t')); [lia | discriminate].
Qed.

(** A tower that shot at frame 100 and shoots again at frame 130. *)
Lemma shoot_spec_witness :
  let t := set_target (Some 0%nat) (new_Tower 100 250 TowerType.BASIC) in
  snd (shoot 100 t) <> None
  /\ snd (shoot 129 (fst (shoot 100 t))) = None
  /\ snd (shoot 130 (fst (shoot 100 t))) <> None.
Proof.
  intros t. split; [|split].
  - apply (shoot_spec 100 t). split; [cbv; congruence | discriminate].
  - reflexivity.
  - apply (shoot_spec 130 (fst (shoot 100 t))). split; [cbv; congruence | discriminate].
Defined.

Lemma stat_table (ty : TowerType.t) (lvl : Z) :
  _get_range ty (lvl + 1) = _get_range ty lvl + 20
  /\ _get_damage ty (lvl + 1) = _get_damage ty lvl + 15.
Proof. unfold _get_range, _get_damage. lia. Qed.

(** C8: [upgrade_tower] changes nothing when the level of the tower is
    3 (or more), whatever the money, or when money < 150; otherwise it
    deducts exactly 150 and replaces the tower by its upgrade: level + 1,
    the range and the damage of the stat table for the new level, which
    are those of the old level plus 20 and plus 15, the same fire rate,
    and the same position, type, last shot and target. *)
Theorem upgrade_tower_spec (i : nat) (t : Tower) (g : Game) :
  towers g !! i = Some t ->
  (3 <= level t \/ money g < 150 -> upgrade_tower i g = g)
  /\ (level t < 3 -> 150 <= money g ->
      upgrade_tower i g
      = set_money (money g - 150) (set_towers (<[i := upgrade t]> (towers g)) g)
      /\ level (upgrade t) = level t + 1
      /\ range (upgrade t) = _get_range (t_type t) (level t + 1)
      /\ damage (upgrade t) = _get_damage (t_type t) (level t + 1)
      /\ range (upgrade t) = _get_range (t_type t) (level t) + 20
      /\ damage (upgrade t) = _get_damage (t_type t) (level t) + 15
      /\ fire_rate (upgrade t) = fire_rate t
      /\ (t_x (upgrade t), t_y (upgrade t), t_type (upgrade t),
          last_shot (upgrade t), target (upgrade t))
         = (t_x t, t_y t, t_type t, last_shot t, target t)).
Proof.
  intros Ht. unfold upgrade_tower. rewrite Ht.
  unfold can_upgrade, UPGRADE_COST. split.
  - intros [Hl | Hm].
    + destruct (Z.ltb_spec (level t) 3); [lia|]. now rewrite andb_false_r.
    + destruct (Z.geb_spec (money g) 150); [lia|]. reflexivity.
  - intros Hl Hm. unfold upgrade.
    destruct (Z.ltb_spec (level t) 3); [|lia].
    destruct (Z.geb_spec (money g) 150); [|lia].
    cbn [andb level range damage fire_rate t_x t_y t_type last_shot target].
    repeat split; unfold _get_range, _get_damage; lia.
Qed.

(** A level-1 tower upgraded with 400 in hand: 250 left, range 140,
    damage 45. *)
Lemma upgrade_tower_spec_witness :
  let g := place_tower 100 250 (reset_game new_Game) in
  towers g !! 0%nat = Some (new_Tower 100 250 TowerType.BASIC)
  /\ money (upgrade_tower 0 g) = 250
  /\ (range <$> towers (upgrade_tower 0 g) !! 0%nat) = Some 140
  /\ (damage <$> towers (upgrade_tower 0 g) !! 0%nat) = Some 45.
Proof.
  intros g.
  assert (Ht : towers g !! 0%nat = Some (new_Tower 100 250 TowerType.BASIC))
    by (vm_compute; reflexivity).
  split; [exact Ht|].
  destruct (upgrade_tower_spec 0 _ g Ht) as [_ H].
  destruct H as (-> & _); [cbv; congruence | vm_compute; congruence |].
  vm_compute. repeat split; reflexivity.
Defined.

(** ** Placing a tower *)

Lemma all_from_spec (P : Z -> bool) (depth : nat) (lo n : Z) :
  all_from P depth lo = true -> lo <= n < lo + 2 ^ Z.of_nat depth -> P n = true.
Proof.
  revert lo. induction depth as [|d IH]; intros lo H Hn.
  - cbn in *. replace n with lo by lia. exact H.
  - cbn [all_from] in H. apply andb_true_iff in H as [H1 H2].
    rewrite Nat2Z.inj_succ, Z.pow_succ_r in Hn by lia.
    destruct (Z.lt_ge_cases n (lo + 2 ^ Z.of_nat d)).
    + apply (IH lo); [exact H1 | lia].
    + apply (IH (lo + 2 ^ Z.of_nat d)); [exact H2 | lia].
Qed.

Lemma sqrt_lt_40_checked : all_from (sqrt_lt_exact 40) 21 0 = true.
Proof. vm_compute. reflexivity. Qed.

Lemma sqrt_lt_50_checked : all_from (sqrt_lt_exact 50) 21 0 = true.
Proof. vm_compute. reflexivity. Qed.

(** On the screen (squared distances below 2^21, which covers 1000 by
    700) the two tests of [can_place_tower] are exact tests on the
    integers. *)
Lemma near_waypoint_exact (x y : Z) (p : Z * Z) :
  (x - fst p) ^ 2 + (y - snd p) ^ 2 < 2 ^ 21 ->
  near_waypoint x y p = ((x - fst p) ^ 2 + (y - snd p) ^ 2 <? 1600).
Proof.
  intros Hn. unfold near_waypoint, int_distance.
  assert (H := all_from_spec _ 21 0 ((x - fst p) ^ 2 + (y - snd p) ^ 2)
                 sqrt_lt_40_checked).
  unfold sqrt_lt_exact in H. apply Bool.eqb_prop in H; [exact H|].
  change (Z.of_nat 21) with 21. nia.
Qed.

Lemma near_tower_exact (x y : Z) (t : Tower) :
  (x - t_x t) ^ 2 + (y - t_y t) ^ 2 < 2 ^ 21 ->
  near_tower x y t = ((x - t_x t) ^ 2 + (y - t_y t) ^ 2 <? 2500).
Proof.
  intros Hn. unfold near_tower, int_distance.
  assert (H := all_from_spec _ 21 0 ((x - t_x t) ^ 2 + (y - t_y t) ^ 2)
                 sqrt_lt_50_checked).
  unfold sqrt_lt_exact in H. apply Bool.eqb_prop in H; [exact H|].
  change (Z.of_nat 21) with 21. nia.
Qed.

(** What [place_tower] does, case by case: only the waypoints of the
    path are looked at, not the segments between them. *)
Lemma place_tower_spec (x y : Z) (g : Game) :
  place_tower x y g
  = if (money g <? 100)
       || existsb (near_waypoint x y) (path g)
       || existsb (near_tower x y) (towers g)
       || (y >? 600)
    then g
    else set_placing_tower false
           (set_money (money g - 100)
              (set_towers (towers g ++ [new_Tower x y TowerType.BASIC]) g)).
Proof.
  unfold place_tower, can_place_tower, TOWER_COST, SCREEN_HEIGHT.
  change (700 - 100) with 600.
  destruct (Z.geb_spec (money g) 100), (Z.ltb_spec (money g) 100); try lia;
    cbn [andb orb]; [|reflexivity].
  destruct (existsb (near_waypoint x y) (path g)); [reflexivity|].
  destruct (existsb (near_tower x y) (towers g)); [reflexivity|].
  destruct (y >? 600); reflexivity.
Qed.

(** C2, on the code: (100, 200) lies on the first segment of the path,
    100 away from the two waypoints that bound it; in a new game
    [place_tower] builds a tower there and takes 100, where the claim
    wants the call to change nothing. *)
Theorem place_tower_on_the_path :
  let g := reset_game new_Game in
  on_segment game_path 0 (float_of_Z 100) (float_of_Z 200) = true
  /\ existsb (near_waypoint 100 200) (path g) = false
  /\ can_place_tower g 100 200 = true
  /\ place_tower 100 200 g
     = set_placing_tower false
         (set_money 400 (set_towers [new_Tower 100 200 TowerType.BASIC] g)).
Proof. vm_compute. repeat split; reflexivity. Qed.

(** ** What each step of a tick leaves alone *)

Lemma heap_ok_lookup (h : list Enemy) (id : nat) :
  heap_ok h -> 0 <= reward (h !!! id).
Proof.
  intros Hh. rewrite list_lookup_total_alt.
  destruct (h !! id) as [e|] eqn:He; cbn.
  - exact (Forall_lookup_1 _ _ _ _ Hh He).
  - lia.
Qed.

Lemma new_Enemy_reward (ty : EnemyType.t) (p : Path) : 0 <= reward (new_Enemy ty p).
Proof. unfold new_Enemy. destruct (waypoint p 0). destruct ty; cbn; lia. Qed.

Lemma update_wave_frame (g : Game) :
  let g' := update_wave g in
  money g' = money g /\ lives g' = lives g
  /\ (heap_ok (heap g) -> heap_ok (heap g'))
  /\ towers g' = towers g /\ projectiles g' = projectiles g
  /\ frame_count g' = frame_count g.
Proof.
  unfold update_wave. destruct (wave g) as [w|]; [|cbn; tauto].
  destruct (complete w); cbn [negb].
  - destruct (enemies g) eqn:He; [|cbn; tauto].
    destruct (_ >=? _); cbn; tauto.
  - unfold Wave_update. destruct (enemies_to_spawn w) as [|ty rest]; [cbn; tauto|].
    destruct (_ >=? _); cbn; [|tauto].
    repeat split; auto. intros Hh. apply Forall_app_2; [exact Hh|].
    constructor; [apply new_Enemy_reward | constructor].
Qed.

Lemma update_enemy_frame (id : nat) (g : Game) :
  let g' := update_enemy id g in
  money g' = money g
  /\ lives g' = lives g - (if snd (Enemy_move (heap g !!! id)) then 1 else 0)
  /\ (heap_ok (heap g) -> heap_ok (heap g'))
  /\ ((state g <> GAME_OVER -> 1 <= lives g) ->
      state g' <> GAME_OVER -> 1 <= lives g')
  /\ towers g' = towers g /\ projectiles g' = projectiles g
  /\ frame_count g' = frame_count g.
Proof.
  unfold update_enemy.
  pose proof (Enemy_move_keeps (heap g !!! id)) as (Hr & _).
  destruct (Enemy_move (heap g !!! id)) as [e1 reached]. cbn [fst snd] in *.
  assert (Hh : heap_ok (heap g) -> heap_ok (<[id := e1]> (heap g))).
  { intros Hh. apply Forall_insert; [exact Hh|].
    rewrite Hr. now apply heap_ok_lookup. }
  destruct reached.
  - cbn [lives set_lives set_enemies set_heap].
    destruct (Z.leb_spec (lives g - 1) 0); cbn; repeat split; auto; try lia; congruence.
  - cbn. repeat split; auto; lia.
Qed.

(** The enemy loop takes one life for each enemy of the snapshot that
    reports the end: it neither stops nor clamps. *)
Lemma enemies_loop_frame (snapshot : list nat) (g : Game) :
  let g' := enemies_loop snapshot g in
  money g' = money g
  /\ lives g' = lives g - Z.of_nat (arrivals snapshot g)
  /\ (heap_ok (heap g) -> heap_ok (heap g'))
  /\ ((state g <> GAME_OVER -> 1 <= lives g) ->
      state g' <> GAME_OVER -> 1 <= lives g')
  /\ towers g' = towers g /\ projectiles g' = projectiles g
  /\ frame_count g' = frame_count g.
Proof.
  revert g. induction snapshot as [|id rest IH]; intros g; cbn [enemies_loop arrivals].
  - cbn. repeat split; auto; lia.
  - destruct (IH (update_enemy id g)) as (Hm & Hl & Hh & Hs & Ht & Hp & Hf).
    destruct (update_enemy_frame id g) as (Hm1 & Hl1 & Hh1 & Hs1 & Ht1 & Hp1 & Hf1).
    cbv zeta in *. repeat split; try congruence; auto.
    rewrite Hl, Hl1. destruct (snd _); lia.
Qed.

Lemma update_tower_frame (i : nat) (g : Game) :
  let g' := update_tower i g in
  money g' = money g /\ lives g' = lives g /\ state g' = state g
  /\ heap g' = heap g /\ enemies g' = enemies g
  /\ frame_count g' = frame_count g
  /\ length (towers g') = length (towers g)
  /\ (Forall Tower_ok (towers g) -> Forall Tower_ok (towers g')).
Proof.
  unfold update_tower. destruct (towers g !! i) as [t|] eqn:Ht; [|cbn; tauto].
  assert (Hok : Forall Tower_ok (towers g) ->
                Tower_ok (fst (shoot (frame_count g)
                            (set_target (find_target t (heap g) (enemies g)) t)))).
  { intros Hall. pose proof (Forall_lookup_1 _ _ _ _ Hall Ht) as H.
    unfold shoot. case_split; exact H. }
  destruct (shoot _ _) as [t2 [p|]]; cbn [fst] in Hok; cbn; rewrite length_insert;
    repeat split; auto; intros Hall; apply Forall_insert; auto.
Qed.

Lemma towers_loop_frame (idxs : list nat) (g : Game) :
  let g' := towers_loop idxs g in
  money g' = money g /\ lives g' = lives g /\ state g' = state g
  /\ heap g' = heap g /\ enemies g' = enemies g
  /\ frame_count g' = frame_count g
  /\ length (towers g') = length (towers g)
  /\ (Forall Tower_ok (towers g) -> Forall Tower_ok (towers g')).
Proof.
  revert g. induction idxs as [|i rest IH]; intros g; cbn [towers_loop]; [cbn; tauto|].
  destruct (IH (update_tower i g)) as (? & ? & ? & ? & ? & ? & ? & ?).
  destruct (update_tower_frame i g) as (? & ? & ? & ? & ? & ? & ? & ?).
  cbv zeta in *. repeat split; try congruence; auto.
Qed.

Lemma update_projectile_frame (p : Projectile) (g : Game) :
  let g' := fst (update_projectile p g) in
  lives g' = lives g /\ state g' = state g
  /\ (heap_ok (heap g) -> heap_ok (heap g') /\ money g <= money g')
  /\ towers g' = towers g /\ frame_count g' = frame_count g.
Proof.
  unfold update_projectile.
  destruct (Projectile_move _ p) as [p1 hit].
  destruct (hit || negb (mem (p_target p) (enemies g))); [|cbn; repeat split; auto; lia].
  destruct (mem (p_target p) (enemies g)); [|cbn; repeat split; auto; lia].
  unfold take_damage. cbn [health set_health].
  assert (Hh : heap_ok (heap g) ->
               heap_ok (<[p_target p := set_health (health (heap g !!! p_target p) - p_damage p)
                                          (heap g !!! p_target p)]> (heap g))).
  { intros Hh. apply Forall_insert; [exact Hh|]. cbn. now apply heap_ok_lookup. }
  destruct (_ <=? 0); cbn; repeat split; auto; try lia.
  pose proof (heap_ok_lookup _ (p_target p) H). lia.
Qed.

Lemma projectiles_loop_frame (snapshot : list Projectile) (g : Game) :
  let g' := fst (projectiles_loop snapshot g) in
  lives g' = lives g /\ state g' = state g
  /\ (heap_ok (heap g) -> heap_ok (heap g') /\ money g <= money g')
  /\ towers g' = towers g /\ frame_count g' = frame_count g.
Proof.
  revert g. induction snapshot as [|p rest IH]; intros g; cbn [projectiles_loop].
  - cbn. repeat split; auto; lia.
  - destruct (update_projectile_frame p g) as (Hl1 & Hs1 & Hh1 & Ht1 & Hf1).
    destruct (update_projectile p g) as [g1 kept]. cbn [fst] in *.
    destruct (IH g1) as (Hl & Hs & Hh & Ht & Hf).
    destruct (projectiles_loop rest g1) as [g2 ps]. cbn [fst] in *.
    repeat split; try congruence.
    + apply Hh, Hh1, H.
    + destruct (Hh1 H) as [H1 ?]. destruct (Hh H1). lia.
Qed.

Lemma update_not_playing (g : Game) : state g <> PLAYING -> update g = g.
Proof. unfold update. destruct (state g); congruence. Qed.

Lemma update_frame (g : Game) :
  let g' := update g in
  lives g' = lives g - Z.of_nat (reached_end g)
  /\ (heap_ok (heap g) -> heap_ok (heap g') /\ money g <= money g')
  /\ ((state g <> GAME_OVER -> 1 <= lives g) ->
      state g' <> GAME_OVER -> 1 <= lives g')
  /\ (Forall Tower_ok (towers g) -> Forall Tower_ok (towers g')).
Proof.
  unfold update, reached_end.
  destruct (state g) eqn:Hst;
    try (cbn; repeat split; intros; solve [auto | lia]).
  fold (before_enemies g).
  set (g1 := before_enemies g).
  assert (H1 := update_wave_frame (set_frame_count (frame_count g + 1) g)).
  fold (before_enemies g) in H1. fold g1 in H1. cbv zeta in H1. cbn in H1.
  destruct H1 as (Hm1 & Hl1 & Hh1 & Ht1 & _).
  unfold update_enemies, update_towers, update_projectiles.
  destruct (enemies_loop_frame (enemies g1) g1) as (Hm2 & Hl2 & Hh2 & Hs2 & Ht2 & _).
  set (g2 := enemies_loop (enemies g1) g1) in *.
  destruct (towers_loop_frame (seq 0 (length (towers g2))) g2)
    as (Hm3 & Hl3 & Hs3 & Hh3 & _ & _ & _ & Ht3).
  set (g3 := towers_loop _ g2) in *.
  destruct (projectiles_loop_frame (projectiles g3) g3) as (Hl4 & Hs4 & Hh4 & Ht4 & _).
  destruct (projectiles_loop (projectiles g3) g3) as [g4 ps]. cbn [fst] in *.
  cbn [lives state heap money towers set_projectiles].
  repeat split.
  - lia.
  - apply Hh4. rewrite Hh3. auto.
  - destruct Hh4 as [_ ?]; [rewrite Hh3; auto|]. lia.
  - intros Hinv Hng. rewrite Hl4, Hl3. apply Hs2; [|congruence].
    intros _. rewrite Hl1. apply Hinv. congruence.
  - intros Hall. rewrite Ht4. apply Ht3. rewrite Ht2, Ht1. exact Hall.
Qed.

(** ** Sessions *)

Lemma ticks_reachable (n : nat) (g : Game) : reachable g -> reachable (ticks n g).
Proof. revert g. induction n; intros g H; cbn; [exact H|]. apply IHn. now constructor. Qed.

Lemma session_reachable (cs : list Command) (g : Game) :
  reachable g -> reachable (session cs g).
Proof.
  revert g. induction cs as [|c rest IH]; intros g H; cbn [session]; [exact H|].
  apply IH. destruct c; cbn [perform];
    [now constructor | now apply ticks_reachable | now constructor
    | now constructor | now constructor].
Qed.

Lemma reachable_session_ok (g : Game) : reachable g -> session_ok g.
Proof.
  induction 1 as [|g _ (Hm & Hl & Hh)|g _ (Hm & Hl & Hh)|x y g _ (Hm & Hl & Hh)
                  |i g _ (Hm & Hl & Hh)|sh g _ (Hm & Hl & Hh)]; unfold session_ok.
  - split; [|split]; [cbv; congruence | intros _; cbv; congruence | constructor].
  - split; [|split]; [cbv; congruence | intros _; cbv; congruence | exact Hh].
  - destruct (update_frame g) as (_ & H1 & H2 & _). cbv zeta in *.
    destruct (H1 Hh). repeat split; auto; lia.
  - rewrite place_tower_spec.
    destruct (Z.ltb_spec (money g) 100); cbn [orb]; [auto|].
    destruct (_ || _); cbn; [auto|]. repeat split; auto; lia.
  - unfold upgrade_tower, UPGRADE_COST. destruct (towers g !! i) as [t|]; [|auto].
    destruct (Z.geb_spec (money g) 150); cbn [andb]; [|auto].
    destruct (can_upgrade t); cbn; [|auto]. repeat split; auto; lia.
  - cbn. repeat split; auto. destruct (_ >? 1); lia.
Qed.

(** Every tower of a session has the attributes of the stat table. *)
Lemma reachable_towers_ok (g : Game) : reachable g -> Forall Tower_ok (towers g).
Proof.
  induction 1 as [|g _ IH|g _ IH|x y g _ IH|i g _ IH|sh g _ IH].
  - constructor.
  - constructor.
  - now apply update_frame.
  - rewrite place_tower_spec. destruct (_ || _); cbn; [exact IH|].
    apply Forall_app_2; [exact IH|]. constructor; [|constructor].
    cbv. repeat split; congruence.
  - unfold upgrade_tower. destruct (towers g !! i) as [t|] eqn:Ht; [|exact IH].
    destruct (_ && _) eqn:Hc; cbn; [|exact IH].
    apply Forall_insert; [exact IH|].
    pose proof (Forall_lookup_1 _ _ _ _ IH Ht) as (Hl & Hr & Hd & Hf).
    unfold upgrade. destruct (Z.ltb_spec (level t) 3);
      unfold Tower_ok; cbn; repeat split; auto; lia.
  - exact IH.
Qed.

Lemma leaking_session_reachable : reachable leaking_session.
Proof. exact (session_reachable _ new_Game reach_new). Qed.

(** ** Projectiles *)

Lemma mem_elem_of (id : nat) (l : list nat) : mem id l = true <-> id ∈ l.
Proof.
  unfold mem. rewrite existsb_exists. split.
  - intros (x & Hx & Heq). apply Nat.eqb_eq in Heq. subst x. now apply list_elem_of_In.
  - intros H. exists id. split; [now apply list_elem_of_In | apply Nat.eqb_refl].
Qed.

Lemma mem_not_elem_of (id : nat) (l : list nat) : mem id l = false <-> id ∉ l.
Proof. rewrite <- mem_elem_of. destruct (mem id l); split; congruence. Qed.

(** The projectile loop reads its snapshot, not [self.projectiles]. *)
Lemma update_projectile_set_projectiles (q : Projectile) (ps : list Projectile) (g : Game) :
  update_projectile q (set_projectiles ps g)
  = (set_projectiles ps (fst (update_projectile q g)), snd (update_projectile q g)).
Proof.
  unfold update_projectile. cbn [heap enemies set_projectiles].
  destruct (Projectile_move _ q) as [q1 hit].
  destruct (hit || negb _); [|reflexivity].
  destruct (mem _ _); [|reflexivity].
  destruct (take_damage _ _) as [e1 []]; reflexivity.
Qed.

Lemma projectiles_loop_set_projectiles (l ps ps' : list Projectile) (g : Game) :
  set_projectiles ps (fst (projectiles_loop l (set_projectiles ps' g)))
  = set_projectiles ps (fst (projectiles_loop l g))
  /\ snd (projectiles_loop l (set_projectiles ps' g)) = snd (projectiles_loop l g).
Proof.
  revert g. induction l as [|q l IH]; intros g; cbn [projectiles_loop].
  - now cbn.
  - rewrite update_projectile_set_projectiles.
    destruct (update_projectile q g) as [g1 k]. cbn [fst snd].
    destruct (IH g1) as [IH1 IH2].
    destruct (projectiles_loop l (set_projectiles ps' g1)) as [g2 qs].
    destruct (projectiles_loop l g1) as [g2' qs']. cbn [fst snd] in *.
    split; [exact IH1 | now rewrite IH2].
Qed.

(** C9: a projectile whose target is not in the live list when the
    projectile loop comes to it is dropped and the game is left as it
    is: the step gives the same game as if that projectile had not been
    in the list.  Whatever the projectile, the loop body changes no
    enemy but its target, and it changes the game (health, money, live
    list) only if the target is live; the money then grows by the
    reward of the target, when the damage brings its health to zero or
    below, and the only enemy that may leave the live list is the
    target. *)
Theorem stale_projectile_discarded (p : Projectile) (g : Game) :
  (p_target p ∉ enemies g ->
     update_projectile p g = (g, None)
     /\ forall rest,
          update_projectiles (set_projectiles (p :: rest) g)
          = update_projectiles (set_projectiles rest g))
  /\ (let g' := fst (update_projectile p g) in
      (forall id, id <> p_target p -> heap g' !! id = heap g !! id)
      /\ (g' <> g -> p_target p ∈ enemies g)
      /\ (money g' = money g
          \/ money g' = money g + reward (heap g !!! p_target p)
             /\ health (heap g !!! p_target p) - p_damage p <= 0)
      /\ (enemies g' = enemies g
          \/ enemies g' = remove_first (p_target p) (enemies g))).
Proof.
  split.
  - intros Hstale%mem_not_elem_of.
    assert (H1 : update_projectile p g = (g, None)).
    { unfold update_projectile. rewrite Hstale.
      destruct (Projectile_move _ p) as [p1 hit]. now rewrite orb_true_r. }
    split; [exact H1|]. intros rest.
    unfold update_projectiles. cbn [projectiles set_projectiles projectiles_loop].
    rewrite update_projectile_set_projectiles, H1. cbn [fst snd].
    destruct (projectiles_loop_set_projectiles rest
                (snd (projectiles_loop rest g)) (p :: rest) g) as [Ha Hb].
    destruct (projectiles_loop_set_projectiles rest
                (snd (projectiles_loop rest g)) rest g) as [Hc Hd].
    destruct (projectiles_loop rest (set_projectiles (p :: rest) g)) as [ga qa].
    destruct (projectiles_loop rest (set_projectiles rest g)) as [gb qb].
    cbn [fst snd] in *. rewrite Hb, Hd. congruence.
  - cbv zeta. unfold update_projectile.
    destruct (Projectile_move _ p) as [p1 hit].
    destruct (mem (p_target p) (enemies g)) eqn:Hmem.
    2: { rewrite orb_true_r. cbn. repeat split; auto. congruence. }
    apply mem_elem_of in Hmem. rewrite orb_false_r.
    destruct hit; [|cbn; repeat split; auto; congruence].
    unfold take_damage. cbn [health set_health].
    destruct (Z.leb_spec (health (heap g !!! p_target p) - p_damage p) 0); cbn;
      (split; [intros id Hid; now apply list_lookup_insert_ne|]); auto.
Qed.

(** A projectile aimed at an enemy that is not live, in a game with
    one live enemy: the step removes it and nothing else changes. *)
Lemma stale_projectile_witness :
  let g := add_enemy (new_Enemy EnemyType.BASIC game_path) (reset_game new_Game) in
  let p := new_Projectile (float_of_Z 100) (float_of_Z 250) 7 30 in
  (p_target p ∉ enemies g)
  /\ update_projectiles (set_projectiles [p] g) = g.
Proof.
  intros g p.
  assert (Hstale : p_target p ∉ enemies g).
  { apply mem_not_elem_of. vm_compute. reflexivity. }
  split; [exact Hstale|].
  destruct (stale_projectile_discarded p g) as [H _].
  destruct (H Hstale) as [_ Hrest]. rewrite Hrest. reflexivity.
Defined.

(** ** Ticks after the end *)

Lemma ticks_not_playing (n : nat) (g : Game) : state g <> PLAYING -> ticks n g = g.
Proof.
  intros H. induction n; cbn [ticks]; [reflexivity|].
  now rewrite update_not_playing.
Qed.

(** ** Starting again *)

(** C3 (amended): [reset_game] puts the game in the state Playing, with
    money 500, 20 lives, wave counter 0, no wave, frame counter 0 and no
    enemy, tower or projectile; a click on the end screen does that when
    it falls on the button, and nothing otherwise. *)
Theorem reset_game_restarts (g : Game) (pos : Z * Z) :
  let g' := reset_game g in
  state g' = PLAYING
  /\ money g' = 500 /\ lives g' = 20 /\ current_wave g' = 0
  /\ enemies g' = [] /\ towers g' = [] /\ projectiles g' = []
  /\ wave g' = None /\ wave_active g' = false /\ frame_count g' = 0
  /\ handle_end_screen_click pos g
     = (if on_button (fst pos) (snd pos) 350 then g' else g).
Proof. cbv zeta. repeat split. Qed.

(** C3 as stated fails: the session [leaking_session] is over after
    its next tick; the reset, called directly or by a click on the
    button of the end screen, then leads to Playing, not to Menu. *)
Lemma reset_game_not_to_menu :
  let g := update leaking_session in
  state g = GAME_OVER
  /\ state (reset_game g) = PLAYING
  /\ state (handle_end_screen_click (500, 375) g) = PLAYING
  /\ state (reset_game g) <> MENU.
Proof. vm_compute. repeat split; [reflexivity .. | discriminate]. Qed.

(** * More properties *)

(** ** Damage *)

Lemma take_damages_health (ds : list Z) (e : Enemy) :
  health (fst (take_damages ds e)) = health e - sum_Z ds
  /\ set_health (health e) (fst (take_damages ds e)) = e.
Proof.
  revert e. induction ds as [|d rest IH]; intros e.
  - cbn. split; [lia | now destruct e].
  - cbn [take_damages]. unfold take_damage.
    destruct rest as [|d' rest'].
    + cbn. split; [lia | now destruct e].
    + destruct (IH (set_health (health e - d) e)) as [H1 H2].
      cbn [health set_health] in H1. split.
      * rewrite H1. cbn [sum_Z fold_right]. lia.
      * revert H2. generalize (fst (take_damages (d' :: rest') (set_health (health e - d) e))).
        intros e' H2. destruct e, e'; cbn in *. now injection H2 as -> -> -> -> -> -> -> ->.
Qed.

(** X1: after any number of hits the health of an enemy is its health
    before them less the sum of the damages, whatever its sign; the
    last call of [take_damage] returns true exactly when that health
    is zero or less; nothing but the health changes. *)
Theorem take_damage_cumulative (ds : list Z) (d : Z) (e : Enemy) :
  let '(e', dead) := take_damages (ds ++ [d]) e in
  health e' = health e - sum_Z (ds ++ [d])
  /\ (dead = true <-> health e <= sum_Z (ds ++ [d]))
  /\ set_health (health e) e' = e.
Proof.
  destruct (take_damages (ds ++ [d]) e) as [e' dead] eqn:E.
  pose proof (take_damages_health (ds ++ [d]) e) as [H1 H2]. rewrite E in H1, H2.
  cbn [fst] in *. split; [exact H1|]. split; [|exact H2].
  clear H2. revert e e' dead E H1. induction ds as [|d0 rest IH]; intros e e' dead E H1.
  - cbn in E. injection E as <- <-. cbn. rewrite Z.leb_le. lia.
  - change ((d0 :: rest) ++ [d]) with (d0 :: (rest ++ [d])) in *.
    cbn [take_damages] in E. unfold take_damage in E.
    destruct (rest ++ [d]) as [|x l] eqn:El; [now destruct rest|].
    rewrite <- El in *. 
    pose proof (take_damages_health (rest ++ [d]) (set_health (health e - d0) e)) as [H3 _].
    rewrite El in E. rewrite <- El in E.
    assert (E' : take_damages (rest ++ [d]) (set_health (health e - d0) e) = (e', dead)).
    { rewrite El. rewrite El in E. exact E. }
    specialize (IH _ _ _ E'). rewrite E' in H3. cbn [fst health set_health] in H3.
    rewrite IH by exact H3. cbn [health set_health sum_Z fold_right].
    change (fold_right Z.add 0 (rest ++ [d])) with (sum_Z (rest ++ [d])). lia.
Qed.

(** ** The schedule of a wave *)

Lemma Wave_updates_add (a b : nat) (w : Wave) :
  Wave_updates (a + b) w
  = (fst (Wave_updates b (fst (Wave_updates a w))),
     snd (Wave_updates a w) ++ snd (Wave_updates b (fst (Wave_updates a w)))).
Proof.
  revert w. induction a as [|a IH]; intros w.
  - cbn. now destruct (Wave_updates b w).
  - cbn [Nat.add Wave_updates].
    destruct (Wave_update 0 w) as [w1 o]. rewrite IH.
    destruct (Wave_updates a w1) as [w2 es]. cbn [fst snd].
    destruct (Wave_updates b w2) as [w3 es']. cbn [fst snd]. now destruct o.
Qed.

Lemma set_schedule_same (w : Wave) :
  set_schedule (enemies_to_spawn w) (spawn_timer w) w = w.
Proof. now destruct w. Qed.

(** While the timer is short of the delay nothing is spawned. *)
Lemma wave_wait (r : nat) (w : Wave) (ty : EnemyType.t) (rest : list EnemyType.t) :
  enemies_to_spawn w = ty :: rest ->
  spawn_timer w + Z.of_nat r < spawn_delay w ->
  Wave_updates r w
  = (set_schedule (ty :: rest) (spawn_timer w + Z.of_nat r) w, []).
Proof.
  revert w. induction r as [|r IH]; intros w Hl Ht.
  - cbn [Wave_updates]. rewrite Z.add_0_r, <- Hl. now rewrite set_schedule_same.
  - cbn [Wave_updates]. unfold Wave_update. rewrite Hl.
    destruct (Z.geb_spec (spawn_timer w + 1) (spawn_delay w)) as [Hge | Hlt]; [lia|].
    replace (spawn_timer w + Z.of_nat (S r)) with (spawn_timer w + 1 + Z.of_nat r) by lia.
    rewrite IH; cbn [enemies_to_spawn spawn_timer spawn_delay]; [|reflexivity|lia].
    reflexivity.
Qed.

(** A full delay after a spawn, the head of the list is spawned. *)
Lemma wave_round (d : nat) (w : Wave) (ty : EnemyType.t) (rest : list EnemyType.t) :
  enemies_to_spawn w = ty :: rest ->
  spawn_timer w = 0 -> spawn_delay w = Z.of_nat d -> (1 <= d)%nat ->
  Wave_updates d w = (set_schedule rest 0 w, [new_Enemy ty (w_path w)]).
Proof.
  intros Hl Ht Hd Hpos.
  replace d with ((d - 1) + 1)%nat at 1 by lia.
  rewrite Wave_updates_add, (wave_wait (d - 1) w ty rest Hl) by lia.
  cbn [fst snd Wave_updates app]. unfold Wave_update.
  cbn [enemies_to_spawn spawn_timer spawn_delay set_schedule w_path].
  destruct (Z.geb_spec (spawn_timer w + Z.of_nat (d - 1) + 1) (spawn_delay w)); [|lia].
  reflexivity.
Qed.

Lemma wave_rounds (q d : nat) (w : Wave) :
  spawn_timer w = 0 -> spawn_delay w = Z.of_nat d -> (1 <= d)%nat ->
  (q <= length (enemies_to_spawn w))%nat ->
  Wave_updates (q * d) w
  = (set_schedule (drop q (enemies_to_spawn w)) 0 w,
     map (fun ty => new_Enemy ty (w_path w)) (take q (enemies_to_spawn w))).
Proof.
  revert w. induction q as [|q IH]; intros w Ht Hd Hpos Hq.
  - destruct w. cbn in *. subst. reflexivity.
  - destruct (enemies_to_spawn w) as [|ty rest] eqn:Hl; [cbn in Hq; lia|].
    cbn [Nat.mul]. rewrite Wave_updates_add, (wave_round d w ty rest) by assumption.
    cbn [fst snd]. cbn [length] in Hq.
    rewrite (IH (set_schedule rest 0 w)) by (cbn; auto; lia).
    cbn [fst snd enemies_to_spawn set_schedule w_path drop take map app].
    reflexivity.
Qed.

(** Once the list is empty, the next call marks the wave complete, and
    no call spawns anything. *)
Lemma wave_exhausted (k : nat) (w : Wave) :
  enemies_to_spawn w = [] ->
  Wave_updates (S k) w = (set_complete true w, []).
Proof.
  intros Hl. revert w Hl. induction k as [|k IH]; intros w Hl.
  - cbn [Wave_updates]. unfold Wave_update. rewrite Hl.
    unfold set_complete. now rewrite Hl.
  - change (Wave_updates (S (S k)) w)
      with (let '(w1, spawned) := Wave_update 0 w in
            let '(w2, es) := Wave_updates (S k) w1 in
            (w2, match spawned with Some e => e :: es | None => es end)).
    unfold Wave_update. rewrite Hl.
    rewrite IH by reflexivity. unfold set_complete. cbn. now rewrite Hl.
Qed.

(** X2: a wave whose timer is 0 and whose delay is [d >= 1] releases
    its enemies in the order of its list, one every [d] calls of
    [update], the first at call [d]: after [q * d + r] calls ([r < d],
    [q] below the length of the list) the first [q] enemies have been
    returned, each at the first waypoint of the path of the wave, the
    others are still listed and the timer is [r]; after [d] calls for
    each enemy the list is empty and the wave not yet complete; every
    later call marks the wave complete and releases nothing. *)
Theorem wave_schedule (w : Wave) (d q r : nat) :
  spawn_timer w = 0 -> spawn_delay w = Z.of_nat d -> (1 <= d)%nat ->
  let l := enemies_to_spawn w in
  let spawn := map (fun ty => new_Enemy ty (w_path w)) in
  ((q < length l)%nat -> (r < d)%nat ->
     Wave_updates (q * d + r) w
     = (set_schedule (drop q l) (Z.of_nat r) w, spawn (take q l)))
  /\ Wave_updates (length l * d) w = (set_schedule [] 0 w, spawn l)
  /\ Wave_updates (length l * d + S r) w
     = (set_complete true (set_schedule [] 0 w), spawn l).
Proof.
  intros Ht Hd Hpos l spawn. subst l spawn. split; [|split].
  - intros Hq Hr.
    rewrite Wave_updates_add, wave_rounds by (auto; lia). cbn [fst snd].
    destruct (drop q (enemies_to_spawn w)) as [|ty rest] eqn:Hdrop.
    { apply (f_equal length) in Hdrop. rewrite length_drop in Hdrop. cbn in Hdrop. lia. }
    rewrite (wave_wait r _ ty rest) by (cbn; auto; lia).
    cbn [fst snd spawn_timer set_schedule]. rewrite app_nil_r. reflexivity.
  - rewrite wave_rounds by (auto; lia).
    now rewrite drop_all, firstn_all.
  - rewrite Wave_updates_add, wave_rounds by (auto; lia).
    rewrite drop_all, firstn_all. cbn [fst snd].
    rewrite wave_exhausted by reflexivity. cbn [fst snd]. now rewrite app_nil_r.
Qed.

Lemma wave_schedule_witness :
  let w := new_Wave keep_order 1 game_path in
  Wave_updates (3 * 60 + 59) w
  = (set_schedule (repeat EnemyType.BASIC 4) 59 w,
     repeat (new_Enemy EnemyType.BASIC game_path) 3).
Proof.
  intros w.
  destruct (wave_schedule w 60 3 59) as [H _]; [reflexivity | reflexivity | lia |].
  rewrite H; [reflexivity | apply Nat.ltb_lt; vm_compute; reflexivity | lia].
Defined.

(** ** What every state of a session satisfies *)

Lemma Enemy_move_not_reporting (e : Enemy) :
  snd (Enemy_move e) = false -> at_end (fst (Enemy_move e)) = false.
Proof.
  unfold Enemy_move.
  destruct (at_end e) eqn:He; [cbn; discriminate|].
  destruct (waypoint (e_path e) (path_index e + 1)) as [tx ty].
  destruct (PrimFloat.leb _ _); [|cbn; intros _; exact He].
  destruct (at_end (set_path_index (path_index e + 1) e)) eqn:He1; [cbn; discriminate|].
  destruct (waypoint _ _). cbn. intros _. exact He1.
Qed.

Lemma Enemy_move_fields (e : Enemy) :
  let e' := fst (Enemy_move e) in
  health e' = health e /\ max_health e' = max_health e /\ e_path e' = e_path e
  /\ e_type e' = e_type e /\ reward e' = reward e /\ e_speed e' = e_speed e.
Proof. unfold Enemy_move. case_split; cbn; auto 10. Qed.

Lemma new_Enemy_ok (ty : EnemyType.t) : enemy_ok (new_Enemy ty game_path).
Proof. destruct ty; cbv; repeat split; congruence. Qed.

Lemma remove_first_subset (id x : nat) (l : list nat) :
  x ∈ remove_first id l -> x ∈ l.
Proof.
  induction l as [|y l IH]; cbn; [auto|].
  destruct (Nat.eqb_spec y id).
  - intros H. now right.
  - intros [->|H]%elem_of_cons; [now left | right; auto].
Qed.

Lemma remove_first_NoDup (id : nat) (l : list nat) :
  NoDup l -> NoDup (remove_first id l) /\ id ∉ remove_first id l.
Proof.
  induction 1 as [|y l Hy Hl IH]; cbn.
  - split; [constructor | apply not_elem_of_nil].
  - destruct (Nat.eqb_spec y id) as [->|Hne].
    + split; [exact Hl | exact Hy].
    + destruct IH as [IH1 IH2]. split.
      * constructor; [|exact IH1]. intros H. apply Hy. eapply remove_first_subset, H.
      * intros [->|H]%elem_of_cons; [congruence | auto].
Qed.

Lemma remove_first_other (id x : nat) (l : list nat) :
  x <> id -> x ∈ l -> x ∈ remove_first id l.
Proof.
  intros Hne. induction l as [|y l IH]; cbn; [auto|].
  intros [Heq|H]%elem_of_cons.
  - subst y. destruct (Nat.eqb_spec x id); [congruence | now left].
  - destruct (Nat.eqb_spec y id); [exact H | right; auto].
Qed.

(** Replacing the object of a reference by an object that is as good
    keeps the live list sound; removing the reference too. *)
Lemma live_ok_insert (g : Game) (id : nat) (e' : Enemy) :
  live_ok g -> (id ∈ enemies g -> enemy_ok e') ->
  live_ok (set_heap (<[id := e']> (heap g)) g).
Proof.
  intros [Hnd Hl] He. split; [exact Hnd|]. cbn [enemies heap set_heap].
  intros x Hx. destruct (Hl x Hx) as (e & Hlook & Hok).
  destruct (decide (x = id)) as [->|Hne].
  - exists e'. split; [|auto].
    apply list_lookup_insert_eq. eapply lookup_lt_Some, Hlook.
  - exists e. split; [|exact Hok]. now rewrite list_lookup_insert_ne.
Qed.

Lemma live_ok_remove (g : Game) (id : nat) (h : list Enemy) :
  live_ok g -> length h = length (heap g) ->
  (forall x, x <> id -> h !! x = heap g !! x) ->
  live_ok (set_enemies (remove_first id (enemies g)) (set_heap h g)).
Proof.
  intros [Hnd Hl] Hlen Hh. destruct (remove_first_NoDup id _ Hnd) as [H1 H2].
  split; [exact H1|]. cbn [enemies heap set_heap set_enemies].
  intros x Hx. assert (x <> id) by congruence.
  destruct (Hl x (remove_first_subset _ _ _ Hx)) as (e & Hlook & Hok).
  exists e. split; [|exact Hok]. now rewrite Hh.
Qed.

Ltac use_quiet :=
  match goal with
  | Hq : wave_active ?g = false -> _, H : wave_active ?g = false |- _ =>
      destruct (Hq H) as [? ?]; clear Hq
  end.

Ltac close_sound Hlive :=
  unfold sound, wave_ok, quiet in *; cbn in *; repeat split; auto; try lia;
  try apply Hlive; try use_quiet; auto; try congruence.

Lemma sound_update_wave (g : Game) : sound g -> sound (update_wave g).
Proof.
  intros Hg. pose proof Hg as (Hp & [Hnd Hl] & Hw & Hq & Ht & Hpr & Hf).
  pose proof (proj1 (proj2 Hg)) as Hlive.
  unfold update_wave. unfold wave_ok, quiet in Hw, Hq.
  destruct (wave g) as [w|] eqn:Ew; [|exact Hg].
  destruct Hw as (Hn & Hc1 & Hwp & Hd & Htm & Hcomp).
  destruct (complete w) eqn:Ec; cbn [negb].
  - destruct (enemies g) eqn:He; [|exact Hg].
    destruct (current_wave g >=? 10).
    + unfold sound, wave_ok, quiet. cbn. rewrite Ew, ?He, ?Ec.
      repeat split; auto; try lia; try apply Hlive; rewrite ?He; auto; now apply Hq.
    + unfold sound, wave_ok, quiet. cbn. rewrite Ew, ?He, ?Ec.
      repeat split; auto; try lia; try apply Hlive; rewrite ?He; auto.
  - assert (Hact : wave_active g = true).
    { destruct (wave_active g) eqn:Ea; [reflexivity|].
      destruct (Hq eq_refl) as [_ H]. congruence. }
    unfold Wave_update. destruct (enemies_to_spawn w) as [|ty rest] eqn:El.
    + unfold sound, live_ok, wave_ok, quiet. cbn. rewrite Hact.
      repeat split; auto; try lia; discriminate.
    + destruct (Z.geb_spec (spawn_timer w + 1) (spawn_delay w)).
      * unfold sound, live_ok, wave_ok, quiet, add_enemy. cbn. rewrite Hact.
        repeat split; auto; try lia; try discriminate.
        -- apply NoDup_app. split; [exact Hnd|]. split; [|apply NoDup_singleton].
           intros x Hx ->%list_elem_of_singleton.
           destruct (Hl _ Hx) as (e & Hlook & _).
           apply lookup_lt_Some in Hlook. lia.
        -- intros id [Hid | ->%list_elem_of_singleton]%elem_of_app.
           ++ destruct (Hl _ Hid) as (e & Hlook & Hok). exists e. split; [|exact Hok].
              rewrite lookup_app_l; [exact Hlook | eapply lookup_lt_Some, Hlook].
           ++ exists (new_Enemy ty (w_path w)). split.
              ** rewrite lookup_app_r by lia. now rewrite Nat.sub_diag.
              ** rewrite Hwp. apply new_Enemy_ok.
        -- congruence.
      * unfold sound, live_ok, wave_ok, quiet. cbn. rewrite Hact.
        repeat split; auto; try lia; try discriminate. congruence.
Qed.

Lemma sound_update_enemy (id : nat) (g : Game) : sound g -> sound (update_enemy id g).
Proof.
  intros (Hp & Hlive & Hw & Hq & Ht & Hpr & Hf). unfold update_enemy.
  pose proof (Enemy_move_fields (heap g !!! id)) as Hfields.
  pose proof (Enemy_move_not_reporting (heap g !!! id)) as Hnr.
  destruct (Enemy_move (heap g !!! id)) as [e1 reached]. cbn [fst snd] in *.
  destruct reached.
  - assert (Hrem : live_ok (set_enemies (remove_first id (enemies g))
                              (set_heap (<[id := e1]> (heap g)) g))).
    { apply live_ok_remove; [exact Hlive | apply length_insert |].
      intros x Hx. now apply list_lookup_insert_ne. }
    assert (Hquiet : wave_active g = false ->
              remove_first id (enemies g) = []
              /\ match wave g with Some w => complete w = true | None => True end).
    { intros Ha. destruct (Hq Ha) as [-> ?]. now split. }
    cbn [lives set_lives set_enemies set_heap].
    destruct (_ <=? 0); close_sound Hrem; now rewrite H0.
  - assert (Hins : live_ok (set_heap (<[id := e1]> (heap g)) g)).
    { apply live_ok_insert; [exact Hlive|]. intros Hid.
      destruct Hlive as [_ Hl]. destruct (Hl id Hid) as (e & Hlook & Hok).
      rewrite (list_lookup_total_correct _ _ _ Hlook) in Hfields.
      destruct Hfields as (H1 & H2 & H3 & H4 & H5 & H6).
      destruct Hok as (_ & Hh & Hpath & Hmax & Hrew & Hsp).
      unfold enemy_ok. rewrite H1, H2, H3, H4, H5, H6. auto 10. }
    close_sound Hins.
Qed.

Lemma sound_enemies_loop (snapshot : list nat) (g : Game) :
  sound g -> sound (enemies_loop snapshot g).
Proof.
  revert g. induction snapshot as [|id rest IH]; intros g H; cbn [enemies_loop]; [exact H|].
  now apply IH, sound_update_enemy.
Qed.

Lemma Tower_ok_damage (t : Tower) : Tower_ok t -> 0 < damage t.
Proof.
  intros (Hl & _ & Hd & _). rewrite Hd. unfold _get_damage. destruct (t_type t); lia.
Qed.

Lemma sound_update_tower (i : nat) (g : Game) : sound g -> sound (update_tower i g).
Proof.
  intros Hg. pose proof Hg as (Hp & Hlive & Hw & Hq & Ht & Hpr & Hf).
  destruct (update_tower_frame i g) as (_ & _ & _ & _ & _ & _ & _ & Htow).
  specialize (Htow Ht). revert Htow.
  unfold update_tower. destruct (towers g !! i) as [t|] eqn:Ei;
    [|intros _; exact Hg].
  clear Hg.
  pose proof (Forall_lookup_1 _ _ _ _ Ht Ei) as Hok.
  unfold shoot. cbn [last_shot fire_rate set_target target t_x t_y damage].
  assert (Hnew : forall c, Forall proj_ok
            (projectiles g
             ++ [new_Projectile (float_of_Z (t_x t)) (float_of_Z (t_y t)) c (damage t)])).
  { intros c. apply Forall_app_2; [exact Hpr|]. constructor; [|constructor].
    split; [now apply Tower_ok_damage | reflexivity]. }
  destruct (_ >=? _); [destruct (find_target t (heap g) (enemies g))|]; intros Htow;
    close_sound Hlive.
Qed.

Lemma sound_towers_loop (idxs : list nat) (g : Game) :
  sound g -> sound (towers_loop idxs g).
Proof.
  revert g. induction idxs as [|i rest IH]; intros g H; cbn [towers_loop]; [exact H|].
  now apply IH, sound_update_tower.
Qed.

Lemma Projectile_move_fields (tgt : Enemy) (p : Projectile) :
  let p' := fst (Projectile_move tgt p) in
  p_target p' = p_target p /\ p_damage p' = p_damage p /\ p_speed p' = p_speed p.
Proof. unfold Projectile_move. destruct (PrimFloat.leb _ _); cbn; auto. Qed.

Lemma sound_update_projectile (p : Projectile) (g : Game) :
  proj_ok p -> sound g ->
  sound (fst (update_projectile p g))
  /\ forall p1, snd (update_projectile p g) = Some p1 -> proj_ok p1.
Proof.
  intros [Hdmg Hspd] Hg. pose proof Hg as (Hp & Hlive & Hw & Hq & Ht & Hpr & Hf).
  unfold update_projectile.
  pose proof (Projectile_move_fields (heap g !!! p_target p) p) as (_ & Hd1 & Hs1).
  destruct (Projectile_move _ p) as [p1 hit]. cbn [fst] in Hd1, Hs1.
  destruct (mem (p_target p) (enemies g)) eqn:Hmem.
  2: { rewrite orb_true_r. cbn. split; [exact Hg | discriminate]. }
  rewrite orb_false_r. apply mem_elem_of in Hmem.
  destruct hit; cbn [fst snd].
  2: { split; [exact Hg|]. intros ? [= <-]. split; congruence. }
  clear Hg.
  destruct Hlive as [Hnd Hl]. destruct (Hl _ Hmem) as (e & Hlook & Hok).
  rewrite (list_lookup_total_correct _ _ _ Hlook).
  unfold take_damage. cbn [health set_health].
  destruct (Z.leb_spec (health e - p_damage p) 0) as [Hdead | Halive]; cbn [fst snd];
    (split; [|discriminate]).
  - assert (Hrem : live_ok (set_enemies (remove_first (p_target p) (enemies g))
               (set_heap (<[p_target p := set_health (health e - p_damage p) e]> (heap g)) g))).
    { apply live_ok_remove; [now split | apply length_insert |].
      intros x Hx. now apply list_lookup_insert_ne. }
    close_sound Hrem. now rewrite H0.
  - assert (Hins : live_ok (set_heap
               (<[p_target p := set_health (health e - p_damage p) e]> (heap g)) g)).
    { apply live_ok_insert; [now split|]. intros _.
      destruct Hok as (H1 & H2 & H3 & H4 & H5 & H6).
      unfold enemy_ok. cbn. repeat split; auto; lia. }
    close_sound Hins.
Qed.

Lemma sound_projectiles_loop (snapshot : list Projectile) (g : Game) :
  Forall proj_ok snapshot -> sound g ->
  sound (fst (projectiles_loop snapshot g))
  /\ Forall proj_ok (snd (projectiles_loop snapshot g)).
Proof.
  revert g. induction snapshot as [|p rest IH]; intros g Hall Hg; cbn [projectiles_loop].
  - cbn. split; [exact Hg | constructor].
  - apply Forall_cons in Hall as [Hp Hrest].
    destruct (sound_update_projectile p g Hp Hg) as [H1 H2].
    destruct (update_projectile p g) as [g1 kept]. cbn [fst snd] in *.
    destruct (IH g1 Hrest H1) as [H3 H4].
    destruct (projectiles_loop rest g1) as [g2 ps]. cbn [fst snd] in *.
    split; [exact H3|]. destruct kept as [p1|]; [|exact H4].
    constructor; [now apply H2 | exact H4].
Qed.

Lemma sound_set_projectiles (ps : list Projectile) (g : Game) :
  Forall proj_ok ps -> sound g -> sound (set_projectiles ps g).
Proof. intros Hps (Hp & Hlive & Hw & Hq & Ht & Hpr & Hf). close_sound Hlive. Qed.

Lemma sound_update (g : Game) : sound g -> sound (update g).
Proof.
  intros Hg. unfold update. destruct (state g); try exact Hg.
  assert (H0 : sound (set_frame_count (frame_count g + 1) g)).
  { destruct Hg as (Hp & Hlive & Hw & Hq & Ht & Hpr & Hf). close_sound Hlive. }
  apply sound_update_wave in H0. unfold update_enemies.
  apply (sound_enemies_loop (enemies (update_wave (set_frame_count (frame_count g + 1) g))))
    in H0.
  unfold update_towers. set (g2 := enemies_loop _ _) in *.
  apply (sound_towers_loop (seq 0 (length (towers g2)))) in H0.
  set (g3 := towers_loop _ _) in *. unfold update_projectiles.
  destruct (sound_projectiles_loop (projectiles g3) g3) as [H1 H2]; [apply H0 | exact H0|].
  destruct (projectiles_loop (projectiles g3) g3) as [g4 ps]. cbn [fst snd] in *.
  now apply sound_set_projectiles.
Qed.

(** *** The operations of the controller keep the game sound *)

Lemma sound_new : sound new_Game.
Proof.
  repeat split; cbn; try constructor; try lia; try reflexivity.
  intros id H. now apply elem_of_nil in H.
Qed.

Lemma sound_reset (g : Game) : sound g -> sound (reset_game g).
Proof.
  intros (Hp & _). repeat split; cbn; try constructor; try lia; try reflexivity; auto.
  intros id H. now apply elem_of_nil in H.
Qed.

Lemma sound_start_next_wave (sh : Shuffle) (g : Game) :
  sound g -> sound (start_next_wave sh g).
Proof.
  intros (Hp & Hlive & Hw & Hq & Ht & Hpr & Hf).
  assert (0 <= current_wave g).
  { unfold wave_ok in Hw. destruct (wave g); lia. }
  repeat split; cbn; auto; try apply Hlive; try lia; try discriminate.
Qed.

Lemma sound_set_selected_tower (s : option nat) (g : Game) :
  sound g -> sound (set_selected_tower s g).
Proof. intros (Hp & Hlive & Hw & Hq & Ht & Hpr & Hf). close_sound Hlive. Qed.

Lemma sound_set_placing_tower (b : bool) (g : Game) :
  sound g -> sound (set_placing_tower b g).
Proof. intros (Hp & Hlive & Hw & Hq & Ht & Hpr & Hf). close_sound Hlive. Qed.

Lemma sound_set_money (m : Z) (g : Game) : sound g -> sound (set_money m g).
Proof. intros (Hp & Hlive & Hw & Hq & Ht & Hpr & Hf). close_sound Hlive. Qed.

Lemma sound_set_towers (ts : list Tower) (g : Game) :
  Forall Tower_ok ts -> sound g -> sound (set_towers ts g).
Proof. intros Hts (Hp & Hlive & Hw & Hq & Ht & Hpr & Hf). close_sound Hlive. Qed.

Lemma sound_place_tower (x y : Z) (g : Game) : sound g -> sound (place_tower x y g).
Proof.
  intros Hg. unfold place_tower. destruct (_ && _); [|exact Hg].
  apply sound_set_placing_tower, sound_set_money, sound_set_towers; [|exact Hg].
  apply Forall_app_2; [apply Hg|]. constructor; [|constructor].
  cbv. repeat split; congruence.
Qed.

Lemma sound_upgrade_tower (i : nat) (g : Game) : sound g -> sound (upgrade_tower i g).
Proof.
  intros Hg. unfold upgrade_tower. destruct (towers g !! i) as [t|] eqn:Ei; [|exact Hg].
  destruct (_ && _); [|exact Hg].
  apply sound_set_money, sound_set_towers; [|exact Hg].
  assert (Ht : Forall Tower_ok (towers g)) by apply Hg.
  apply Forall_insert; [exact Ht|].
  pose proof (Forall_lookup_1 _ _ _ _ Ht Ei) as (Hl & Hr & Hd & Hfr).
  unfold upgrade. destruct (Z.ltb_spec (level t) 3);
    unfold Tower_ok; cbn; repeat split; auto; lia.
Qed.

Lemma sound_handle_game_click (sh : Shuffle) (pos : Z * Z) (button : Z) (g : Game) :
  sound g -> sound (handle_game_click sh pos button g).
Proof.
  intros Hg. unfold handle_game_click. destruct pos as [x y].
  repeat match goal with
         | |- sound (if ?c then _ else _) => destruct c
         | |- sound (match ?o with Some _ => _ | None => _ end) => destruct o
         end;
    auto using sound_set_selected_tower, sound_set_placing_tower,
      sound_start_next_wave, sound_place_tower, sound_upgrade_tower.
Qed.

Lemma sound_handle_event (ev : Event) (g : Game) : sound g -> sound (handle_event ev g).
Proof.
  intros Hg. destruct ev as [|pos button sh|pos]; cbn [handle_event]; auto.
  unfold handle_menu_click, handle_end_screen_click.
  destruct (state g); try destruct (on_button _ _ _);
    auto using sound_reset, sound_handle_game_click.
Qed.

Lemma reachable_sound (g : Game) : reachable g -> sound g.
Proof.
  induction 1;
    auto using sound_new, sound_reset, sound_update, sound_place_tower,
      sound_upgrade_tower, sound_start_next_wave.
Qed.

Lemma played_sound (g : Game) : played g -> sound g.
Proof. induction 1; auto using sound_new, sound_handle_event, sound_update. Qed.

Lemma handle_events_played (evs : list Event) (g : Game) :
  played g -> played (handle_events evs g).
Proof.
  revert g. induction evs as [|ev rest IH]; intros g H; cbn [handle_events]; [exact H|].
  apply IH. now constructor.
Qed.

Lemma run_played (frames : list (list Event)) (g : Game) :
  played g -> played (run frames g).
Proof.
  revert g. induction frames as [|evs rest IH]; intros g H; cbn [run]; [exact H|].
  assert (played (update (handle_events evs g)))
    by now apply played_update, handle_events_played.
  destruct (existsb is_quit evs); auto.
Qed.

Lemma first_wave_played (n : nat) : played (first_wave n).
Proof. exact (run_played _ new_Game played_new). Qed.

Lemma either_sound (g : Game) : reachable g \/ played g -> sound g.
Proof. intros [H|H]; [now apply reachable_sound | now apply played_sound]. Qed.

(** X3: in every state of a session or of the main loop the list of
    enemies holds no enemy twice, and each enemy in it is allocated,
    has not reached the end of the path of the game, has a health
    between 1 and its maximum, and the maximum health, reward and speed
    of its type. *)
Theorem live_enemies_sound (g : Game) :
  reachable g \/ played g ->
  NoDup (enemies g)
  /\ forall id, id ∈ enemies g -> exists e, heap g !! id = Some e /\ enemy_ok e.
Proof. intros H. apply either_sound in H. apply H. Qed.

Lemma first_wave_200_enemies : enemies (first_wave 200) = [0; 1; 2]%nat.
Proof. vm_compute. reflexivity. Qed.

Lemma live_enemies_sound_witness :
  played (first_wave 200)
  /\ enemies (first_wave 200) = [0; 1; 2]%nat
  /\ NoDup (enemies (first_wave 200)).
Proof.
  split; [exact (first_wave_played 200)|].
  split; [exact first_wave_200_enemies|].
  destruct (live_enemies_sound (first_wave 200) (or_intror (first_wave_played 200)))
    as [H _].
  exact H.
Defined.

(** X4: in every state of a session or of the main loop the wave of
    the game, if any, bears the current wave number, which is 1 or
    more, follows the path of the game, spawns every 60 ticks with a
    timer between 0 and 59, and has nothing left to spawn once
    complete; without a wave the wave number is 0 and no wave is
    active.  Whenever no wave is active the field is empty, and the
    wave, if any, is complete. *)
Theorem wave_in_play (g : Game) :
  reachable g \/ played g ->
  match wave g with
  | Some w =>
      wave_number w = current_wave g /\ 1 <= current_wave g
      /\ w_path w = game_path /\ spawn_delay w = 60
      /\ 0 <= spawn_timer w < 60
      /\ (complete w = true -> enemies_to_spawn w = [])
  | None => current_wave g = 0 /\ wave_active g = false
  end
  /\ (wave_active g = false ->
      enemies g = []
      /\ match wave g with Some w => complete w = true | None => True end).
Proof. intros H. apply either_sound in H. split; apply H. Qed.

Lemma first_wave_1500_over : wave_active (first_wave 1500) = false.
Proof. vm_compute. reflexivity. Qed.

Lemma wave_in_play_witness :
  played (first_wave 1500)
  /\ wave_active (first_wave 1500) = false
  /\ enemies (first_wave 1500) = [].
Proof.
  split; [exact (first_wave_played 1500)|].
  split; [exact first_wave_1500_over|].
  destruct (wave_in_play (first_wave 1500) (or_intror (first_wave_played 1500)))
    as [_ H].
  destruct (H first_wave_1500_over) as [He _]. exact He.
Defined.

(** ** Enemies of one wave never arrive together *)

Lemma Enemy_move_set_health (h : Z) (e : Enemy) :
  Enemy_move (set_health h e)
  = (set_health h (fst (Enemy_move e)), snd (Enemy_move e)).
Proof.
  unfold Enemy_move, at_end.
  cbn [set_health set_path_index e_path path_index e_x e_y e_speed].
  case_split; reflexivity.
Qed.

Lemma flags_after_head (T a : nat) :
  (1 <= T)%nat -> (S a <= T)%nat ->
  flags_after T (S a) = Nat.eqb (S a) T :: flags_after T a.
Proof.
  intros HT Ha. unfold flags_after.
  destruct (Nat.eqb_spec (S a) T) as [E|E].
  - replace (S a - (T - 1))%nat with 1%nat by lia.
    replace (a - (T - 1))%nat with 0%nat by lia.
    replace (Nat.min (S a) (T - 1)) with (Nat.min a (T - 1)) by lia. reflexivity.
  - replace (S a - (T - 1))%nat with 0%nat by lia.
    replace (a - (T - 1))%nat with 0%nat by lia.
    replace (Nat.min (S a) (T - 1)) with (S a) by lia.
    replace (Nat.min a (T - 1)) with a by lia. reflexivity.
Qed.

Lemma moves_flag (ty : EnemyType.t) (a : nat) :
  (a < travel_time ty)%nat ->
  snd (Enemy_move (fst (moves a (new_Enemy ty game_path))))
  = Nat.eqb (S a) (travel_time ty).
Proof.
  intros Ha. assert (H := moves_check_all ty (S a) ltac:(lia)).
  unfold moves_check in H. rewrite moves_succ in H.
  apply andb_true_iff in H as [_ H]. apply same_flags_eq in H.
  rewrite flags_after_head in H by (pose proof (travel_time_pos ty); lia).
  now injection H as H _.
Qed.

Lemma walker_move (ty : EnemyType.t) (a : nat) (h : Z) :
  (a < travel_time ty)%nat ->
  Enemy_move (walker ty a h) = (walker ty (S a) h, Nat.eqb (S a) (travel_time ty)).
Proof.
  intros Ha. unfold walker. rewrite Enemy_move_set_health, moves_flag by exact Ha.
  now rewrite moves_succ.
Qed.

Lemma walks_set_health (h : Z) (e : Enemy) (ty : EnemyType.t) (a : nat) :
  walks e ty a -> walks (set_health h e) ty a.
Proof. unfold walks, walker. intros H. rewrite H at 1. reflexivity. Qed.

Lemma walks_walker (ty : EnemyType.t) (a : nat) (h : Z) : walks (walker ty a h) ty a.
Proof. reflexivity. Qed.

Lemma walks_new (ty : EnemyType.t) : walks (new_Enemy ty game_path) ty 0.
Proof. destruct ty; reflexivity. Qed.

Lemma walks_on_path (e : Enemy) (ty : EnemyType.t) (a : nat) :
  walks e ty a -> (a <= travel_time ty)%nat -> on_path e = true.
Proof.
  intros H Ha. rewrite H. assert (Hc := moves_check_all ty a Ha).
  unfold moves_check in Hc. unfold walker.
  destruct (moves a (new_Enemy ty game_path)) as [e1 bs]. cbn [fst].
  apply andb_true_iff in Hc as [Hc _]. exact Hc.
Qed.

Lemma update_enemy_walker (kind : nat -> EnemyType.t) (age : nat -> nat)
    (id : nat) (e : Enemy) (g : Game) :
  heap g !! id = Some e -> walks e (kind id) (age id) ->
  (age id < travel_time (kind id))%nat ->
  let g' := update_enemy id g in
  heap g' = <[id := walker (kind id) (S (age id)) (health e)]> (heap g)
  /\ enemies g' = (if due kind age id then remove_first id (enemies g) else enemies g)
  /\ wave g' = wave g
  /\ snd (Enemy_move (heap g !!! id)) = due kind age id.
Proof.
  intros Hlook Hw Ha. unfold update_enemy.
  rewrite (list_lookup_total_correct _ _ _ Hlook).
  pose proof (walker_move (kind id) (age id) (health e) Ha) as Hm.
  unfold walks in Hw. rewrite <- Hw in Hm. rewrite Hm. cbn [snd]. unfold due.
  destruct (Nat.eqb _ _); cbn [lives set_lives set_heap set_enemies enemies];
    [destruct (_ <=? 0)|]; cbn; auto.
Qed.

Lemma enemies_loop_walking (kind : nat -> EnemyType.t) (age : nat -> nat)
    (l : list nat) (g : Game) :
  NoDup l -> NoDup (enemies g) ->
  (forall id, id ∈ l ->
     exists e, heap g !! id = Some e /\ walks e (kind id) (age id)
               /\ (age id < travel_time (kind id))%nat) ->
  (forall id, id ∈ enemies g -> id ∉ l ->
     exists e, heap g !! id = Some e /\ walks e (kind id) (S (age id))
               /\ (S (age id) < travel_time (kind id))%nat) ->
  let g' := enemies_loop l g in
  (forall id, id ∈ enemies g' ->
     exists e, heap g' !! id = Some e /\ walks e (kind id) (S (age id))
               /\ (S (age id) < travel_time (kind id))%nat)
  /\ (forall id, id ∈ enemies g' -> id ∈ enemies g)
  /\ wave g' = wave g
  /\ arrivals l g = dues kind age l.
Proof.
  revert g. induction l as [|id0 rest IH]; intros g Hl Hg Htodo Hdone;
    cbn [enemies_loop arrivals dues].
  - cbn. repeat split; auto. intros id H. apply Hdone; [exact H | apply not_elem_of_nil].
  - apply NoDup_cons in Hl as [Hid0 Hrest].
    destruct (Htodo id0) as (e & Hlook & Hw & Ha); [now left|].
    destruct (update_enemy_walker kind age id0 e g Hlook Hw Ha) as (Hh & He & Hwv & Hfl).
    set (g1 := update_enemy id0 g) in *.
    assert (Hlt : (id0 < length (heap g))%nat) by (eapply lookup_lt_Some, Hlook).
    assert (Hsub : forall id, id ∈ enemies g1 -> id ∈ enemies g).
    { intros id. rewrite He. destruct (due kind age id0); [apply remove_first_subset | auto]. }
    destruct (IH g1) as (H1 & H2 & H3 & H4); [exact Hrest | | | |].
    + rewrite He. destruct (due kind age id0); [|exact Hg].
      now apply remove_first_NoDup.
    + intros id Hid. assert (id <> id0) by congruence.
      rewrite Hh, list_lookup_insert_ne by congruence. apply Htodo. now right.
    + intros id Hid Hnr. destruct (decide (id = id0)) as [->|Hne].
      * exists (walker (kind id0) (S (age id0)) (health e)).
        rewrite Hh, list_lookup_insert_eq by exact Hlt.
        split; [reflexivity|]. split; [apply walks_walker|].
        revert Hid. rewrite He. unfold due.
        destruct (Nat.eqb_spec (S (age id0)) (travel_time (kind id0))) as [E|E]; [|lia].
        intros Hid. now apply (remove_first_NoDup id0 _ Hg) in Hid.
      * rewrite Hh, list_lookup_insert_ne by congruence. apply Hdone; [now apply Hsub|].
        intros [?|?]%elem_of_cons; congruence.
    + split; [exact H1|]. split; [auto|]. split; [congruence|].
      rewrite Hfl, H4. reflexivity.
Qed.

Lemma dues_at_most_one (kind : nat -> EnemyType.t) (age : nat -> nat) (l : list nat) :
  NoDup l ->
  (forall i j, i ∈ l -> j ∈ l -> due kind age i = true -> due kind age j = true -> i = j) ->
  (dues kind age l <= 1)%nat.
Proof.
  induction 1 as [|id rest Hid Hrest IH]; intros Huniq; cbn [dues]; [lia|].
  destruct (due kind age id) eqn:Ed.
  - assert (dues kind age rest = 0%nat); [|lia].
    assert (Hnone : forall j, j ∈ rest -> due kind age j = false).
    { intros j Hj. destruct (due kind age j) eqn:Ej; [|reflexivity].
      assert (id = j) by (apply Huniq; auto; [now left | now right]). congruence. }
    clear -Hnone. induction rest as [|j r IHr]; cbn [dues]; [reflexivity|].
    rewrite Hnone by now left. rewrite IHr; [reflexivity|].
    intros k Hk. apply Hnone. now right.
  - assert (dues kind age rest <= 1)%nat; [|lia].
    apply IH. intros i j Hi Hj. apply Huniq; now right.
Qed.

(** Two enemies whose moves differ by a multiple of 60 are not due in
    the same tick, unless they entered together: 950, 475 and 1900 are
    different modulo 60. *)
Lemma due_in_step (kind : nat -> EnemyType.t) (age : nat -> nat) (i j : nat) :
  Z.of_nat (age i) mod 60 = Z.of_nat (age j) mod 60 ->
  due kind age i = true -> due kind age j = true -> age i = age j.
Proof.
  unfold due. intros Hmod Hi%Nat.eqb_eq Hj%Nat.eqb_eq.
  destruct (kind i), (kind j); cbn [travel_time] in *;
    injection Hi as Hi; injection Hj as Hj; rewrite Hi, Hj in *;
    first [reflexivity | vm_compute in Hmod; discriminate].
Qed.

Lemma enemies_loop_game_over (l : list nat) (g : Game) :
  (state g = GAME_OVER -> lives g <= 0) ->
  state (enemies_loop l g) = GAME_OVER -> lives (enemies_loop l g) <= 0.
Proof.
  revert g. induction l as [|id rest IH]; intros g H; cbn [enemies_loop]; [exact H|].
  apply IH. unfold update_enemy. destruct (Enemy_move _) as [e1 [|]]; [|exact H].
  cbn [lives set_lives set_heap set_enemies].
  destruct (Z.leb_spec (lives g - 1) 0); cbn; [lia|]. intros Hs. specialize (H Hs). lia.
Qed.

Lemma set_health_same (e : Enemy) : set_health (health e) e = e.
Proof. now destruct e. Qed.

Lemma thins_refl (g : Game) : thins g g.
Proof.
  repeat split; auto. intros id e H. exists (health e). now rewrite set_health_same.
Qed.

Lemma thins_trans (g1 g2 g3 : Game) : thins g1 g2 -> thins g2 g3 -> thins g1 g3.
Proof.
  intros (Hw1 & Hl1 & Hs1 & He1 & Hh1 & Hc1 & Ha1) (Hw2 & Hl2 & Hs2 & He2 & Hh2 & Hc2 & Ha2).
  repeat split; try congruence; auto.
  intros id e H. destruct (Hh1 _ _ H) as [h1 H1]. destruct (Hh2 _ _ H1) as [h2 H2].
  exists h2. exact H2.
Qed.

Lemma update_tower_thins (i : nat) (g : Game) : thins g (update_tower i g).
Proof.
  destruct (update_tower_frame i g) as (_ & Hl & Hs & Hh & He & _).
  cbv zeta in *. repeat split; auto.
  - unfold update_tower. case_split; reflexivity.
  - intros id. now rewrite He.
  - intros id e H. exists (health e). now rewrite Hh, set_health_same.
  - unfold update_tower. case_split; reflexivity.
  - unfold update_tower. case_split; reflexivity.
Qed.

Lemma towers_loop_thins (idxs : list nat) (g : Game) : thins g (towers_loop idxs g).
Proof.
  revert g. induction idxs as [|i rest IH]; intros g; cbn [towers_loop]; [apply thins_refl|].
  eapply thins_trans; [apply update_tower_thins | apply IH].
Qed.

Lemma update_projectile_thins (p : Projectile) (g : Game) :
  thins g (fst (update_projectile p g)).
Proof.
  unfold update_projectile. destruct (Projectile_move _ p) as [p1 hit].
  destruct (hit || negb (mem (p_target p) (enemies g))); [|apply thins_refl].
  destruct (mem (p_target p) (enemies g)); [|apply thins_refl].
  unfold take_damage. cbn [health set_health].
  assert (Hheap : forall id e, heap g !! id = Some e ->
            exists h, <[p_target p := set_health (health (heap g !!! p_target p) - p_damage p)
                                        (heap g !!! p_target p)]> (heap g) !! id
                      = Some (set_health h e)).
  { intros id e H. destruct (decide (id = p_target p)) as [->|Hne].
    - rewrite (list_lookup_total_correct _ _ _ H).
      rewrite list_lookup_insert_eq by (eapply lookup_lt_Some, H). eauto.
    - rewrite list_lookup_insert_ne by congruence.
      exists (health e). now rewrite set_health_same. }
  destruct (_ <=? 0); cbn [fst]; repeat split; auto.
  cbn. intros id. apply remove_first_subset.
Qed.

Lemma projectiles_loop_thins (snapshot : list Projectile) (g : Game) :
  thins g (fst (projectiles_loop snapshot g)).
Proof.
  revert g. induction snapshot as [|p rest IH]; intros g; cbn [projectiles_loop].
  - apply thins_refl.
  - pose proof (update_projectile_thins p g) as H1.
    destruct (update_projectile p g) as [g1 kept]. cbn [fst] in H1.
    pose proof (IH g1) as H2.
    destruct (projectiles_loop rest g1) as [g2 ps]. cbn [fst] in *.
    eapply thins_trans; eauto.
Qed.

Lemma update_projectiles_thins (g : Game) : thins g (update_projectiles g).
Proof.
  unfold update_projectiles. pose proof (projectiles_loop_thins (projectiles g) g) as H.
  destruct (projectiles_loop (projectiles g) g) as [g1 ps]. cbn [fst] in H.
  destruct H as (? & ? & ? & ? & ? & ? & ?). repeat split; auto.
Qed.

Lemma in_step_thins (kind : nat -> EnemyType.t) (age : nat -> nat) (g g' : Game) :
  thins g g' -> in_step kind age g -> in_step kind age g'.
Proof.
  intros (Hw & _ & _ & He & Hh & _) (Ha & Hb & Hc). split; [|split].
  - intros id Hid. destruct (Ha id (He _ Hid)) as (e & Hlook & Hwalk & Hage).
    destruct (Hh _ _ Hlook) as [h Hlook']. exists (set_health h e).
    split; [exact Hlook'|]. split; [now apply walks_set_health | exact Hage].
  - intros i j Hi Hj. apply Hb; auto.
  - intros w Hwave Hcomp id Hid. rewrite Hw in Hwave. eapply Hc; eauto.
Qed.

Lemma lives_ok_thins (g g' : Game) : thins g g' -> lives_ok g -> lives_ok g'.
Proof. intros (_ & Hl & Hs & _) H. unfold lives_ok in *. now rewrite Hl, Hs. Qed.

Lemma mod60_succ (x y : Z) : x mod 60 = y mod 60 -> (x + 1) mod 60 = (y + 1) mod 60.
Proof. intros H. rewrite (Z.add_mod x), (Z.add_mod y), H by lia. reflexivity. Qed.

(** The wave step: the enemies on the field are about to move, and so
    is the one that enters. *)
Lemma update_wave_about_to_move (kind : nat -> EnemyType.t) (age : nat -> nat) (g : Game) :
  sound g -> in_step kind age g ->
  exists kind' age', about_to_move kind' age' (update_wave g).
Proof.
  intros (_ & [Hnd Hlive] & Hwok & _) (Ha & Hb & Hc).
  assert (Hkeep : forall g', enemies g' = enemies g -> heap g' = heap g ->
            (forall w, wave g' = Some w -> complete w = false ->
               forall id, id ∈ enemies g ->
                 (Z.of_nat (age id) + 1) mod 60 = (spawn_timer w + 1) mod 60) ->
            exists kind' age', about_to_move kind' age' g').
  { intros g' He Hh Hc'. exists kind, age. split; [|split].
    - rewrite He, Hh. intros id Hid. destruct (Ha id Hid) as (e & ? & ? & ?).
      exists e. repeat split; auto; lia.
    - rewrite He. exact Hb.
    - rewrite He. exact Hc'. }
  unfold update_wave. unfold wave_ok in Hwok.
  destruct (wave g) as [w|] eqn:Ew.
  2: { apply Hkeep; auto. intros w. rewrite Ew. discriminate. }
  destruct Hwok as (_ & _ & Hpath & Hdelay & Htimer & _).
  destruct (complete w) eqn:Ec; cbn [negb].
  { destruct (enemies g) eqn:He; [destruct (_ >=? _)|]; apply Hkeep; auto; cbn;
      rewrite ?Ew; intros w' [= <-]; congruence. }
  unfold Wave_update. destruct (enemies_to_spawn w) as [|ty rest] eqn:El.
  { apply Hkeep; auto. cbn. intros w' [= <-]. cbn. discriminate. }
  rewrite Hdelay. destruct (Z.geb_spec (spawn_timer w + 1) 60) as [Hge|Hlt].
  - assert (Htm : spawn_timer w = 59) by lia.
    assert (Hold : forall id, id ∈ enemies g -> Z.of_nat (age id) mod 60 = 0).
    { intros id Hid. rewrite (Hc w eq_refl Ec id Hid), Htm. reflexivity. }
    set (n := length (heap g)).
    assert (Hfresh : forall id, id ∈ enemies g -> id <> n).
    { intros id Hid. destruct (Hlive id Hid) as (e & Hlook & _).
      apply lookup_lt_Some in Hlook. unfold n. lia. }
    exists (fun id => if Nat.eqb id n then ty else kind id),
           (fun id => if Nat.eqb id n then 0%nat else age id).
    unfold about_to_move, add_enemy.
    cbn [enemies heap wave set_enemies set_heap set_wave].
    fold n. split; [|split].
    + intros id [Hid|Hid]%elem_of_app.
      * destruct (Nat.eqb_spec id n) as [E|_]; [now apply Hfresh in Hid|].
        destruct (Ha id Hid) as (e & Hlook & Hwalk & Hage).
        exists e. rewrite lookup_app_l by (eapply lookup_lt_Some, Hlook).
        repeat split; auto; lia.
      * apply list_elem_of_singleton in Hid. subst id. rewrite Nat.eqb_refl.
        exists (new_Enemy ty (w_path w)). rewrite Hpath.
        split; [apply list_lookup_middle; reflexivity|].
        split; [apply walks_new | pose proof (travel_time_pos ty); lia].
    + intros i j Hi Hj.
      apply elem_of_app in Hi as [Hi|Hi]; apply elem_of_app in Hj as [Hj|Hj];
        try (apply list_elem_of_singleton in Hi; subst i);
        try (apply list_elem_of_singleton in Hj; subst j);
        rewrite ?Nat.eqb_refl.
      * destruct (Nat.eqb_spec i n) as [E|_]; [now apply Hfresh in Hi|].
        destruct (Nat.eqb_spec j n) as [E|_]; [now apply Hfresh in Hj|].
        now apply Hb.
      * destruct (Nat.eqb_spec i n) as [E|_]; [now apply Hfresh in Hi|].
        destruct (Ha i Hi) as (_ & _ & _ & Hage).
        split; [now rewrite Hold | lia].
      * destruct (Nat.eqb_spec j n) as [E|_]; [now apply Hfresh in Hj|].
        destruct (Ha j Hj) as (_ & _ & _ & Hage).
        split; [now rewrite Hold | lia].
      * split; reflexivity.
    + intros w' [= <-] _ id [Hid|Hid]%elem_of_app; cbn [spawn_timer].
      * destruct (Nat.eqb_spec id n) as [E|_]; [now apply Hfresh in Hid|].
        specialize (Hold id Hid). now apply (mod60_succ _ 0).
      * apply list_elem_of_singleton in Hid. subst id. now rewrite Nat.eqb_refl.
  - apply Hkeep; auto. cbn [wave set_wave]. intros w' [= <-] _ id Hid.
    cbn [spawn_timer]. now apply mod60_succ, Hc.
Qed.

(** The enemy loop: every enemy makes one move, at most one reaches the
    end. *)
Lemma enemies_loop_in_step (kind : nat -> EnemyType.t) (age : nat -> nat) (g : Game) :
  NoDup (enemies g) -> about_to_move kind age g ->
  in_step kind (fun id => S (age id)) (update_enemies g)
  /\ (arrivals (enemies g) g <= 1)%nat.
Proof.
  intros Hnd (Ha & Hb & Hc). unfold update_enemies.
  destruct (enemies_loop_walking kind age (enemies g) g Hnd Hnd Ha)
    as (H1 & H2 & H3 & H4); [intros id Hid Hn; contradiction|].
  cbv zeta in *. split.
  - split; [|split].
    + intros id Hid. destruct (H1 id Hid) as (e & ? & ? & ?).
      exists e. repeat split; auto; lia.
    + intros i j Hi%H2 Hj%H2. destruct (Hb i j Hi Hj) as [Hm Hd]. split.
      * rewrite !Nat2Z.inj_succ. unfold Z.succ. now apply mod60_succ.
      * intros [= E]. auto.
    + intros w Hw Hcomp id Hid%H2. rewrite H3 in Hw.
      rewrite Nat2Z.inj_succ. unfold Z.succ. eapply Hc; eauto.
  - rewrite H4. apply dues_at_most_one; [exact Hnd|].
    intros i j Hi Hj Hdi Hdj. destruct (Hb i j Hi Hj) as [Hm Hd].
    apply Hd. now apply (due_in_step kind).
Qed.

Lemma enemies_loop_lives_ok (g : Game) :
  (arrivals (enemies g) g <= 1)%nat ->
  1 <= lives g <= STARTING_LIVES -> state g <> GAME_OVER ->
  lives_ok (update_enemies g).
Proof.
  intros Harr Hl Hs. unfold update_enemies, lives_ok.
  destruct (enemies_loop_frame (enemies g) g) as (_ & Hlives & _ & Hpos & _).
  pose proof (enemies_loop_game_over (enemies g) g ltac:(congruence)) as Hover.
  cbv zeta in *. rewrite Hlives in *. split; [lia|]. split.
  - intros H0. destruct (state (enemies_loop (enemies g) g)) eqn:Es; try reflexivity;
      (assert (1 <= lives g - Z.of_nat (arrivals (enemies g) g));
       [apply Hpos; [lia | congruence] | lia]).
  - intros Hgo. specialize (Hover Hgo). lia.
Qed.

Lemma update_wave_state (g : Game) :
  state g = PLAYING ->
  state (update_wave g) <> GAME_OVER.
Proof.
  intros Hs. unfold update_wave, Wave_update, add_enemy.
  case_split; cbn; congruence.
Qed.

Lemma fair_update (g : Game) : fair g -> fair (update g).
Proof.
  intros (Hsound & (kind & age & Hstep) & Hlives).
  split; [now apply sound_update|].
  unfold update. destruct (state g) eqn:Es; try (split; [now exists kind, age | exact Hlives]).
  set (g0 := set_frame_count (frame_count g + 1) g).
  assert (Hs0 : sound g0).
  { destruct Hsound as (Hp & Hlive & Hw & Hq & Ht & Hpr & Hf). close_sound Hlive. }
  assert (Hstep0 : in_step kind age g0) by exact Hstep.
  destruct (update_wave_about_to_move kind age g0 Hs0 Hstep0) as (kind' & age' & Hpre).
  pose proof (sound_update_wave g0 Hs0) as Hs1.
  destruct (update_wave_frame g0) as (_ & Hl1 & _).
  pose proof (update_wave_state g0 Es) as Hst1.
  set (g1 := update_wave g0) in *.
  assert (Hnd : NoDup (enemies g1)) by apply Hs1.
  destruct (enemies_loop_in_step kind' age' g1 Hnd Hpre) as [Hstep2 Harr].
  assert (Hlives2 : lives_ok (update_enemies g1)).
  { apply enemies_loop_lives_ok; [exact Harr | | exact Hst1].
    cbv zeta in Hl1. rewrite Hl1. cbn [lives g0 set_frame_count].
    destruct Hlives as [Hrange Hiff]. 
    assert (lives g <> 0) by (intros H0; apply Hiff in H0; congruence). lia. }
  set (g2 := update_enemies g1) in *.
  assert (Hthin : thins g2 (update_projectiles (update_towers g2))).
  { eapply thins_trans; [apply towers_loop_thins | apply update_projectiles_thins]. }
  split.
  - exists kind', (fun id => S (age' id)). eapply in_step_thins; eauto.
  - eapply lives_ok_thins; eauto.
Qed.

(** *** Clicks *)

Lemma place_tower_frame (x y : Z) (g : Game) :
  let g' := place_tower x y g in
  lives g' = lives g /\ state g' = state g /\ heap g' = heap g
  /\ enemies g' = enemies g /\ wave g' = wave g
  /\ current_wave g' = current_wave g /\ wave_active g' = wave_active g.
Proof. unfold place_tower. destruct (_ && _); cbn; auto 10. Qed.

Lemma upgrade_tower_frame (i : nat) (g : Game) :
  let g' := upgrade_tower i g in
  lives g' = lives g /\ state g' = state g /\ heap g' = heap g
  /\ enemies g' = enemies g /\ wave g' = wave g
  /\ current_wave g' = current_wave g /\ wave_active g' = wave_active g.
Proof.
  unfold upgrade_tower. destruct (towers g !! i); [destruct (_ && _)|]; cbn; auto 10.
Qed.

(** A click during play leaves the enemies, the lives and the state
    alone; it starts a wave only when none is active. *)
Lemma handle_game_click_frame (sh : Shuffle) (pos : Z * Z) (button : Z) (g : Game) :
  let g' := handle_game_click sh pos button g in
  lives g' = lives g /\ state g' = state g /\ heap g' = heap g
  /\ enemies g' = enemies g
  /\ ((wave g' = wave g /\ current_wave g' = current_wave g
       /\ wave_active g' = wave_active g)
      \/ (wave_active g = false /\ g' = start_next_wave sh g)).
Proof.
  unfold handle_game_click. destruct pos as [x y].
  pose proof (place_tower_frame x y g) as Hplace.
  destruct (button =? 3); [cbn; auto 10|].
  destruct (y >? SCREEN_HEIGHT - 100).
  - destruct (_ && _).
    { destruct (wave_active g) eqn:Ea; cbn [negb]; [auto 10|].
      repeat split; auto. }
    destruct (_ && _); [destruct (_ >=? _); cbn; auto 10|].
    destruct (_ && _); [|auto 10].
    destruct (selected_tower g) as [i|]; [|auto 10].
    pose proof (upgrade_tower_frame i g) as Hup.
    destruct (towers g !! i) as [t|]; [|auto 10].
    destruct (can_upgrade t); [|auto 10].
    cbv zeta in Hup. destruct Hup as (? & ? & ? & ? & ? & ? & ?). auto 10.
  - destruct (placing_tower g); [|cbn; auto 10].
    cbv zeta in Hplace. destruct Hplace as (? & ? & ? & ? & ? & ? & ?). auto 10.
Qed.

Lemma marching_frame (g g' : Game) :
  enemies g' = enemies g -> heap g' = heap g -> wave g' = wave g ->
  marching g -> marching g'.
Proof.
  intros He Hh Hw (kind & age & Ha & Hb & Hc). exists kind, age.
  unfold in_step, walking in *. rewrite He, Hh, Hw. auto.
Qed.

Lemma marching_empty (g : Game) : enemies g = [] -> marching g.
Proof.
  intros He. exists (fun _ => EnemyType.BASIC), (fun _ => 0%nat).
  unfold in_step, walking. rewrite He.
  split; [|split]; intros; exfalso; eapply not_elem_of_nil; eauto.
Qed.

Lemma lives_ok_frame (g g' : Game) :
  lives g' = lives g -> state g' = state g -> lives_ok g -> lives_ok g'.
Proof. unfold lives_ok. now intros -> ->. Qed.

Lemma fair_new : fair new_Game.
Proof.
  split; [exact sound_new|]. split; [now apply marching_empty|].
  unfold lives_ok. cbn. split; [unfold STARTING_LIVES; lia|]. split; discriminate.
Qed.

Lemma fair_reset (g : Game) : fair g -> fair (reset_game g).
Proof.
  intros (Hs & _ & _). split; [now apply sound_reset|].
  split; [now apply marching_empty|].
  unfold lives_ok. cbn. split; [unfold STARTING_LIVES; lia|]. split; discriminate.
Qed.

Lemma fair_handle_game_click (sh : Shuffle) (pos : Z * Z) (button : Z) (g : Game) :
  fair g -> fair (handle_game_click sh pos button g).
Proof.
  intros (Hs & Hm & Hl). split; [now apply sound_handle_game_click|].
  destruct (handle_game_click_frame sh pos button g) as (H1 & H2 & H3 & H4 & H5).
  cbv zeta in *. split; [|now apply (lives_ok_frame g)].
  destruct H5 as [(Hw & _)|[Ha _]]; [now apply (marching_frame g)|].
  apply marching_empty. rewrite H4.
  destruct Hs as (_ & _ & _ & Hq & _). now apply Hq.
Qed.

Lemma fair_handle_event (ev : Event) (g : Game) : fair g -> fair (handle_event ev g).
Proof.
  intros Hg. destruct ev as [|pos button sh|pos]; cbn [handle_event]; auto.
  unfold handle_menu_click, handle_end_screen_click.
  destruct (state g); try destruct (on_button _ _ _);
    auto using fair_reset, fair_handle_game_click.
Qed.

Lemma played_fair (g : Game) : played g -> fair g.
Proof. induction 1; auto using fair_new, fair_handle_event, fair_update. Qed.

Lemma fair_reached_end (g : Game) : fair g -> (reached_end g <= 1)%nat.
Proof.
  intros (Hsound & (kind & age & Hstep) & _). unfold reached_end.
  destruct (state g); try lia. unfold before_enemies.
  set (g0 := set_frame_count (frame_count g + 1) g).
  assert (Hs0 : sound g0).
  { destruct Hsound as (Hp & Hlive & Hw & Hq & Ht & Hpr & Hf). close_sound Hlive. }
  destruct (update_wave_about_to_move kind age g0 Hs0 Hstep) as (kind' & age' & Hpre).
  pose proof (sound_update_wave g0 Hs0) as Hs1.
  eapply enemies_loop_in_step; [apply Hs1 | exact Hpre].
Qed.

(** X5: through the main loop (clicks handled by the handlers of the
    state, then [update]) the lives stay between 0 and 20 and are 0
    exactly when the game is over; at most one enemy reaches the end
    in a tick, so that a tick takes at most one life. *)
Theorem lives_in_play (g : Game) :
  played g ->
  0 <= lives g <= STARTING_LIVES
  /\ (lives g = 0 <-> state g = GAME_OVER)
  /\ (reached_end g <= 1)%nat
  /\ lives g - 1 <= lives (update g) <= lives g.
Proof.
  intros H%played_fair. pose proof (fair_reached_end g H) as Hr.
  destruct H as (_ & _ & Hl & Hs). destruct (update_frame g) as (Hu & _).
  cbv zeta in Hu. repeat split; auto; try apply Hs; lia.
Qed.

Lemma first_wave_1067_lives :
  lives (first_wave 1067) = 20 /\ lives (update (first_wave 1067)) = 19.
Proof. vm_compute. split; reflexivity. Qed.

Lemma lives_in_play_witness :
  played (first_wave 1067)
  /\ lives (first_wave 1067) = 20
  /\ lives (update (first_wave 1067)) = 19
  /\ (reached_end (first_wave 1067) <= 1)%nat.
Proof.
  split; [exact (first_wave_played 1067)|].
  split; [exact (proj1 first_wave_1067_lives)|].
  split; [exact (proj2 first_wave_1067_lives)|].
  destruct (lives_in_play (first_wave 1067) (first_wave_played 1067)) as (_ & _ & H & _).
  exact H.
Defined.

(** X6: through the main loop every enemy on the field is the enemy
    of its type after some number of moves, between 1 and its travel
    time less 1, with its own health, and is on the path; two enemies
    on the field have made different numbers of moves, which differ by
    a multiple of 60. *)
Theorem enemies_march_in_step (g : Game) :
  played g ->
  exists (kind : nat -> EnemyType.t) (age : nat -> nat),
    (forall id, id ∈ enemies g ->
       exists e, heap g !! id = Some e
                 /\ e = walker (kind id) (age id) (health e)
                 /\ (1 <= age id < travel_time (kind id))%nat
                 /\ on_path e = true)
    /\ (forall i j, i ∈ enemies g -> j ∈ enemies g -> i <> j ->
          age i <> age j /\ Z.of_nat (age i) mod 60 = Z.of_nat (age j) mod 60).
Proof.
  intros (_ & (kind & age & Ha & Hb & _) & _)%played_fair. exists kind, age. split.
  - intros id Hid. destruct (Ha id Hid) as (e & Hlook & Hw & Hage).
    exists e. repeat split; auto; try lia.
    apply (walks_on_path e (kind id) (age id) Hw). lia.
  - intros i j Hi Hj Hne. destruct (Hb i j Hi Hj) as [Hm Hd]. split; auto.
Qed.

Lemma enemies_march_in_step_witness :
  played (first_wave 200)
  /\ enemies (first_wave 200) = [0; 1; 2]%nat
  /\ exists e, heap (first_wave 200) !! 1%nat = Some e /\ on_path e = true.
Proof.
  split; [exact (first_wave_played 200)|].
  split; [exact first_wave_200_enemies|].
  destruct (enemies_march_in_step (first_wave 200) (first_wave_played 200))
    as (kind & age & H & _).
  destruct (H 1%nat) as (e & Hlook & _ & _ & Hon).
  - rewrite first_wave_200_enemies. apply list_elem_of_In. right. left. reflexivity.
  - exists e. split; [exact Hlook | exact Hon].
Defined.

(** ** Waves and states *)

Lemma update_wave_stage (g : Game) :
  let g1 := update_wave g in
  current_wave g1 = current_wave g
  /\ ((state g1 = state g /\ wave_active g1 = wave_active g)
      \/ (state g1 = state g /\ wave_active g1 = false /\ current_wave g < 10)
      \/ (state g1 = VICTORY /\ wave_active g1 = wave_active g
          /\ 10 <= current_wave g /\ enemies g1 = []
          /\ exists w, wave g1 = Some w /\ complete w = true)).
Proof.
  unfold update_wave. destruct (wave g) as [w|] eqn:Ew; [|auto].
  destruct (complete w) eqn:Ec; cbn [negb].
  - destruct (enemies g) eqn:He; [|auto].
    destruct (Z.geb_spec (current_wave g) 10); cbn.
    + split; [reflexivity|]. right. right. repeat split; auto; try lia. eauto.
    + split; [reflexivity|]. right. left. repeat split; auto.
  - unfold Wave_update, add_enemy. case_split; cbn; auto.
Qed.

Lemma enemies_loop_stage (l : list nat) (g : Game) :
  let g' := enemies_loop l g in
  current_wave g' = current_wave g /\ wave_active g' = wave_active g
  /\ (state g' = state g \/ state g' = GAME_OVER).
Proof.
  revert g. induction l as [|id rest IH]; intros g; cbn [enemies_loop]; [auto|].
  destruct (IH (update_enemy id g)) as (H1 & H2 & H3). cbv zeta. rewrite H1, H2.
  unfold update_enemy in *. destruct (Enemy_move _) as [e1 [|]];
    [destruct (_ <=? 0)|]; cbn in *; auto; destruct H3; auto.
Qed.

Lemma subset_nil (l : list nat) : (forall id, id ∈ l -> id ∈ @nil nat) -> l = [].
Proof.
  destruct l as [|x l]; [reflexivity|]. intros H.
  exfalso. apply (not_elem_of_nil x), H. now left.
Qed.

Lemma update_stage (g : Game) :
  state g = PLAYING ->
  let g' := update g in
  current_wave g' = current_wave g
  /\ (((state g' = PLAYING \/ state g' = GAME_OVER)
       /\ (wave_active g' = wave_active g
           \/ (wave_active g' = false /\ current_wave g < 10)))
      \/ (state g' = VICTORY /\ wave_active g' = wave_active g
          /\ 10 <= current_wave g /\ enemies g' = []
          /\ exists w, wave g' = Some w /\ complete w = true)).
Proof.
  intros Es. unfold update. rewrite Es.
  set (g0 := set_frame_count (frame_count g + 1) g).
  destruct (update_wave_stage g0) as (Hc1 & H1). cbv zeta in Hc1, H1.
  set (g1 := update_wave g0) in *.
  destruct (enemies_loop_stage (enemies g1) g1) as (Hc2 & Ha2 & Hs2). cbv zeta in *.
  fold (update_enemies g1) in *.
  assert (Hthin : thins (update_enemies g1)
                    (update_projectiles (update_towers (update_enemies g1)))).
  { eapply thins_trans; [apply towers_loop_thins | apply update_projectiles_thins]. }
  destruct Hthin as (Hw3 & _ & Hs3 & He3 & _ & Hc3 & Ha3).
  change (current_wave g0) with (current_wave g) in *.
  change (wave_active g0) with (wave_active g) in *.
  change (state g0) with (state g) in *.
  split; [congruence|].
  destruct H1 as [(Hs1 & Ha1)|[(Hs1 & Ha1 & Hlt)|(Hs1 & Ha1 & Hge & He1 & w & Hw1 & Hcomp)]].
  - left. rewrite Hs3, Ha3, Ha2, Ha1. split; [|auto].
    destruct Hs2 as [Hs2|Hs2]; rewrite Hs2; [left; congruence | auto].
  - left. rewrite Hs3, Ha3, Ha2, Ha1. split; [|auto].
    destruct Hs2 as [Hs2|Hs2]; rewrite Hs2; [left; congruence | auto].
  - right. assert (Hid : update_enemies g1 = g1).
    { unfold update_enemies. now rewrite He1. }
    rewrite Hid in *. rewrite Hs3, Ha3, Hw3. repeat split; auto.
    + apply subset_nil. now rewrite <- He1.
    + eauto.
Qed.

Lemma staged_update (g : Game) : staged g -> staged (update g).
Proof.
  intros Hg. destruct (state g) eqn:Es;
    try (rewrite update_not_playing by congruence; exact Hg).
  destruct Hg as (Hb & Ha & _).
  destruct (update_stage g Es) as (Hc & H). cbv zeta in *.
  unfold staged. rewrite Hc.
  destruct H as [(Hs & Hact)|(Hs & Hact & Hge & He & Hw)].
  - split; [exact Hb|]. split.
    { destruct Hact as [Hact|[_ Hlt]]; [rewrite Hact; exact Ha | auto]. }
    destruct Hs as [Hs|Hs]; rewrite Hs; repeat split; discriminate.
  - rewrite Hs, Hact. repeat split; auto; try lia; discriminate.
Qed.

Lemma staged_new : staged new_Game.
Proof. unfold staged. cbn. repeat split; auto; try lia; discriminate. Qed.

Lemma staged_reset (g : Game) : staged (reset_game g).
Proof. unfold staged. cbn. repeat split; auto; try lia; discriminate. Qed.

Lemma staged_handle_event (ev : Event) (g : Game) : staged g -> staged (handle_event ev g).
Proof.
  intros Hg. destruct ev as [|pos button sh|pos]; cbn [handle_event]; auto.
  unfold handle_menu_click, handle_end_screen_click.
  destruct (state g) eqn:Es; try destruct (on_button _ _ _);
    auto using staged_reset.
  destruct (handle_game_click_frame sh pos button g) as (_ & Hs & _ & _ & H).
  cbv zeta in *. destruct Hg as (Hb & Ha & _). unfold staged. rewrite Hs, Es.
  destruct H as [(_ & Hc & Hact)|[Hact ->]].
  - rewrite Hc, Hact. repeat split; auto; try lia; discriminate.
  - specialize (Ha Hact). cbn. repeat split; try lia; discriminate.
Qed.

Lemma played_staged (g : Game) : played g -> staged g.
Proof. induction 1; auto using staged_new, staged_handle_event, staged_update. Qed.

Lemma update_transition (g : Game) :
  state (update g) = state g \/ transition (state g) (state (update g)) = true.
Proof.
  destruct (state g) eqn:Es; try (rewrite update_not_playing by congruence; auto).
  destruct (update_stage g Es) as (_ & [([Hs|Hs] & _)|(Hs & _)]); cbv zeta in *;
    rewrite Hs; auto.
Qed.

Lemma handle_event_transition (ev : Event) (g : Game) :
  state (handle_event ev g) = state g
  \/ transition (state g) (state (handle_event ev g)) = true.
Proof.
  destruct ev as [|pos button sh|pos]; cbn [handle_event]; auto.
  unfold handle_menu_click, handle_end_screen_click.
  destruct (state g) eqn:Es; try destruct (on_button _ _ _); cbn; auto.
  destruct (handle_game_click_frame sh pos button g) as (_ & Hs & _). left. congruence.
Qed.

Lemma winning_game_played : played winning_game.
Proof. exact (run_played _ new_Game played_new). Qed.

Lemma winning_game_won :
  state winning_game = VICTORY /\ current_wave winning_game = 10
  /\ lives winning_game = 20 /\ money winning_game = 4880.
Proof. vm_compute. repeat split; reflexivity. Qed.

(** X7: through the main loop the wave number stays between 0 and 10,
    and is below 10 whenever no wave is active, that is whenever the
    wave button starts a wave: no wave beyond the tenth is ever
    started. *)
Theorem waves_bounded (g : Game) :
  played g ->
  0 <= current_wave g <= 10
  /\ (wave_active g = false -> current_wave g < 10)
  /\ forall sh pos button,
       current_wave (handle_game_click sh pos button g) <= 10.
Proof.
  intros (Hb & Ha & _)%played_staged. split; [exact Hb|]. split; [exact Ha|].
  intros sh pos button.
  destruct (handle_game_click_frame sh pos button g) as (_ & _ & _ & _ & H).
  cbv zeta in H. destruct H as [(_ & Hc & _)|[Hact ->]]; [lia|].
  specialize (Ha Hact). cbn. lia.
Qed.

Lemma waves_bounded_witness :
  played winning_game /\ current_wave winning_game = 10
  /\ current_wave (handle_game_click keep_order (300, 660) 1 winning_game) <= 10.
Proof.
  split; [exact winning_game_played|].
  split; [exact (proj1 (proj2 winning_game_won))|].
  destruct (waves_bounded winning_game winning_game_played) as (_ & _ & H).
  exact (H keep_order (300, 660) 1).
Defined.

(** X8: [update] and the handling of an event change the state only
    along MENU -> PLAYING, PLAYING -> GAME_OVER, PLAYING -> VICTORY,
    GAME_OVER -> PLAYING and VICTORY -> PLAYING; [update] leaves any
    state but PLAYING alone, and an event never ends a game. *)
Theorem state_transitions (g : Game) (ev : Event) :
  (state (update g) = state g \/ transition (state g) (state (update g)) = true)
  /\ (state g <> PLAYING -> update g = g)
  /\ (state (handle_event ev g) = state g
      \/ transition (state g) (state (handle_event ev g)) = true)
  /\ (state g = PLAYING -> state (handle_event ev g) = PLAYING).
Proof.
  split; [apply update_transition|]. split; [apply update_not_playing|].
  split; [apply handle_event_transition|].
  intros Es. destruct ev as [|pos button sh|pos]; cbn [handle_event]; auto.
  rewrite Es. destruct (handle_game_click_frame sh pos button g) as (_ & Hs & _).
  congruence.
Qed.

(** X9: through the main loop the game is never PAUSED; it is in the
    MENU only as long as nothing has happened; and it is won only
    after the tenth wave, complete, with an empty field and at least
    one life. *)
Theorem played_states (g : Game) :
  played g ->
  state g <> PAUSED
  /\ (state g = MENU -> g = new_Game)
  /\ (state g = VICTORY ->
      current_wave g = 10 /\ enemies g = [] /\ 1 <= lives g
      /\ exists w, wave g = Some w /\ complete w = true /\ enemies_to_spawn w = []).
Proof.
  intros Hp. pose proof (played_staged g Hp) as (_ & _ & Hpa & Hmenu & Hv).
  pose proof (played_fair g Hp) as ((_ & _ & Hw & _) & _ & (Hl & Hiff)).
  split; [exact Hpa|]. split; [exact Hmenu|]. intros Es.
  destruct (Hv Es) as (Hc & He & w & Hwave & Hcomp).
  split; [exact Hc|]. split; [exact He|]. split.
  - assert (lives g <> 0) by (intros H0; apply Hiff in H0; congruence). lia.
  - exists w. split; [exact Hwave|]. split; [exact Hcomp|].
    unfold wave_ok in Hw. rewrite Hwave in Hw. now apply Hw.
Qed.

Lemma played_states_witness :
  played winning_game /\ state winning_game = VICTORY
  /\ enemies winning_game = [].
Proof.
  split; [exact winning_game_played|].
  split; [exact (proj1 winning_game_won)|].
  destruct (played_states winning_game winning_game_played) as (_ & _ & H).
  destruct (H (proj1 winning_game_won)) as (_ & He & _). exact He.
Defined.

(** ** Towers on the field *)

Lemma existsb_near_sites (x y : Z) (ts : list Tower) :
  existsb (near_tower x y) ts = existsb (near_site x y) (site <$> ts).
Proof. induction ts as [|t ts IH]; cbn; [reflexivity|]. now rewrite IH. Qed.

Lemma site_upgrade (t : Tower) : site (upgrade t) = site t.
Proof. unfold upgrade. now destruct (level t <? 3). Qed.

Lemma site_shoot (f : Z) (tg : option nat) (t : Tower) :
  site (fst (shoot f (set_target tg t))) = site t.
Proof. unfold shoot. case_split; reflexivity. Qed.

Lemma level_shoot (f : Z) (tg : option nat) (t : Tower) :
  level (fst (shoot f (set_target tg t))) = level t.
Proof. unfold shoot. case_split; reflexivity. Qed.

Lemma insert_fmap_same {A : Type} (f : Tower -> A) (i : nat) (t t' : Tower)
    (l : list Tower) :
  l !! i = Some t -> f t' = f t -> f <$> <[i := t']> l = f <$> l.
Proof.
  intros Hl Hf. rewrite list_fmap_insert, Hf. apply list_insert_id.
  now rewrite list_lookup_fmap, Hl.
Qed.

Lemma update_tower_fmap {A : Type} (f : Tower -> A) (i : nat) (g : Game) :
  (forall fr tg t, f (fst (shoot fr (set_target tg t))) = f t) ->
  f <$> towers (update_tower i g) = f <$> towers g.
Proof.
  intros Hf. unfold update_tower. destruct (towers g !! i) as [t|] eqn:Ei; [|reflexivity].
  specialize (Hf (frame_count g) (find_target t (heap g) (enemies g)) t).
  destruct (shoot _ _) as [t2 [p|]]; cbn [fst] in Hf; cbn;
    now apply (insert_fmap_same f i t).
Qed.

Lemma towers_loop_fmap {A : Type} (f : Tower -> A) (idxs : list nat) (g : Game) :
  (forall fr tg t, f (fst (shoot fr (set_target tg t))) = f t) ->
  f <$> towers (towers_loop idxs g) = f <$> towers g.
Proof.
  intros Hf. revert g. induction idxs as [|i rest IH]; intros g; cbn [towers_loop];
    [reflexivity|].
  now rewrite IH, update_tower_fmap.
Qed.

(** A tick moves no tower and changes no level. *)
Lemma update_fmap {A : Type} (f : Tower -> A) (g : Game) :
  (forall fr tg t, f (fst (shoot fr (set_target tg t))) = f t) ->
  f <$> towers (update g) = f <$> towers g.
Proof.
  intros Hf. unfold update. destruct (state g); try reflexivity.
  set (g0 := set_frame_count (frame_count g + 1) g).
  destruct (update_wave_frame g0) as (_ & _ & _ & Ht1 & _).
  destruct (enemies_loop_frame (enemies (update_wave g0)) (update_wave g0))
    as (_ & _ & _ & _ & Ht2 & _).
  cbv zeta in *. fold (update_enemies (update_wave g0)) in Ht2.
  set (g2 := update_enemies (update_wave g0)) in *.
  pose proof (towers_loop_fmap f (seq 0 (length (towers g2))) g2 Hf) as Ht3.
  fold (update_towers g2) in Ht3. set (g3 := update_towers g2) in *.
  unfold update_projectiles.
  destruct (projectiles_loop_frame (projectiles g3) g3) as (_ & _ & _ & Ht4 & _).
  destruct (projectiles_loop (projectiles g3) g3) as [g4 ps]. cbn [fst] in Ht4.
  cbn [towers set_projectiles]. rewrite Ht4, Ht3, Ht2, Ht1. reflexivity.
Qed.

Lemma spaced_nil : spaced [].
Proof. intros j s H. discriminate. Qed.

Lemma spaced_snoc (l : list (Z * Z)) (s : Z * Z) :
  spaced l -> site_ok l s -> spaced (l ++ [s]).
Proof.
  intros Hl Hs j s' Hj. destruct (decide (j < length l)%nat) as [Hlt|Hge].
  - rewrite lookup_app_l in Hj by exact Hlt.
    rewrite take_app_le by lia. now apply Hl.
  - assert (j = length l).
    { apply lookup_lt_Some in Hj. rewrite length_app in Hj. cbn in Hj. lia. }
    subst j. rewrite list_lookup_middle in Hj by reflexivity. injection Hj as <-.
    rewrite take_app_length. exact Hs.
Qed.

Lemma spaced_place_tower (x y : Z) (g : Game) :
  path g = game_path -> spaced (sites g) -> spaced (sites (place_tower x y g)).
Proof.
  intros Hp Hs. unfold place_tower. destruct (money g >=? TOWER_COST); [|exact Hs].
  cbn [andb]. unfold can_place_tower. rewrite Hp, existsb_near_sites.
  destruct (existsb (near_waypoint x y) game_path) eqn:E1; [exact Hs|].
  destruct (existsb (near_site x y) (site <$> towers g)) eqn:E2; [exact Hs|].
  destruct (y >? SCREEN_HEIGHT - 100) eqn:E3; [exact Hs|].
  unfold sites. cbn [towers set_placing_tower set_money set_towers].
  rewrite fmap_app. apply spaced_snoc; [exact Hs|]. repeat split; assumption.
Qed.

Lemma sites_upgrade_tower (i : nat) (g : Game) : sites (upgrade_tower i g) = sites g.
Proof.
  unfold upgrade_tower, sites. destruct (towers g !! i) as [t|] eqn:Ei; [|reflexivity].
  destruct (_ && _); [|reflexivity]. cbn [towers set_money set_towers].
  apply (insert_fmap_same site i t); [exact Ei | apply site_upgrade].
Qed.

Lemma sites_update (g : Game) : sites (update g) = sites g.
Proof. apply update_fmap. intros. apply site_shoot. Qed.

Lemma spaced_handle_game_click (sh : Shuffle) (pos : Z * Z) (button : Z) (g : Game) :
  path g = game_path -> spaced (sites g) ->
  spaced (sites (handle_game_click sh pos button g)).
Proof.
  intros Hp Hs. unfold handle_game_click. destruct pos as [x y].
  pose proof (spaced_place_tower x y g Hp Hs).
  repeat match goal with
         | |- spaced (sites (if ?c then _ else _)) => destruct c
         | |- spaced (sites (match ?o with Some _ => _ | None => _ end)) => destruct o
         end; auto; now rewrite sites_upgrade_tower.
Qed.

Lemma reachable_spaced (g : Game) : reachable g -> spaced (sites g).
Proof.
  induction 1 as [|g H IH|g H IH|x y g H IH|i g H IH|sh g H IH].
  - apply spaced_nil.
  - apply spaced_nil.
  - now rewrite sites_update.
  - apply spaced_place_tower; [apply (reachable_sound g H) | exact IH].
  - now rewrite sites_upgrade_tower.
  - exact IH.
Qed.

Lemma played_spaced (g : Game) : played g -> spaced (sites g).
Proof.
  induction 1 as [|ev g H IH|g H IH].
  - apply spaced_nil.
  - pose proof (played_sound g H) as (Hp & _).
    destruct ev as [|pos button sh|pos]; cbn [handle_event]; auto.
    unfold handle_menu_click, handle_end_screen_click.
    destruct (state g); try destruct (on_button _ _ _); auto using spaced_nil.
    now apply spaced_handle_game_click.
  - now rewrite sites_update.
Qed.

Lemma either_spaced (g : Game) : reachable g \/ played g -> spaced (sites g).
Proof. intros [H|H]; [now apply reachable_spaced | now apply played_spaced]. Qed.

Lemma existsb_false_lookup {A : Type} (f : A -> bool) (l : list A) (k : nat) (a : A) :
  existsb f l = false -> l !! k = Some a -> f a = false.
Proof.
  revert k. induction l as [|b l IH]; intros k; [discriminate|].
  cbn [existsb]. intros [Hb Hl]%orb_false_iff. destruct k as [|k]; cbn.
  - now intros [= <-].
  - now apply IH.
Qed.

Lemma sqrt_le_15_checked : all_from (sqrt_le_exact 15) 21 0 = true.
Proof. vm_compute. reflexivity. Qed.

Lemma sq_dist_nonneg (x y px py : Z) : 0 <= sq_dist x y px py.
Proof. unfold sq_dist. nia. Qed.

Lemma sq_dist_sym (x y px py : Z) : sq_dist x y px py = sq_dist px py x y.
Proof. unfold sq_dist. ring. Qed.

(** The triangle inequality, on squares. *)
Lemma sq_dist_triangle (x y ax ay bx b_y : Z) :
  sq_dist ax ay bx b_y <= 2 * (sq_dist x y ax ay + sq_dist x y bx b_y).
Proof.
  unfold sq_dist. rewrite !Z.pow_2_r.
  pose proof (Z.square_nonneg (ax + bx - 2 * x)).
  pose proof (Z.square_nonneg (ay + b_y - 2 * y)). nia.
Qed.

Lemma near_site_far (x y : Z) (s : Z * Z) :
  near_site x y s = false -> 2500 <= sq_dist x y (fst s) (snd s).
Proof.
  intros H. pose proof (sq_dist_nonneg x y (fst s) (snd s)) as H0.
  destruct (Z.lt_ge_cases (sq_dist x y (fst s) (snd s)) (2 ^ 21)) as [Hlt|Hge];
    [|change (2 ^ 21) with 2097152 in Hge; lia].
  assert (Hc := all_from_spec _ 21 0 (sq_dist x y (fst s) (snd s)) sqrt_lt_50_checked).
  unfold sqrt_lt_exact in Hc. apply Bool.eqb_prop in Hc; [|change (Z.of_nat 21) with 21; lia].
  assert (He : near_site x y s = (sq_dist x y (fst s) (snd s) <? 50 * 50)) by exact Hc.
  rewrite He in H. apply Z.ltb_ge in H. exact H.
Qed.

Lemma near_waypoint_far (x y : Z) (p : Z * Z) :
  near_waypoint x y p = false -> 1600 <= sq_dist x y (fst p) (snd p).
Proof.
  intros H. pose proof (sq_dist_nonneg x y (fst p) (snd p)) as H0.
  destruct (Z.lt_ge_cases (sq_dist x y (fst p) (snd p)) (2 ^ 21)) as [Hlt|Hge];
    [|change (2 ^ 21) with 2097152 in Hge; lia].
  rewrite (near_waypoint_exact x y p Hlt) in H. apply Z.ltb_ge in H. exact H.
Qed.

Lemma within_radius_exact (x y : Z) (t : Tower) :
  sq_dist x y (t_x t) (t_y t) < 2 ^ 21 ->
  PrimFloat.leb (int_distance x y (t_x t) (t_y t)) 15%float
  = (sq_dist x y (t_x t) (t_y t) <=? 225).
Proof.
  intros Hlt. pose proof (sq_dist_nonneg x y (t_x t) (t_y t)) as H0.
  assert (Hc := all_from_spec _ 21 0 (sq_dist x y (t_x t) (t_y t)) sqrt_le_15_checked).
  unfold sqrt_le_exact in Hc. apply Bool.eqb_prop in Hc; [|change (Z.of_nat 21) with 21; lia].
  exact Hc.
Qed.

(** Two towers of a spaced field: the later one is not near the
    earlier one. *)
Lemma spaced_pair (g : Game) (i j : nat) (ti tj : Tower) :
  spaced (sites g) -> (i < j)%nat ->
  towers g !! i = Some ti -> towers g !! j = Some tj ->
  near_site (t_x tj) (t_y tj) (site ti) = false.
Proof.
  intros Hs Hij Hi Hj.
  destruct (Hs j (site tj)) as (_ & H & _).
  { unfold sites. now rewrite list_lookup_fmap, Hj. }
  apply (existsb_false_lookup _ _ i _ H).
  rewrite lookup_take_lt by exact Hij. unfold sites. now rewrite list_lookup_fmap, Hi.
Qed.

Lemma tower_at_first (x y : Z) (k i : nat) (t : Tower) (ts : list Tower) :
  ts !! i = Some t ->
  PrimFloat.leb (int_distance x y (t_x t) (t_y t)) 15%float = true ->
  (forall j t', (j < i)%nat -> ts !! j = Some t' ->
     PrimFloat.leb (int_distance x y (t_x t') (t_y t')) 15%float = false) ->
  tower_at x y k ts = Some (k + i)%nat.
Proof.
  revert k i. induction ts as [|t0 ts IH]; intros k i Hi Hin Hbefore; [discriminate|].
  cbn [tower_at]. destruct i as [|i].
  - injection Hi as ->. rewrite Hin. f_equal. lia.
  - rewrite (Hbefore 0%nat t0) by (reflexivity || lia).
    rewrite (IH (S k) i); [f_equal; lia | exact Hi | exact Hin |].
    intros j t' Hj Ht'. apply (Hbefore (S j)); [lia | exact Ht'].
Qed.

Lemma tower_at_Some (x y : Z) (k n : nat) (ts : list Tower) :
  tower_at x y k ts = Some n ->
  exists i t, n = (k + i)%nat /\ ts !! i = Some t
              /\ PrimFloat.leb (int_distance x y (t_x t) (t_y t)) 15%float = true.
Proof.
  revert k. induction ts as [|t0 ts IH]; intros k; [discriminate|].
  cbn [tower_at]. destruct (PrimFloat.leb _ _) eqn:E.
  - intros [= <-]. exists 0%nat, t0. repeat split; auto; lia.
  - intros H. destruct (IH _ H) as (i & t & -> & Hi & Hin).
    exists (S i), t. repeat split; auto; lia.
Qed.

(** X10: in every state of a session or of the main loop any two
    towers are at least 50 apart, every tower is at least 40 away from
    every waypoint of the path, and no tower stands in the panel at
    the bottom of the screen (its y is at most 600); in integers, on
    the squares of the distances. *)
Theorem towers_apart (g : Game) :
  reachable g \/ played g ->
  (forall i j ti tj, i <> j -> towers g !! i = Some ti -> towers g !! j = Some tj ->
     2500 <= sq_dist (t_x ti) (t_y ti) (t_x tj) (t_y tj))
  /\ (forall j tj, towers g !! j = Some tj ->
        t_y tj <= SCREEN_HEIGHT - 100
        /\ forall p, p ∈ game_path ->
             1600 <= sq_dist (t_x tj) (t_y tj) (fst p) (snd p)).
Proof.
  intros Hs%either_spaced. split.
  - assert (Hlt : forall i j ti tj, (i < j)%nat ->
              towers g !! i = Some ti -> towers g !! j = Some tj ->
              2500 <= sq_dist (t_x tj) (t_y tj) (t_x ti) (t_y ti)).
    { intros i j ti tj Hij Hi Hj.
      apply (near_site_far _ _ (site ti)). now apply (spaced_pair g i j). }
    intros i j ti tj Hne Hi Hj. destruct (Nat.lt_total i j) as [H|[H|H]]; [|lia|].
    + rewrite sq_dist_sym. now apply (Hlt i j).
    + now apply (Hlt j i).
  - intros j tj Hj. destruct (Hs j (site tj)) as (Hw & _ & Hy).
    { unfold sites. now rewrite list_lookup_fmap, Hj. }
    cbn [site fst snd] in Hw, Hy. split.
    + destruct (Z.gtb_spec (t_y tj) (SCREEN_HEIGHT - 100)); [discriminate | lia].
    + intros p [k Hk]%list_elem_of_lookup. apply near_waypoint_far.
      exact (existsb_false_lookup _ _ k p Hw Hk).
Qed.

Lemma winning_game_sites :
  sites winning_game = [(300, 300); (500, 300); (700, 400); (300, 350); (500, 250)].
Proof. vm_compute. reflexivity. Qed.

Lemma towers_apart_witness :
  played winning_game
  /\ sites winning_game = [(300, 300); (500, 300); (700, 400); (300, 350); (500, 250)]
  /\ forall ti tj, towers winning_game !! 0%nat = Some ti ->
       towers winning_game !! 3%nat = Some tj ->
       2500 <= sq_dist (t_x ti) (t_y ti) (t_x tj) (t_y tj).
Proof.
  split; [exact winning_game_played|]. split; [exact winning_game_sites|].
  destruct (towers_apart winning_game (or_intror winning_game_played)) as [H _].
  intros ti tj. apply (H 0%nat 3%nat). discriminate.
Defined.

(** X11: in every state of a session or of the main loop
    [get_tower_at_pos] at the centre of a tower returns that tower; at
    a point of the screen (squares of distances below 2^21) it returns
    tower [i] exactly when the point is within 15 of tower [i], which
    holds of one tower at most; and a click at the centre of a tower,
    other than a right click and while no tower is being placed,
    selects it. *)
Theorem click_selects_tower (g : Game) :
  reachable g \/ played g ->
  (forall i t, towers g !! i = Some t ->
     get_tower_at_pos g (t_x t) (t_y t) = Some i)
  /\ (forall x y,
        Forall (fun s => sq_dist x y (fst s) (snd s) < 2 ^ 21) (sites g) ->
        forall i, get_tower_at_pos g x y = Some i
                  <-> exists t, towers g !! i = Some t
                                /\ sq_dist x y (t_x t) (t_y t) <= 225)
  /\ (forall sh button i t,
        towers g !! i = Some t -> placing_tower g = false -> button <> 3 ->
        selected_tower (handle_game_click sh (t_x t, t_y t) button g) = Some i).
Proof.
  intros Hor. pose proof (either_spaced g Hor) as Hs.
  assert (Hcentre : forall i t, towers g !! i = Some t ->
            get_tower_at_pos g (t_x t) (t_y t) = Some i).
  { intros i t Hi. apply (tower_at_first _ _ 0 i t); [exact Hi| |].
    - unfold int_distance. rewrite !Z.sub_diag. vm_compute. reflexivity.
    - intros j t' Hj Ht'.
      pose proof (spaced_pair g j i t' t Hs Hj Ht' Hi) as Hfar.
      unfold near_site in Hfar. cbn [site fst snd] in Hfar.
      destruct (PrimFloat.leb _ 15%float) eqn:E; [|reflexivity].
      rewrite (leb_ltb_trans _ 15%float 50%float E) in Hfar;
        [discriminate | vm_compute; reflexivity]. }
  split; [exact Hcentre|]. split.
  - intros x y Hscreen.
    assert (Hexact : forall i t, towers g !! i = Some t ->
              PrimFloat.leb (int_distance x y (t_x t) (t_y t)) 15%float
              = (sq_dist x y (t_x t) (t_y t) <=? 225)).
    { intros i t Hi. apply within_radius_exact.
      apply (Forall_lookup_1 _ _ i (site t) Hscreen).
      unfold sites. now rewrite list_lookup_fmap, Hi. }
    intros i. split.
    + intros H. apply tower_at_Some in H as (k & t & -> & Hk & Hin).
      exists t. split; [exact Hk|]. rewrite (Hexact k t Hk) in Hin. now apply Z.leb_le.
    + intros (t & Hi & Hin). apply (tower_at_first _ _ 0 i t); [exact Hi| |].
      * rewrite (Hexact i t Hi). now apply Z.leb_le.
      * intros j t' Hj Ht'. rewrite (Hexact j t' Ht'). apply Z.leb_gt.
        pose proof (spaced_pair g j i t' t Hs Hj Ht' Hi) as Hfar%near_site_far.
        cbn [site fst snd] in Hfar.
        pose proof (sq_dist_triangle x y (t_x t) (t_y t) (t_x t') (t_y t')). lia.
  - intros sh button i t Hi Hplacing Hbutton. unfold handle_game_click.
    destruct (Z.eqb_spec button 3) as [|_]; [contradiction|].
    destruct (Hs i (site t)) as (_ & _ & Hy).
    { unfold sites. now rewrite list_lookup_fmap, Hi. }
    cbn [site snd] in Hy. rewrite Hy, Hplacing. cbn. now apply Hcentre.
Qed.

Lemma winning_game_click : get_tower_at_pos winning_game 310 305 = Some 0%nat.
Proof. vm_compute. reflexivity. Qed.

Lemma click_selects_tower_witness :
  played winning_game
  /\ Forall (fun s => sq_dist 310 305 (fst s) (snd s) < 2 ^ 21) (sites winning_game)
  /\ exists t, towers winning_game !! 0%nat = Some t
               /\ sq_dist 310 305 (t_x t) (t_y t) <= 225.
Proof.
  split; [exact winning_game_played|].
  assert (Hscreen : Forall (fun s => sq_dist 310 305 (fst s) (snd s) < 2 ^ 21)
                      (sites winning_game)).
  { rewrite winning_game_sites. repeat constructor. }
  split; [exact Hscreen|].
  destruct (click_selects_tower winning_game (or_intror winning_game_played))
    as (_ & H & _).
  apply (H 310 305 Hscreen 0%nat). exact winning_game_click.
Defined.

(** ** Money *)

Lemma sum_Z_app (l1 l2 : list Z) : sum_Z (l1 ++ l2) = sum_Z l1 + sum_Z l2.
Proof. unfold sum_Z. induction l1 as [|a l1 IH]; cbn; lia. Qed.

Lemma sum_Z_insert (l : list Z) (i : nat) (a b : Z) :
  l !! i = Some a -> sum_Z (<[i := b]> l) = sum_Z l - a + b.
Proof.
  unfold sum_Z. revert i. induction l as [|c l IH]; intros i; [discriminate|].
  destruct i as [|i].
  - intros [= ->]. cbn. lia.
  - intros H. change (<[S i := b]> (c :: l)) with (c :: <[i := b]> l).
    cbn [fold_right]. rewrite (IH i H). lia.
Qed.

Lemma cost_shoot (f : Z) (tg : option nat) (t : Tower) :
  cost (fst (shoot f (set_target tg t))) = cost t.
Proof. unfold cost. now rewrite level_shoot. Qed.

Lemma spent_update (g : Game) : spent (update g) = spent g.
Proof. unfold spent. f_equal. apply update_fmap. intros. apply cost_shoot. Qed.

Lemma update_current_wave (g : Game) : current_wave (update g) = current_wave g.
Proof.
  destruct (state g) eqn:Es; try (now rewrite update_not_playing by congruence).
  now destruct (update_stage g Es) as [H _].
Qed.

Lemma thrifty_new : thrifty new_Game.
Proof. unfold thrifty, heap_ok. cbn. repeat split; try constructor; cbv; congruence. Qed.

Lemma thrifty_reset (g : Game) : thrifty g -> thrifty (reset_game g).
Proof.
  intros (Hh & _). unfold thrifty. cbn. repeat split; auto; cbv; congruence.
Qed.

Lemma thrifty_update (g : Game) : thrifty g -> thrifty (update g).
Proof.
  intros (Hh & Hc & Hm & Hw). destruct (update_frame g) as (_ & H & _).
  destruct (H Hh) as [Hh' Hmono]. unfold thrifty, bonus in *.
  rewrite spent_update, update_current_wave. repeat split; auto; lia.
Qed.

Lemma thrifty_place_tower (x y : Z) (g : Game) : thrifty g -> thrifty (place_tower x y g).
Proof.
  intros Hg. pose proof Hg as (Hh & Hc & Hm & Hw). unfold place_tower.
  destruct (Z.geb_spec (money g) TOWER_COST) as [Hge|]; [|exact Hg].
  cbn [andb]. destruct (can_place_tower g x y); [|exact Hg].
  unfold thrifty, bonus, spent in *.
  cbn [heap money towers current_wave set_placing_tower set_money set_towers].
  rewrite fmap_app, sum_Z_app.
  change (sum_Z (cost <$> [new_Tower x y TowerType.BASIC])) with 100.
  unfold TOWER_COST in *. repeat split; auto; lia.
Qed.

Lemma thrifty_upgrade_tower (i : nat) (g : Game) : thrifty g -> thrifty (upgrade_tower i g).
Proof.
  intros Hg. pose proof Hg as (Hh & Hc & Hm & Hw). unfold upgrade_tower.
  destruct (towers g !! i) as [t|] eqn:Ei; [|exact Hg].
  destruct (Z.geb_spec (money g) UPGRADE_COST) as [Hge|]; [|exact Hg].
  cbn [andb]. unfold can_upgrade. destruct (Z.ltb_spec (level t) 3) as [Hl|]; [|exact Hg].
  unfold thrifty, bonus, spent in *.
  cbn [heap money towers current_wave set_money set_towers].
  rewrite list_fmap_insert, (sum_Z_insert _ i (cost t))
    by now rewrite list_lookup_fmap, Ei.
  assert (Hcost : cost (upgrade t) = cost t + 150).
  { unfold cost, upgrade, UPGRADE_COST.
    destruct (Z.ltb_spec (level t) 3); [cbn [level]; lia | lia]. }
  rewrite Hcost. unfold UPGRADE_COST in *. repeat split; auto; lia.
Qed.

Lemma thrifty_start_next_wave (sh : Shuffle) (g : Game) :
  thrifty g -> thrifty (start_next_wave sh g).
Proof.
  intros (Hh & Hc & Hm & Hw). unfold thrifty, bonus, spent, start_next_wave in *.
  cbn [heap money towers current_wave].
  destruct (Z.gtb_spec (current_wave g + 1) 1); repeat split; auto; lia.
Qed.

Lemma thrifty_frame (g g' : Game) :
  heap g' = heap g -> current_wave g' = current_wave g -> money g' = money g ->
  towers g' = towers g -> thrifty g -> thrifty g'.
Proof. unfold thrifty, bonus, spent. now intros -> -> -> ->. Qed.

Lemma thrifty_handle_game_click (sh : Shuffle) (pos : Z * Z) (button : Z) (g : Game) :
  thrifty g -> thrifty (handle_game_click sh pos button g).
Proof.
  intros Hg. unfold handle_game_click. destruct pos as [x y].
  repeat match goal with
         | |- thrifty (if ?c then _ else _) => destruct c
         | |- thrifty (match ?o with Some _ => _ | None => _ end) => destruct o
         end;
    auto using thrifty_start_next_wave, thrifty_place_tower, thrifty_upgrade_tower;
    now apply (thrifty_frame g).
Qed.

Lemma reachable_thrifty (g : Game) : reachable g -> thrifty g.
Proof.
  induction 1;
    auto using thrifty_new, thrifty_reset, thrifty_update, thrifty_place_tower,
      thrifty_upgrade_tower, thrifty_start_next_wave.
Qed.

Lemma played_thrifty (g : Game) : played g -> thrifty g.
Proof.
  induction 1 as [|ev g H IH|g H IH]; auto using thrifty_new, thrifty_update.
  destruct ev as [|pos button sh|pos]; cbn [handle_event]; auto.
  unfold handle_menu_click, handle_end_screen_click.
  destruct (state g); try destruct (on_button _ _ _);
    auto using thrifty_reset, thrifty_handle_game_click.
Qed.

(** X12: in every state of a session or of the main loop the money is
    not negative, and together with what the towers on the field have
    cost (100 each, and 150 for each level above the first) it is at
    least the 500 of the start and the 50 given with each wave after
    the first: money is only ever spent on towers and upgrades, at
    their price. *)
Theorem money_is_spent_on_towers (g : Game) :
  reachable g \/ played g ->
  0 <= money g
  /\ STARTING_MONEY + 50 * Z.max 0 (current_wave g - 1)
     <= money g + sum_Z ((fun t => TOWER_COST + UPGRADE_COST * (level t - 1)) <$> towers g).
Proof.
  intros H. assert (Ht : thrifty g).
  { destruct H; [now apply reachable_thrifty | now apply played_thrifty]. }
  destruct Ht as (_ & _ & Hm & Hw). split; [exact Hm | exact Hw].
Qed.

Lemma money_is_spent_on_towers_witness :
  played winning_game
  /\ 0 <= money winning_game
  /\ STARTING_MONEY + 50 * Z.max 0 (current_wave winning_game - 1)
     <= money winning_game
        + sum_Z ((fun t => TOWER_COST + UPGRADE_COST * (level t - 1))
                   <$> towers winning_game).
Proof.
  split; [exact winning_game_played|].
  exact (money_is_spent_on_towers winning_game (or_intror winning_game_played)).
Defined.

(** ** Clicks and frames *)

Ltac click_done :=
  repeat split; auto; try lia; try discriminate; try congruence;
  try (intros; contradiction); try (intros; congruence);
  try match goal with
      | H : wave_active ?g = true -> _, H' : wave_active ?g = true |- _ =>
          destruct (H H') as (? & ? & ? & ?); auto
      end.

(** X13: a click during play leaves the state, the lives, the enemies,
    the projectiles, the frame counter and the path alone; every tower
    stays where it is in the list, as it is or upgraded by one level if
    it is the selected one, and at most one tower is added, at the end;
    the click takes at most 150 and gives at most 50; it leaves the
    wave, its number and [wave_active] alone unless no wave is active
    and the click starts the next one; while a wave is active it gives
    no money; a right click does nothing but clear the selection and
    the placing mode. *)
Theorem game_click_effects (sh : Shuffle) (pos : Z * Z) (button : Z) (g : Game) :
  let g' := handle_game_click sh pos button g in
  state g' = state g /\ lives g' = lives g
  /\ enemies g' = enemies g /\ heap g' = heap g
  /\ projectiles g' = projectiles g /\ frame_count g' = frame_count g
  /\ path g' = path g
  /\ (length (towers g) <= length (towers g') <= length (towers g) + 1)%nat
  /\ money g - 150 <= money g' <= money g + 50
  /\ (wave_active g = true ->
      wave g' = wave g /\ current_wave g' = current_wave g
      /\ wave_active g' = true /\ money g' <= money g)
  /\ (button = 3 ->
      towers g' = towers g /\ money g' = money g /\ wave g' = wave g
      /\ selected_tower g' = None /\ placing_tower g' = false)
  /\ (button = 3 -> g' = set_placing_tower false (set_selected_tower None g))
  /\ ((wave g' = wave g /\ current_wave g' = current_wave g
       /\ wave_active g' = wave_active g)
      \/ (wave_active g = false /\ g' = start_next_wave sh g))
  /\ (towers g' = towers g
      \/ towers g' = towers g ++ [new_Tower (fst pos) (snd pos) TowerType.BASIC]
      \/ exists i t, selected_tower g = Some i /\ towers g !! i = Some t
                     /\ level t < 3
                     /\ towers g' = <[i := upgrade t]> (towers g)).
Proof.
  unfold handle_game_click. destruct pos as [x y]. cbn [fst snd].
  destruct (Z.eqb_spec button 3) as [Hb|Hb].
  { cbn. repeat split; auto; lia. }
  assert (Hplace : let g' := place_tower x y g in
            state g' = state g /\ lives g' = lives g
            /\ enemies g' = enemies g /\ heap g' = heap g
            /\ projectiles g' = projectiles g /\ frame_count g' = frame_count g
            /\ path g' = path g
            /\ (length (towers g) <= length (towers g') <= length (towers g) + 1)%nat
            /\ money g - 150 <= money g' <= money g + 50
            /\ (wave g' = wave g /\ current_wave g' = current_wave g
                /\ wave_active g' = wave_active g /\ money g' <= money g)
            /\ (towers g' = towers g
                \/ towers g' = towers g ++ [new_Tower x y TowerType.BASIC])).
  { unfold place_tower, TOWER_COST. destruct (_ && _); cbn;
      rewrite ?length_app; cbn; repeat split; auto; lia. }
  assert (Hup : forall i t, towers g !! i = Some t -> can_upgrade t = true ->
            let g' := upgrade_tower i g in
            state g' = state g /\ lives g' = lives g
            /\ enemies g' = enemies g /\ heap g' = heap g
            /\ projectiles g' = projectiles g /\ frame_count g' = frame_count g
            /\ path g' = path g
            /\ (length (towers g) <= length (towers g') <= length (towers g) + 1)%nat
            /\ money g - 150 <= money g' <= money g + 50
            /\ (wave g' = wave g /\ current_wave g' = current_wave g
                /\ wave_active g' = wave_active g /\ money g' <= money g)
            /\ (towers g' = towers g
                \/ (level t < 3 /\ towers g' = <[i := upgrade t]> (towers g)))).
  { intros i t Hi Hc. unfold upgrade_tower, UPGRADE_COST. rewrite Hi, Hc.
    unfold can_upgrade in Hc. apply Z.ltb_lt in Hc.
    destruct (_ >=? _); cbn; rewrite ?length_insert; repeat split; auto; lia. }
  cbv zeta in *.
  destruct (y >? SCREEN_HEIGHT - 100).
  - destruct (_ && _).
    { destruct (wave_active g) eqn:Ea; cbn [negb].
      - click_done.
      - unfold start_next_wave. cbn. destruct (_ >? 1); click_done. }
    destruct (_ && _).
    { destruct (_ >=? _); cbn; click_done. }
    destruct (_ && _).
    2: { click_done. }
    destruct (selected_tower g) as [i|] eqn:Es.
    2: { click_done. }
    destruct (towers g !! i) as [t|] eqn:Ei.
    2: { click_done. }
    destruct (can_upgrade t) eqn:Ec.
    2: { click_done. }
    destruct (Hup i t Ei Ec) as (? & ? & ? & ? & ? & ? & ? & ? & ? & (? & ? & ? & ?) & Ht).
    repeat split; auto; try lia; try congruence.
    destruct Ht as [Ht|[Hl Ht]]; [now left|].
    right. right. exists i, t. auto.
  - destruct (placing_tower g).
    + destruct Hplace as (? & ? & ? & ? & ? & ? & ? & ? & ? & (? & ? & ? & ?) & Ht).
      repeat split; auto; try lia; try congruence.
      destruct Ht as [Ht|Ht]; auto.
    + cbn. click_done.
Qed.

Lemma run_quit (f1 f2 : list (list Event)) (g : Game) :
  existsb (existsb is_quit) f1 = true -> run (f1 ++ f2) g = run f1 g.
Proof.
  revert g. induction f1 as [|evs f1 IH]; intros g; [discriminate|].
  cbn [existsb app run]. destruct (existsb is_quit evs); [reflexivity|].
  cbn [orb]. apply IH.
Qed.

(** X14: [run] on the frames [f1] then [f2] is [run] on [f2] from where
    [run] on [f1] ends, unless a frame of [f1] holds QUIT, in which
    case [f2] is never looked at; the frame that holds QUIT is still
    updated; and [n] frames without events are [n] ticks. *)
Theorem run_frames (f1 f2 : list (list Event)) (g : Game) :
  run (f1 ++ f2) g
  = (if existsb (existsb is_quit) f1 then run f1 g else run f2 (run f1 g))
  /\ (forall evs, existsb is_quit evs = true ->
        run (evs :: f2) g = update (handle_events evs g))
  /\ (forall n, run (repeat [] n) g = ticks n g).
Proof.
  split; [|split].
  - destruct (existsb (existsb is_quit) f1) eqn:E; [now apply run_quit|].
    revert g E. induction f1 as [|evs f1 IH]; intros g E; [reflexivity|].
    cbn [existsb] in E. apply orb_false_iff in E as [E1 E2].
    cbn [app run]. rewrite E1. now apply IH.
  - intros evs E. cbn [run]. now rewrite E.
  - intros n. revert g. induction n as [|n IH]; intros g; [reflexivity|].
    cbn [repeat run ticks existsb handle_events]. apply IH.
Qed.

Lemma existsb_forallb {A : Type} (f h : A -> bool) (l : list A) :
  Forall (fun a => f a = negb (h a)) l -> existsb f l = negb (forallb h l).
Proof.
  induction 1 as [|a l Ha Hl IH]; cbn; [reflexivity|].
  rewrite Ha, IH. now destruct (h a), (forallb h l).
Qed.

(** X15: on the screen (squares of distances below 2^21)
    [can_place_tower] is a test on integers: every waypoint is at least
    40 away, every tower at least 50, and the point is not in the
    panel; the rounding of the square roots never matters. *)
Theorem can_place_tower_exact (g : Game) (x y : Z) :
  Forall (fun p => sq_dist x y (fst p) (snd p) < 2 ^ 21) (path g) ->
  Forall (fun t => sq_dist x y (t_x t) (t_y t) < 2 ^ 21) (towers g) ->
  can_place_tower g x y
  = forallb (fun p => 1600 <=? sq_dist x y (fst p) (snd p)) (path g)
    && forallb (fun t => 2500 <=? sq_dist x y (t_x t) (t_y t)) (towers g)
    && (y <=? SCREEN_HEIGHT - 100).
Proof.
  intros Hp Ht. unfold can_place_tower.
  rewrite (existsb_forallb (near_waypoint x y)
             (fun p => 1600 <=? sq_dist x y (fst p) (snd p))).
  2: { eapply Forall_impl; [exact Hp|]. intros p H. cbn beta in *.
       rewrite (near_waypoint_exact x y p H). fold (sq_dist x y (fst p) (snd p)).
       rewrite Z.leb_antisym, negb_involutive. reflexivity. }
  rewrite (existsb_forallb (near_tower x y)
             (fun t => 2500 <=? sq_dist x y (t_x t) (t_y t))).
  2: { eapply Forall_impl; [exact Ht|]. intros t H. cbn beta in *.
       rewrite (near_tower_exact x y t H). fold (sq_dist x y (t_x t) (t_y t)).
       rewrite Z.leb_antisym, negb_involutive. reflexivity. }
  rewrite Z.gtb_ltb, Z.ltb_antisym.
  destruct (forallb _ (path g)), (forallb _ (towers g)), (y <=? _); reflexivity.
Qed.

Lemma can_place_tower_exact_witness :
  let g := reset_game new_Game in
  can_place_tower g 100 200
  = forallb (fun p => 1600 <=? sq_dist 100 200 (fst p) (snd p)) (path g)
    && forallb (fun t => 2500 <=? sq_dist 100 200 (t_x t) (t_y t)) (towers g)
    && (200 <=? SCREEN_HEIGHT - 100).
Proof.
  intros g. apply (can_place_tower_exact g 100 200).
  - repeat constructor.
  - constructor.
Defined.

(** * The game on its screen and through its main loop *)

(** ** Money and lives through the main loop *)




(** ** Exactness on the screen *)

Lemma feq_eq (a b : float) : feq a b = true -> a = b.
Proof. apply FloatAxioms.Leibniz.eqb_spec. Qed.

Lemma all_pairs_spec (P : Z -> Z -> bool) (depth : nat) (lo a b : Z) :
  all_pairs P depth lo = true ->
  lo <= a < lo + 2 ^ Z.of_nat depth -> lo <= b < lo + 2 ^ Z.of_nat depth ->
  P a b = true.
Proof.
  intros H Ha Hb. unfold all_pairs in H.
  apply (all_from_spec (P a) depth lo b); [|exact Hb].
  exact (all_from_spec _ depth lo a H Ha).
Qed.

Lemma sub_exact_checked : all_pairs sub_exact 10 0 = true.
Proof. vm_compute. reflexivity. Qed.

Lemma leb_exact_checked : all_pairs leb_exact 10 0 = true.
Proof. vm_compute. reflexivity. Qed.

Lemma hypot_axis_exact_checked : all_from hypot_axis_exact 11 (-1024) = true.
Proof. vm_compute. reflexivity. Qed.

Lemma unit_step_exact_checked : all_from unit_step_exact 11 (-1024) = true.
Proof. vm_compute. reflexivity. Qed.

Lemma step_add_exact_checked : all_from step_add_exact 10 0 = true.
Proof. vm_compute. reflexivity. Qed.

Lemma speed_leb_exact_checked : all_from speed_leb_exact 10 0 = true.
Proof. vm_compute. reflexivity. Qed.

(** ** Walking a path of the screen, on integers *)

Lemma screen_path_parts (p : Path) :
  screen_path p = true ->
  (2 <= length p)%nat /\ forallb on_screen p = true /\ rectilinear p = true.
Proof.
  unfold screen_path. intros [[H1 H2]%andb_true_iff H3]%andb_true_iff.
  apply Nat.leb_le in H1. auto.
Qed.

Lemma waypoint_on_screen (p : Path) (i : nat) :
  forallb on_screen p = true -> (i < length p)%nat ->
  0 <= fst (waypoint p i) <= 1023 /\ 0 <= snd (waypoint p i) <= 1023.
Proof.
  intros H Hi. rewrite forallb_forall in H.
  specialize (H (waypoint p i) (nth_In p (0, 0) Hi)). unfold on_screen in H.
  apply andb_true_iff in H as [[[H1 H2]%andb_true_iff H3]%andb_true_iff H4]. lia.
Qed.

Lemma rectilinear_at (p : Path) (i : nat) :
  rectilinear p = true -> (i + 1 < length p)%nat ->
  fst (waypoint p i) = fst (waypoint p (i + 1))
  \/ snd (waypoint p i) = snd (waypoint p (i + 1)).
Proof.
  revert i. induction p as [|a p IH]; intros i; cbn [length]; [lia|].
  destruct p as [|b p]; cbn [length]; [lia|].
  cbn [rectilinear]. intros [H1 H2]%andb_true_iff Hi. destruct i as [|i].
  - cbn. apply orb_true_iff in H1 as [H1|H1]; lia.
  - replace (S i + 1)%nat with (S (i + 1)) by lia.
    change (waypoint (a :: b :: p) (S i)) with (waypoint (b :: p) i).
    change (waypoint (a :: b :: p) (S (i + 1))) with (waypoint (b :: p) (i + 1)).
    apply IH; [exact H2 | cbn [length]; lia].
Qed.

Lemma drop_one (p : Path) (i : nat) :
  (i < length p)%nat -> drop i p = waypoint p i :: drop (i + 1) p.
Proof.
  revert i. induction p as [|a p IH]; intros i; cbn [length]; [lia|].
  destruct i as [|i]; [reflexivity|].
  intros Hi. cbn [drop Nat.add]. rewrite IH by lia. reflexivity.
Qed.

Lemma drop_last (p : Path) (i : nat) :
  (i + 1 = length p)%nat -> drop i p = [waypoint p i].
Proof.
  intros Hi. rewrite drop_one by lia. now rewrite drop_ge by lia.
Qed.

Lemma travel_drop (s : Z) (p : Path) (i : nat) :
  (i + 1 < length p)%nat ->
  travel s (drop i p)
  = seg_moves s (seg_len (waypoint p i) (waypoint p (i + 1)))
    + travel s (drop (i + 1) p).
Proof.
  intros Hi. rewrite (drop_one p i), (drop_one p (i + 1)) by lia. reflexivity.
Qed.

Lemma travel_drop_last (s : Z) (p : Path) (i : nat) :
  (i + 1 = length p)%nat -> travel s (drop i p) = 0.
Proof. intros Hi. now rewrite (drop_last p i Hi). Qed.

Lemma seg_moves_pos (s L : Z) : 1 <= seg_moves s L.
Proof. unfold seg_moves. lia. Qed.

Lemma seg_moves_near (s L : Z) : 1 <= s -> 0 <= L <= s -> seg_moves s L = 1.
Proof.
  intros Hs HL. unfold seg_moves.
  assert ((L + s - 1) / s <= 1); [|lia].
  apply Z.lt_succ_r. apply Z.div_lt_upper_bound; lia.
Qed.

Lemma seg_moves_far (s L : Z) : 1 <= s -> s < L -> seg_moves s L = seg_moves s (L - s) + 1.
Proof.
  intros Hs HL. unfold seg_moves.
  replace (L + s - 1) with (L - s + s - 1 + 1 * s) by lia.
  rewrite Z.div_add by lia.
  assert (1 <= (L - s + s - 1) / s); [|lia].
  apply Z.div_le_lower_bound; lia.
Qed.

Lemma travel_nonneg (s : Z) (p : Path) : 0 <= travel s p.
Proof.
  induction p as [|a p IH]; cbn [travel]; [lia|].
  destruct p as [|b p]; [lia|]. pose proof (seg_moves_pos s (seg_len a b)). lia.
Qed.

Lemma sgn_step (a x t s : Z) :
  1 <= s -> s < Z.abs (t - x) -> Z.min a t <= x <= Z.max a t ->
  Z.abs (t - (x + Z.sgn (t - x) * s)) = Z.abs (t - x) - s
  /\ Z.min a t <= x + Z.sgn (t - x) * s <= Z.max a t.
Proof.
  intros Hs Hd Hbox.
  destruct (Z.sgn_spec (t - x)) as [[H ->]|[[H ->]|[H ->]]]; lia.
Qed.

Lemma sgn_still (x s : Z) : x + Z.sgn (x - x) * s = x.
Proof. rewrite Z.sub_diag. cbn. lia. Qed.

(** What a walker that has not reached the end knows. *)
Lemma walker_not_at_end (p : Path) (w : Walker) :
  screen_path p = true -> walker_ok p w ->
  (Z.of_nat (w_index w) >=? Z.of_nat (length p) - 1) = false ->
  let t := waypoint p (w_index w + 1) in
  let a := waypoint p (w_index w) in
  (w_index w + 1 < length p)%nat
  /\ in_box a t (w_x w) (w_y w)
  /\ (w_x w = fst t \/ w_y w = snd t)
  /\ (0 <= w_x w <= 1023 /\ 0 <= w_y w <= 1023)
  /\ (0 <= fst t <= 1023 /\ 0 <= snd t <= 1023).
Proof.
  intros (Hlen & Hscr & Hrect)%screen_path_parts [Hi Hbox] Hend t a.
  assert (Hlt : (w_index w + 1 < length p)%nat) by (rewrite Z.geb_leb in Hend; apply Z.leb_gt in Hend; lia).
  replace (Nat.min (w_index w) (length p - 2)) with (w_index w) in Hbox by lia.
  fold a t in Hbox.
  pose proof (waypoint_on_screen p (w_index w) Hscr ltac:(lia)) as Ha.
  pose proof (waypoint_on_screen p (w_index w + 1) Hscr Hlt) as Ht.
  pose proof (rectilinear_at p (w_index w) Hrect Hlt) as Hal.
  fold a in Ha, Hal. fold t in Ht, Hal. destruct Hbox as [Hbx Hby].
  repeat split; auto; lia.
Qed.

Lemma moves_left_walking (p : Path) (s : Z) (w : Walker) :
  (Z.of_nat (w_index w) >=? Z.of_nat (length p) - 1) = false ->
  moves_left p s w
  = seg_moves s (Z.abs (fst (waypoint p (w_index w + 1)) - w_x w)
                 + Z.abs (snd (waypoint p (w_index w + 1)) - w_y w))
    + travel s (drop (w_index w + 1) p).
Proof. intros H. unfold moves_left. now rewrite H. Qed.

Lemma moves_left_at_end (p : Path) (s : Z) (w : Walker) :
  (Z.of_nat (w_index w) >=? Z.of_nat (length p) - 1) = true -> moves_left p s w = 0.
Proof. intros H. unfold moves_left. now rewrite H. Qed.

(** One step: the walker stays on the path, one call fewer is left,
    and the end is reported when none is left. *)
Lemma walk_step_spec (p : Path) (s : Z) (w : Walker) :
  screen_path p = true -> 1 <= s -> walker_ok p w ->
  walker_ok p (fst (walk_step p s w))
  /\ moves_left p s (fst (walk_step p s w)) = Z.max 0 (moves_left p s w - 1)
  /\ snd (walk_step p s w) = (moves_left p s w <=? 1).
Proof.
  intros Hp Hs Hw. pose proof (walker_not_at_end p w Hp Hw) as Hfacts.
  pose proof (screen_path_parts p Hp) as (Hlen & _ & _).
  unfold walk_step.
  destruct (Z.of_nat (w_index w) >=? Z.of_nat (length p) - 1) eqn:Hend.
  { cbn [fst snd]. rewrite (moves_left_at_end p s w Hend).
    split; [exact Hw|]. split; reflexivity. }
  destruct (Hfacts eq_refl) as (Hlt & [Hbx Hby] & Hal & Hxy & Htxy). clear Hfacts.
  rewrite (moves_left_walking p s w Hend).
  destruct (waypoint p (w_index w + 1)) as [tx ty] eqn:Et. cbn [fst snd] in *.
  set (r := Z.abs (tx - w_x w) + Z.abs (ty - w_y w)).
  pose proof (travel_nonneg s (drop (w_index w + 1) p)) as Htr.
  destruct (Z.leb_spec r s) as [Hnear|Hfar].
  - rewrite (seg_moves_near s r) by (unfold r; lia).
    destruct (Z.of_nat (w_index w + 1) >=? Z.of_nat (length p) - 1) eqn:Hend1;
      cbn [fst snd].
    + assert (Hlast : (w_index w + 1 + 1 = length p)%nat)
        by (apply Z.geb_le in Hend1; lia).
      rewrite moves_left_at_end by exact Hend1.
      rewrite (travel_drop_last s p _ Hlast). split; [|split; reflexivity].
      split; [cbn; lia|]. cbn [w_index w_x w_y].
      replace (Nat.min (w_index w + 1) (length p - 2)) with (w_index w) by lia.
      rewrite Et. split; assumption.
    + assert (Hlt1 : (w_index w + 1 + 1 < length p)%nat)
        by (rewrite Z.geb_leb in Hend1; apply Z.leb_gt in Hend1; lia).
      rewrite moves_left_walking by exact Hend1. cbn [w_index w_x w_y].
      rewrite (travel_drop s p (w_index w + 1) Hlt1), Et.
      unfold seg_len. cbn [fst snd].
      pose proof (seg_moves_pos s
                    (Z.abs (fst (waypoint p (w_index w + 1 + 1)) - tx)
                     + Z.abs (snd (waypoint p (w_index w + 1 + 1)) - ty))).
      pose proof (travel_nonneg s (drop (w_index w + 1 + 1) p)).
      split; [|split].
      * split; [cbn; lia|]. cbn [w_index w_x w_y].
        replace (Nat.min (w_index w + 1) (length p - 2)) with (w_index w + 1)%nat by lia.
        rewrite Et. unfold in_box. cbn [fst snd]. lia.
      * lia.
      * symmetry. apply Z.leb_gt. lia.
  - rewrite (seg_moves_far s r Hs Hfar). cbn [fst snd].
    rewrite moves_left_walking by exact Hend. cbn [w_index w_x w_y]. rewrite Et.
    cbn [fst snd].
    pose proof (seg_moves_pos s (r - s)).
    assert (Hnew : Z.abs (tx - (w_x w + Z.sgn (tx - w_x w) * s))
                   + Z.abs (ty - (w_y w + Z.sgn (ty - w_y w) * s)) = r - s
                   /\ in_box (waypoint p (w_index w)) (tx, ty)
                        (w_x w + Z.sgn (tx - w_x w) * s)
                        (w_y w + Z.sgn (ty - w_y w) * s)).
    { unfold in_box. cbn [fst snd]. unfold r in *. destruct Hal as [E|E].
      - rewrite E in *. rewrite sgn_still, Z.sub_diag in *. cbn [Z.abs] in *.
        destruct (sgn_step (snd (waypoint p (w_index w))) (w_y w) ty s Hs ltac:(lia) Hby).
        lia.
      - rewrite E in *. rewrite sgn_still, Z.sub_diag in *. cbn [Z.abs] in *.
        destruct (sgn_step (fst (waypoint p (w_index w))) (w_x w) tx s Hs ltac:(lia) Hbx).
        lia. }
    destruct Hnew as [Hr Hbox]. rewrite Hr. split; [|split].
    + split; [apply Hw|]. cbn [w_index w_x w_y].
      replace (Nat.min (w_index w) (length p - 2)) with (w_index w) by lia.
      rewrite Et. exact Hbox.
    + lia.
    + symmetry. apply Z.leb_gt. lia.
Qed.

Lemma walk_start_ok (p : Path) (s : Z) :
  screen_path p = true ->
  walker_ok p (walk_start p) /\ moves_left p s (walk_start p) = travel s p.
Proof.
  intros (Hlen & _ & _)%screen_path_parts. split.
  - split; [cbn; lia|]. cbn [walk_start w_index w_x w_y].
    replace (Nat.min 0 (length p - 2)) with 0%nat by lia.
    unfold in_box. lia.
  - rewrite moves_left_walking
      by (cbn [walk_start w_index]; rewrite Z.geb_leb; apply Z.leb_gt; lia).
    cbn [walk_start w_index w_x w_y].
    change (travel s p) with (travel s (drop 0 p)).
    rewrite (travel_drop s p 0) by lia. reflexivity.
Qed.

Lemma flags_after_succ (T n : nat) :
  (1 <= T)%nat -> flags_after T (S n) = (T <=? S n)%nat :: flags_after T n.
Proof.
  intros HT. unfold flags_after. destruct (Nat.leb_spec T (S n)) as [H|H].
  - replace (S n - (T - 1))%nat with (S (n - (T - 1))) by lia.
    replace (Nat.min (S n) (T - 1)) with (Nat.min n (T - 1)) by lia. reflexivity.
  - replace (S n - (T - 1))%nat with 0%nat by lia.
    replace (n - (T - 1))%nat with 0%nat by lia.
    replace (Nat.min (S n) (T - 1)) with (S n) by lia.
    replace (Nat.min n (T - 1)) with n by lia. reflexivity.
Qed.

Lemma walk_succ (p : Path) (s : Z) (n : nat) :
  walk p s (S n)
  = (fst (walk_step p s (fst (walk p s n))),
     snd (walk_step p s (fst (walk p s n))) :: snd (walk p s n)).
Proof.
  cbn [walk]. destruct (walk p s n) as [w bs]. cbn [fst snd].
  now destruct (walk_step p s w).
Qed.

(** The walk of a path of the screen: it stays on the path, and reports
    the end from call [travel s p] on. *)
Lemma walk_spec (p : Path) (s : Z) (n : nat) :
  screen_path p = true -> 1 <= s ->
  walker_ok p (fst (walk p s n))
  /\ moves_left p s (fst (walk p s n)) = Z.max 0 (travel s p - Z.of_nat n)
  /\ snd (walk p s n) = flags_after (Z.to_nat (travel s p)) n.
Proof.
  intros Hp Hs. destruct (walk_start_ok p s Hp) as [H0 H1].
  assert (HT : 1 <= travel s p).
  { destruct (screen_path_parts p Hp) as (Hlen & _).
    destruct p as [|a [|b p]]; cbn [length] in Hlen; try lia.
    change (travel s (a :: b :: p))
      with (seg_moves s (seg_len a b) + travel s (b :: p)).
    pose proof (seg_moves_pos s (seg_len a b)).
    pose proof (travel_nonneg s (b :: p)). lia. }
  induction n as [|n (IH1 & IH2 & IH3)].
  - cbn [walk fst snd]. rewrite H1. split; [exact H0|]. split; [lia|].
    unfold flags_after. reflexivity.
  - rewrite walk_succ. cbn [fst snd].
    destruct (walk_step_spec p s (fst (walk p s n)) Hp Hs IH1) as (Hok & Hleft & Hflag).
    split; [exact Hok|]. split; [rewrite Hleft, IH2; lia|].
    rewrite Hflag, IH2, IH3, flags_after_succ by lia. f_equal.
    destruct (Z.leb_spec (Z.max 0 (travel s p - Z.of_nat n)) 1);
      destruct (Nat.leb_spec (Z.to_nat (travel s p)) (S n)); auto; lia.
Qed.

(** ** [Enemy.move] on a path of the screen *)

Lemma sub_small (a b : Z) :
  0 <= a <= 1023 -> 0 <= b <= 1023 ->
  PrimFloat.sub (float_of_Z a) (float_of_Z b) = float_of_Z (a - b).
Proof.
  intros Ha Hb. apply feq_eq.
  apply (all_pairs_spec sub_exact 10 0 a b sub_exact_checked);
    change (Z.of_nat 10) with 10; lia.
Qed.

Lemma leb_small (a b : Z) :
  0 <= a <= 1023 -> 0 <= b <= 1023 ->
  PrimFloat.leb (float_of_Z a) (float_of_Z b) = (a <=? b).
Proof.
  intros Ha Hb. apply Bool.eqb_prop.
  apply (all_pairs_spec leb_exact 10 0 a b leb_exact_checked);
    change (Z.of_nat 10) with 10; lia.
Qed.

Lemma get_speed_of (ty : EnemyType.t) : _get_speed ty = float_of_Z (speed_of ty).
Proof. destruct ty; vm_compute; reflexivity. Qed.

Lemma speed_of_speeds (ty : EnemyType.t) : In (speed_of ty) speeds.
Proof. destruct ty; cbn; auto. Qed.

Lemma speed_of_pos (ty : EnemyType.t) : 1 <= speed_of ty <= 4.
Proof. destruct ty; cbn; lia. Qed.

Lemma hypot_axis (d : Z) :
  -1023 <= d <= 1023 ->
  hypot (float_of_Z d) (float_of_Z 0) = float_of_Z (Z.abs d)
  /\ hypot (float_of_Z 0) (float_of_Z d) = float_of_Z (Z.abs d).
Proof.
  intros Hd.
  assert (H := all_from_spec _ 11 (-1024) d hypot_axis_exact_checked).
  unfold hypot_axis_exact in H. change (Z.of_nat 11) with 11 in H.
  apply andb_true_iff in H as [H1 H2]; [|lia]. split; now apply feq_eq.
Qed.

Lemma speed_leb (a : Z) (ty : EnemyType.t) :
  0 <= a <= 1023 ->
  PrimFloat.leb (float_of_Z a) (_get_speed ty) = (a <=? speed_of ty).
Proof.
  intros Ha. rewrite get_speed_of.
  assert (H := all_from_spec _ 10 0 a speed_leb_exact_checked).
  unfold speed_leb_exact in H. change (Z.of_nat 10) with 10 in H.
  rewrite forallb_forall in H by lia.
  apply Bool.eqb_prop, H; [lia | apply speed_of_speeds].
Qed.

Lemma unit_step (d : Z) (ty : EnemyType.t) :
  -1023 <= d <= 1023 -> d <> 0 ->
  PrimFloat.mul (PrimFloat.div (float_of_Z d) (float_of_Z (Z.abs d))) (_get_speed ty)
  = float_of_Z (Z.sgn d * speed_of ty)
  /\ PrimFloat.mul (PrimFloat.div (float_of_Z 0) (float_of_Z (Z.abs d))) (_get_speed ty)
     = float_of_Z 0.
Proof.
  intros Hd Hne. rewrite get_speed_of.
  assert (H := all_from_spec _ 11 (-1024) d unit_step_exact_checked).
  unfold unit_step_exact in H. change (Z.of_nat 11) with 11 in H.
  apply orb_true_iff in H as [H|H]; [apply Z.eqb_eq in H; contradiction | | lia].
  rewrite forallb_forall in H. specialize (H _ (speed_of_speeds ty)).
  apply andb_true_iff in H as [H1 H2]. split; now apply feq_eq.
Qed.

Lemma step_add (x k : Z) :
  0 <= x <= 1023 -> In k [-4; -2; -1; 0; 1; 2; 4] ->
  PrimFloat.add (float_of_Z x) (float_of_Z k) = float_of_Z (x + k).
Proof.
  intros Hx Hk.
  assert (H := all_from_spec _ 10 0 x step_add_exact_checked).
  unfold step_add_exact in H. change (Z.of_nat 10) with 10 in H.
  rewrite forallb_forall in H by lia. apply feq_eq, H; [lia | exact Hk].
Qed.

Lemma sgn_speed_step (d : Z) (ty : EnemyType.t) :
  In (Z.sgn d * speed_of ty) [-4; -2; -1; 0; 1; 2; 4].
Proof.
  destruct (Z.sgn_spec d) as [[_ ->]|[[_ ->]|[_ ->]]]; destruct ty; cbn; auto 10.
Qed.

(** Along an axis [move] is exact: the walker of the integers is where
    the enemy is. *)
Lemma Enemy_move_walk (ty : EnemyType.t) (p : Path) (w : Walker) :
  screen_path p = true -> walker_ok p w ->
  Enemy_move (enemy_at ty p w)
  = (enemy_at ty p (fst (walk_step p (speed_of ty) w)),
     snd (walk_step p (speed_of ty) w)).
Proof.
  intros Hp Hw. pose proof (walker_not_at_end p w Hp Hw) as Hfacts.
  unfold Enemy_move, walk_step, at_end.
  cbn [enemy_at e_path path_index e_x e_y e_speed set_path_index].
  destruct (Z.of_nat (w_index w) >=? Z.of_nat (length p) - 1) eqn:Hend; [reflexivity|].
  destruct (Hfacts eq_refl) as (Hlt & _ & Hal & Hxy & Htxy). clear Hfacts.
  destruct (waypoint p (w_index w + 1)) as [tx ty'] eqn:Et. cbn [fst snd] in *.
  rewrite !sub_small by lia.
  set (s := speed_of ty). pose proof (speed_of_pos ty) as Hs. fold s in Hs.
  assert (Hdist : hypot (float_of_Z (tx - w_x w)) (float_of_Z (ty' - w_y w))
                  = float_of_Z (Z.abs (tx - w_x w) + Z.abs (ty' - w_y w))).
  { destruct Hal as [E|E]; rewrite E, Z.sub_diag; cbn [Z.abs].
    - rewrite Z.add_0_l. apply hypot_axis. lia.
    - rewrite Z.add_0_r. apply hypot_axis. lia. }
  rewrite Hdist.
  rewrite speed_leb by (destruct Hal as [E|E]; rewrite E, Z.sub_diag; cbn [Z.abs]; lia).
  fold s. destruct (Z.leb_spec (Z.abs (tx - w_x w) + Z.abs (ty' - w_y w)) s) as [Hnear|Hfar].
  - cbn [path_index e_path].
    destruct (Z.of_nat (w_index w + 1) >=? Z.of_nat (length p) - 1); [reflexivity|].
    reflexivity.
  - cbn [fst snd set_pos enemy_at w_index w_x w_y e_type e_path path_index e_x e_y
           health max_health e_speed reward].
    assert (Hx : PrimFloat.add (float_of_Z (w_x w))
                   (PrimFloat.mul
                      (PrimFloat.div (float_of_Z (tx - w_x w))
                         (float_of_Z (Z.abs (tx - w_x w) + Z.abs (ty' - w_y w))))
                      (_get_speed ty))
                 = float_of_Z (w_x w + Z.sgn (tx - w_x w) * s)
                 /\ PrimFloat.add (float_of_Z (w_y w))
                      (PrimFloat.mul
                         (PrimFloat.div (float_of_Z (ty' - w_y w))
                            (float_of_Z (Z.abs (tx - w_x w) + Z.abs (ty' - w_y w))))
                         (_get_speed ty))
                    = float_of_Z (w_y w + Z.sgn (ty' - w_y w) * s)).
    { destruct Hal as [E|E].
      - rewrite E, Z.sub_diag in *. cbn [Z.abs Z.sgn] in *. rewrite Z.add_0_l in *.
        destruct (unit_step (ty' - w_y w) ty) as [H1 H2]; [lia | lia |].
        rewrite H1, H2. fold s. split.
        + rewrite step_add by (lia || (cbn; auto 10)). f_equal.
        + apply step_add; [lia | apply sgn_speed_step].
      - rewrite E, Z.sub_diag in *. cbn [Z.abs Z.sgn] in *. rewrite Z.add_0_r in *.
        destruct (unit_step (tx - w_x w) ty) as [H1 H2]; [lia | lia |].
        rewrite H1, H2. fold s. split.
        + apply step_add; [lia | apply sgn_speed_step].
        + rewrite step_add by (lia || (cbn; auto 10)). f_equal. }
    destruct Hx as [-> ->]. reflexivity.
Qed.

Lemma new_Enemy_at (ty : EnemyType.t) (p : Path) :
  new_Enemy ty p = enemy_at ty p (walk_start p).
Proof. unfold new_Enemy, enemy_at, walk_start. now destruct (waypoint p 0). Qed.

Lemma moves_walk (ty : EnemyType.t) (p : Path) (n : nat) :
  screen_path p = true ->
  moves n (new_Enemy ty p)
  = (enemy_at ty p (fst (walk p (speed_of ty) n)), snd (walk p (speed_of ty) n)).
Proof.
  intros Hp. pose proof (speed_of_pos ty) as Hs. induction n as [|n IH].
  - cbn [moves walk fst snd]. now rewrite new_Enemy_at.
  - rewrite moves_succ, walk_succ, IH. cbn [fst snd].
    destruct (walk_spec p (speed_of ty) n Hp ltac:(lia)) as (Hok & _).
    rewrite (Enemy_move_walk ty p _ Hp Hok). reflexivity.
Qed.

Lemma on_path_enemy_at (ty : EnemyType.t) (p : Path) (w : Walker) :
  screen_path p = true -> walker_ok p w -> on_path (enemy_at ty p w) = true.
Proof.
  intros (Hlen & Hscr & _)%screen_path_parts [Hi [Hbx Hby]].
  unfold on_path, on_segment, between. cbn [enemy_at e_path path_index e_x e_y].
  set (j := Nat.min (w_index w) (length p - 2)) in *.
  pose proof (waypoint_on_screen p j Hscr ltac:(lia)) as Ha.
  pose proof (waypoint_on_screen p (j + 1) Hscr ltac:(lia)) as Hb.
  rewrite !leb_small by lia.
  repeat (apply andb_true_iff; split); apply Z.leb_le; lia.
Qed.

Lemma seg_moves_bounds (s L : Z) :
  1 <= s -> 0 <= L -> s * (seg_moves s L - 1) <= L <= s * seg_moves s L.
Proof.
  intros Hs HL. unfold seg_moves.
  pose proof (Z.div_mod (L + s - 1) s ltac:(lia)) as Hd.
  pose proof (Z.mod_pos_bound (L + s - 1) s ltac:(lia)) as Hm.
  destruct (Z.max_spec 1 ((L + s - 1) / s)) as [[H ->]|[H ->]]; nia.
Qed.

(** The calls a path takes, against its length: the length over the
    speed, and up to one more for each segment. *)
Lemma travel_bounds (s : Z) (p : Path) :
  1 <= s ->
  s * (travel s p - Z.of_nat (length p - 1)) <= rectilinear_length p <= s * travel s p.
Proof.
  intros Hs. induction p as [|[x1 y1] p IH]; [cbn; lia|].
  destruct p as [|[x2 y2] p]; [cbn; lia|].
  change (travel s ((x1, y1) :: (x2, y2) :: p))
    with (seg_moves s (seg_len (x1, y1) (x2, y2)) + travel s ((x2, y2) :: p)).
  change (rectilinear_length ((x1, y1) :: (x2, y2) :: p))
    with (Z.abs (x2 - x1) + Z.abs (y2 - y1) + rectilinear_length ((x2, y2) :: p)).
  pose proof (seg_moves_bounds s (seg_len (x1, y1) (x2, y2)) Hs) as Hb.
  unfold seg_len in *. cbn [fst snd length] in *.
  specialize (Hb ltac:(lia)).
  replace (Z.of_nat (S (S (length p)) - 1)) with (Z.of_nat (S (length p) - 1) + 1) by lia.
  nia.
Qed.

Lemma game_path_on_screen : screen_path game_path = true.
Proof. reflexivity. Qed.

Lemma game_path_travel (ty : EnemyType.t) :
  travel (speed_of ty) game_path = Z.of_nat (travel_time ty)
  /\ Z.of_nat (travel_time ty) * speed_of ty = rectilinear_length game_path
  /\ rectilinear_length game_path = 1900.
Proof. destruct ty; vm_compute; repeat split; reflexivity. Qed.

(** The enemy loop of a tick only moves enemies that have not reported
    the end. *)
Lemma snapshot_not_at_end (g : Game) (id : nat) :
  played g -> id ∈ enemies (before_enemies g) ->
  at_end (heap (before_enemies g) !!! id) = false.
Proof.
  intros Hp Hid. pose proof (played_sound g Hp) as Hs.
  assert (Hs0 : sound (set_frame_count (frame_count g + 1) g)).
  { destruct Hs as (H1 & Hlive & Hw & Hq & Ht & Hpr & Hf). close_sound Hlive. }
  apply sound_update_wave in Hs0. fold (before_enemies g) in Hs0.
  destruct Hs0 as (_ & [_ Hlive] & _).
  destruct (Hlive id Hid) as (e & Hlook & Hok).
  rewrite (list_lookup_total_correct _ _ _ Hlook). apply Hok.
Qed.

(** C4 (amended): on every path of the screen (two waypoints or more,
    integer coordinates from 0 to 1023, segments parallel to the axes)
    an enemy of any type is, after any number of calls of [move],
    where the walk on the integers is: on the path, never beyond the
    last waypoint.  [move] returns false on the calls before call [T]
    and true on call [T], where [T] counts, for each segment, its
    length over the speed, rounded up, and one at least: the length of
    the path over the speed, and up to one call more for each segment;
    on the game's path [T] is 1900 over the speed, that is 950, 475 or
    1900.  Call [T] sets [path_index] to the last index and moves
    nothing; a call that reports the end never moves anything.  The
    game removes the enemy at that call and its enemy loop only moves
    enemies that have not reported, so that in the game every enemy
    reports once at most; called again, [move] reports the end again
    and changes nothing. *)
Theorem move_walks_the_path (ty : EnemyType.t) (p : Path) (n : nat) :
  screen_path p = true ->
  let e0 := new_Enemy ty p in
  let s := speed_of ty in
  let T := Z.to_nat (travel s p) in
  fst (moves n e0) = enemy_at ty p (fst (walk p s n))
  /\ on_path (fst (moves n e0)) = true
  /\ snd (moves n e0) = flags_after T n
  /\ (1 <= T)%nat
  /\ s * (Z.of_nat T - Z.of_nat (length p - 1)) <= rectilinear_length p
     <= s * Z.of_nat T
  /\ path_index (fst (moves T e0)) = (length p - 1)%nat
  /\ e_x (fst (moves T e0)) = e_x (fst (moves (T - 1) e0))
  /\ e_y (fst (moves T e0)) = e_y (fst (moves (T - 1) e0))
  /\ ((T <= n)%nat -> fst (moves n e0) = fst (moves T e0))
  /\ (travel s game_path = Z.of_nat (travel_time ty)
      /\ Z.of_nat (travel_time ty) * s = rectilinear_length game_path
      /\ rectilinear_length game_path = 1900)
  /\ (forall e, at_end e = true -> Enemy_move e = (e, true))
  /\ (forall e, snd (Enemy_move e) = true ->
        e_x (fst (Enemy_move e)) = e_x e /\ e_y (fst (Enemy_move e)) = e_y e
        /\ at_end (fst (Enemy_move e)) = true)
  /\ (forall g id, played g -> id ∈ enemies (before_enemies g) ->
        at_end (heap (before_enemies g) !!! id) = false).
Proof.
  intros Hp e0 s T. pose proof (speed_of_pos ty) as Hs. fold s in Hs.
  assert (HT : 1 <= travel s p).
  { destruct (screen_path_parts p Hp) as (Hlen & _).
    destruct p as [|a [|b p']]; cbn [length] in Hlen; try lia.
    change (travel s (a :: b :: p'))
      with (seg_moves s (seg_len a b) + travel s (b :: p')).
    pose proof (seg_moves_pos s (seg_len a b)).
    pose proof (travel_nonneg s (b :: p')). lia. }
  assert (HTz : Z.of_nat T = travel s p) by (unfold T; lia).
  assert (HTt : Z.to_nat (travel s p) = T) by reflexivity.
  clearbody T.
  assert (Hmoves : forall m, moves m e0 = (enemy_at ty p (fst (walk p s m)),
                                            flags_after T m)).
  { intros m. unfold e0. rewrite (moves_walk ty p m Hp). fold s. f_equal.
    destruct (walk_spec p s m Hp ltac:(lia)) as (_ & _ & H). now rewrite H, HTt. }
  assert (Hend : at_end (fst (moves T e0)) = true).
  { rewrite Hmoves. cbn [fst]. unfold at_end. cbn [enemy_at path_index e_path].
    destruct (walk_spec p s T Hp ltac:(lia)) as (_ & Hleft & _).
    unfold moves_left in Hleft.
    destruct (Z.of_nat (w_index (fst (walk p s T))) >=? Z.of_nat (length p) - 1);
      [reflexivity|].
    pose proof (seg_moves_pos s
      (seg_len (w_x (fst (walk p s T)), w_y (fst (walk p s T)))
         (waypoint p (w_index (fst (walk p s T)) + 1)))).
    pose proof (travel_nonneg s (drop (w_index (fst (walk p s T)) + 1) p)).
    lia. }
  assert (HS : T = S (T - 1)) by lia.
  assert (Hlast : snd (Enemy_move (fst (moves (T - 1) e0))) = true).
  { pose proof (Hmoves (S (T - 1))) as H. rewrite moves_succ in H.
    apply (f_equal snd) in H. cbn [snd] in H.
    rewrite flags_after_succ in H by lia.
    injection H as H _. rewrite H. apply Nat.leb_le. lia. }
  assert (Hstep : fst (moves T e0) = fst (Enemy_move (fst (moves (T - 1) e0)))).
  { rewrite HS at 1. now rewrite moves_succ. }
  split; [now rewrite Hmoves|].
  split.
  { rewrite Hmoves. cbn [fst]. apply on_path_enemy_at; [exact Hp|].
    now destruct (walk_spec p s n Hp ltac:(lia)) as (H & _). }
  split; [now rewrite Hmoves|].
  split; [lia|].
  split; [rewrite HTz; apply travel_bounds; lia|].
  split.
  { rewrite Hmoves. cbn [fst enemy_at path_index].
    destruct (walk_spec p s T Hp ltac:(lia)) as ([Hle _] & _).
    rewrite Hmoves in Hend. cbn [fst] in Hend. unfold at_end in Hend.
    cbn [enemy_at path_index e_path] in Hend. apply Z.geb_le in Hend. lia. }
  destruct (Enemy_move_reporting _ Hlast) as (Hx & Hy & _).
  split; [now rewrite Hstep|]. split; [now rewrite Hstep|].
  split.
  { intros Hn. replace n with (T + (n - T))%nat by lia.
    now rewrite (moves_past_end T (n - T) e0 Hend). }
  split; [apply game_path_travel|].
  split; [exact Enemy_move_at_end|].
  split; [exact Enemy_move_reporting|].
  intros g id. apply snapshot_not_at_end.
Qed.

(** On the game's path: call 950 of a Basic enemy reports the end, and
    calls 951 and 952 leave it where call 950 left it.  On the path
    from (0, 0) by (5, 0) to (5, 3), of length 8, a Basic enemy takes
    3 calls for the first segment and 2 for the second: call 5 reports
    the end. *)
Lemma move_walks_the_path_witness :
  let e0 := new_Enemy EnemyType.BASIC game_path in
  let p := [(0, 0); (5, 0); (5, 3)] in
  screen_path game_path = true
  /\ snd (moves 952 e0)
     = flags_after (Z.to_nat (travel (speed_of EnemyType.BASIC) game_path)) 952
  /\ on_path (fst (moves 952 e0)) = true
  /\ screen_path p = true
  /\ Z.to_nat (travel (speed_of EnemyType.BASIC) p) = 5%nat
  /\ snd (moves 6 (new_Enemy EnemyType.BASIC p))
     = flags_after (Z.to_nat (travel (speed_of EnemyType.BASIC) p)) 6.
Proof.
  intros e0 p. split; [exact game_path_on_screen|].
  destruct (move_walks_the_path EnemyType.BASIC game_path 952 game_path_on_screen)
    as (_ & H1 & H2 & _).
  split; [exact H2|]. split; [exact H1|]. split; [reflexivity|].
  split; [reflexivity|].
  destruct (move_walks_the_path EnemyType.BASIC p 6 eq_refl) as (_ & _ & H3 & _).
  exact H3.
Defined.

Lemma far_from_the_screen_stuck :
  Enemy_move (new_Enemy EnemyType.BASIC far_path)
  = (new_Enemy EnemyType.BASIC far_path, false).
Proof. vm_compute. reflexivity. Qed.

(** C4 as stated fails.  On the path from (2^54, 0) to (2^55, 0), two
    waypoints on an axis, a Basic enemy never moves and never reports
    the end: at 2^54 the step of 2 is lost in the rounding of the
    addition.  And on the game's path the end is reported on call 950
    and again on calls 951 and 952, if [move] is called again. *)
Lemma move_never_reports_far_away :
  let e0 := new_Enemy EnemyType.BASIC far_path in
  (2 <= length far_path)%nat
  /\ rectilinear far_path = true
  /\ (forall n, moves n e0 = (e0, repeat false n))
  /\ (forall n, count_occ bool_dec (snd (moves n e0)) true <> 1%nat)
  /\ snd (moves 952 (new_Enemy EnemyType.BASIC game_path))
     = true :: true :: true :: repeat false 949.
Proof.
  intros e0.
  assert (Hn : forall n, moves n e0 = (e0, repeat false n)).
  { induction n as [|n IH]; [reflexivity|].
    rewrite moves_succ, IH. cbn [fst snd]. unfold e0.
    rewrite far_from_the_screen_stuck. reflexivity. }
  split; [cbn; lia|]. split; [reflexivity|]. split; [exact Hn|]. split.
  - intros n. rewrite Hn. cbn [snd].
    rewrite count_occ_repeat_neq by discriminate. discriminate.
  - vm_compute. reflexivity.
Qed.

(** ** The tower step *)

Lemma tower_turn_frame (g g' : Game) (t : Tower) :
  frame_count g' = frame_count g -> heap g' = heap g -> enemies g' = enemies g ->
  tower_turn g' t = tower_turn g t.
Proof. unfold tower_turn. now intros -> -> ->. Qed.

Lemma towers_loop_spec (fr : Z) (hp : list Enemy) (en : list nat)
    (todo done : list Tower) (g : Game) :
  frame_count g = fr -> heap g = hp -> enemies g = en ->
  towers g = done ++ todo ->
  let turn t := shoot fr (set_target (find_target t hp en) t) in
  towers_loop (seq (length done) (length todo)) g
  = set_projectiles (projectiles g ++ omap (fun t => snd (turn t)) todo)
      (set_towers (done ++ ((fun t => fst (turn t)) <$> todo)) g).
Proof.
  intros Hfr Hhp Hen Hg turn. revert done g Hfr Hhp Hen Hg.
  induction todo as [|t rest IH]; intros done g Hfr Hhp Hen Hg.
  - rewrite app_nil_r in Hg. cbn [length seq towers_loop]. rewrite fmap_nil.
    cbn [omap]. rewrite !app_nil_r, <- Hg. now destruct g.
  - cbn [length seq towers_loop].
    assert (Hlook : towers g !! length done = Some t)
      by (rewrite Hg; apply list_lookup_middle; reflexivity).
    assert (Hins : forall t2, <[length done := t2]> (towers g) = (done ++ [t2]) ++ rest).
    { intros t2. rewrite Hg, <- app_assoc.
      replace (length done) with (length done + 0)%nat at 1 by lia.
      rewrite insert_app_r. reflexivity. }
    unfold update_tower at 1. rewrite Hlook, Hfr, Hhp, Hen. fold (turn t).
    destruct (turn t) as [t2 shot] eqn:Eturn.
    replace (S (length done)) with (length (done ++ [t2]))
      by (rewrite length_app; cbn; lia).
    destruct shot as [q|].
    + rewrite (IH (done ++ [t2])) by (cbn; auto).
      assert (E1 : omap (fun t => snd (turn t)) (t :: rest)
                   = q :: omap (fun t => snd (turn t)) rest)
        by (change (omap (fun t => snd (turn t)) (t :: rest))
              with (match snd (turn t) with
                    | Some y => y :: omap (fun t => snd (turn t)) rest
                    | None => omap (fun t => snd (turn t)) rest
                    end); now rewrite Eturn).
      rewrite E1, fmap_cons, Eturn. cbn [fst].
      destruct g. cbn. rewrite <- !app_assoc. reflexivity.
    + rewrite (IH (done ++ [t2])) by (cbn; auto).
      assert (E1 : omap (fun t => snd (turn t)) (t :: rest)
                   = omap (fun t => snd (turn t)) rest)
        by (change (omap (fun t => snd (turn t)) (t :: rest))
              with (match snd (turn t) with
                    | Some y => y :: omap (fun t => snd (turn t)) rest
                    | None => omap (fun t => snd (turn t)) rest
                    end); now rewrite Eturn).
      rewrite E1, fmap_cons, Eturn. cbn [fst].
      destruct g. cbn. rewrite <- !app_assoc. reflexivity.
Qed.

(** The tower step: every tower takes the target [find_target] gives
    it among the live enemies and shoots if its cooldown allows; the
    shots join the projectiles, in the order of the towers. *)
Lemma update_towers_spec (g : Game) :
  update_towers g
  = set_projectiles (projectiles g ++ omap (fun t => snd (tower_turn g t)) (towers g))
      (set_towers ((fun t => fst (tower_turn g t)) <$> towers g) g).
Proof.
  unfold update_towers.
  exact (towers_loop_spec (frame_count g) (heap g) (enemies g) (towers g) [] g
           eq_refl eq_refl eq_refl eq_refl).
Qed.

(** ** Distances on the screen *)

Lemma sq_exact_checked : all_from sq_exact 11 (-1024) = true.
Proof. vm_compute. reflexivity. Qed.

Lemma sum_sq_exact_checked : all_pairs sum_sq_exact 10 0 = true.
Proof. vm_compute. reflexivity. Qed.

Lemma sqrt_strict_checked : all_from sqrt_strict 21 0 = true.
Proof. vm_compute. reflexivity. Qed.

Lemma sqrt_square_exact_checked : all_from sqrt_square_exact 10 0 = true.
Proof. vm_compute. reflexivity. Qed.

Lemma SFltb_irrefl a : SFltb a a = false.
Proof.
  unfold SFltb. destruct a as [[]|[]| |[] m e]; simpl; try reflexivity;
    rewrite Z.compare_refl, ?Pos.compare_cont_refl; reflexivity.
Qed.

Lemma ltb_irrefl a : PrimFloat.ltb a a = false.
Proof. rewrite ltb_spec. apply SFltb_irrefl. Qed.

Lemma ltb_trans a b c :
  PrimFloat.ltb a b = true -> PrimFloat.ltb b c = true -> PrimFloat.ltb a c = true.
Proof. intros H1 H2. apply (ltb_leb_trans a b c H1). now apply ltb_leb. Qed.

Lemma ltb_not_leb a b : PrimFloat.ltb a b = true -> PrimFloat.leb b a = false.
Proof.
  intros H. destruct (PrimFloat.leb b a) eqn:E; [|reflexivity].
  pose proof (leb_ltb_trans b a b E H) as Hbb. now rewrite ltb_irrefl in Hbb.
Qed.

Lemma ltb_asym a b : PrimFloat.ltb a b = true -> PrimFloat.ltb b a = false.
Proof.
  intros H. destruct (PrimFloat.ltb b a) eqn:E; [|reflexivity].
  pose proof (ltb_trans a b a H E) as Haa. now rewrite ltb_irrefl in Haa.
Qed.

Lemma sqrt_Z_next (n : Z) : 0 <= n < 2 ^ 21 -> PrimFloat.ltb (sqrt_Z n) (sqrt_Z (n + 1)) = true.
Proof.
  intros Hn. apply (all_from_spec sqrt_strict 21 0 n sqrt_strict_checked).
  change (Z.of_nat 21) with 21. lia.
Qed.

Lemma sqrt_Z_lt (a b : Z) :
  0 <= a -> a < b -> b <= 2 ^ 21 -> PrimFloat.ltb (sqrt_Z a) (sqrt_Z b) = true.
Proof.
  intros Ha Hab Hb. replace b with (a + 1 + Z.of_nat (Z.to_nat (b - a - 1))) by lia.
  assert (Hk : a + 1 + Z.of_nat (Z.to_nat (b - a - 1)) <= 2 ^ 21) by lia.
  revert Hk. generalize (Z.to_nat (b - a - 1)). intros k.
  induction k as [|k IH]; intros Hk.
  - rewrite Z.add_0_r. apply sqrt_Z_next. lia.
  - apply (ltb_trans _ (sqrt_Z (a + 1 + Z.of_nat k))); [apply IH; lia|].
    replace (a + 1 + Z.of_nat (S k)) with (a + 1 + Z.of_nat k + 1) by lia.
    apply sqrt_Z_next. lia.
Qed.

Lemma sqrt_Z_ltb (a b : Z) :
  0 <= a < 2 ^ 21 -> 0 <= b < 2 ^ 21 ->
  PrimFloat.ltb (sqrt_Z a) (sqrt_Z b) = (a <? b).
Proof.
  intros Ha Hb. destruct (Z.ltb_spec a b) as [H|H].
  - apply sqrt_Z_lt; lia.
  - destruct (Z.eq_dec a b) as [->|Hne]; [apply ltb_irrefl|].
    apply ltb_asym, sqrt_Z_lt; lia.
Qed.

Lemma sqrt_Z_leb (a b : Z) :
  0 <= a < 2 ^ 21 -> 0 <= b < 2 ^ 21 ->
  PrimFloat.leb (sqrt_Z a) (sqrt_Z b) = (a <=? b).
Proof.
  intros Ha Hb. destruct (Z.leb_spec a b) as [H|H].
  - destruct (Z.eq_dec a b) as [->|Hne].
    + apply (leb_refl_l _ (sqrt_Z (b + 1))), ltb_leb, sqrt_Z_next. lia.
    + apply ltb_leb, sqrt_Z_lt; lia.
  - apply ltb_not_leb, sqrt_Z_lt; lia.
Qed.

Lemma sqrt_Z_square (r : Z) : 0 <= r <= 1023 -> sqrt_Z (r * r) = float_of_Z r.
Proof.
  intros Hr. apply feq_eq.
  apply (all_from_spec sqrt_square_exact 10 0 r sqrt_square_exact_checked).
  change (Z.of_nat 10) with 10. lia.
Qed.

(** ** The nearest enemy, in integers *)

Lemma on_screen_bounds (q : Z * Z) :
  on_screen q = true -> 0 <= fst q <= 1023 /\ 0 <= snd q <= 1023.
Proof.
  unfold on_screen. intros H.
  apply andb_true_iff in H as [[[H1 H2]%andb_true_iff H3]%andb_true_iff H4]. lia.
Qed.

Lemma sq_small (d : Z) :
  -1023 <= d <= 1023 ->
  PrimFloat.mul (float_of_Z d) (float_of_Z d) = float_of_Z (Z.abs d * Z.abs d).
Proof.
  intros Hd. rewrite Z.abs_square. apply feq_eq.
  apply (all_from_spec sq_exact 11 (-1024) d sq_exact_checked).
  change (Z.of_nat 11) with 11. lia.
Qed.

Lemma sum_sq_small (a b : Z) :
  0 <= a <= 1023 -> 0 <= b <= 1023 ->
  PrimFloat.add (float_of_Z (a * a)) (float_of_Z (b * b)) = float_of_Z (a * a + b * b).
Proof.
  intros Ha Hb. apply feq_eq.
  apply (all_pairs_spec sum_sq_exact 10 0 a b sum_sq_exact_checked);
    change (Z.of_nat 10) with 10; lia.
Qed.

(** For a tower and an enemy at integer points of the screen the
    distance that [find_target] computes is the square root of the
    exact square of the Euclidean distance. *)
Lemma tower_distance_exact (t : Tower) (e : Enemy) (q : Z * Z) :
  on_screen (site t) = true -> on_screen q = true -> at_point e q ->
  tower_distance t e = sqrt_Z (sq_from t q).
Proof.
  intros Ht%on_screen_bounds Hq%on_screen_bounds [Hx Hy].
  cbn [site fst snd] in Ht.
  unfold tower_distance, hypot, sqrt_Z, sq_from, sq_dist. rewrite Hx, Hy.
  rewrite !sub_small by lia. rewrite !sq_small by lia.
  rewrite sum_sq_small by lia. rewrite !Z.abs_square, !Z.pow_2_r. reflexivity.
Qed.

Lemma sq_from_small (t : Tower) (q : Z * Z) :
  on_screen (site t) = true -> on_screen q = true -> 0 <= sq_from t q < 2 ^ 21.
Proof.
  intros Ht%on_screen_bounds Hq%on_screen_bounds. cbn [site fst snd] in Ht.
  unfold sq_from, sq_dist. rewrite !Z.pow_2_r.
  change (2 ^ 21) with 2097152.
  assert (Hsq : forall d, -1023 <= d <= 1023 -> 0 <= d * d <= 1046529) by (intros d Hd; nia).
  pose proof (Hsq (fst q - t_x t) ltac:(lia)).
  pose proof (Hsq (snd q - t_y t) ltac:(lia)). lia.
Qed.

Lemma range_small (t : Tower) : Tower_ok t -> 0 <= range t <= 1023.
Proof.
  intros (Hl & Hr & _). rewrite Hr. unfold _get_range. destruct (t_type t); lia.
Qed.

Lemma in_range_exact (t : Tower) (e : Enemy) (q : Z * Z) :
  Tower_ok t -> on_screen (site t) = true -> on_screen q = true -> at_point e q ->
  in_range t e = (sq_from t q <=? range t ^ 2).
Proof.
  intros Hok Ht Hq He. pose proof (range_small t Hok) as Hr.
  unfold in_range. rewrite (tower_distance_exact t e q Ht Hq He).
  rewrite <- (sqrt_Z_square (range t)) by exact Hr.
  rewrite Z.pow_2_r. apply sqrt_Z_leb.
  - now apply sq_from_small.
  - change (2 ^ 21) with 2097152. nia.
Qed.

(** *** Where the enemies of the game are *)

Lemma walker_on_screen (p : Path) (w : Walker) :
  screen_path p = true -> walker_ok p w -> on_screen (w_x w, w_y w) = true.
Proof.
  intros (Hlen & Hscr & _)%screen_path_parts [Hi [Hbx Hby]].
  set (j := Nat.min (w_index w) (length p - 2)) in *.
  pose proof (waypoint_on_screen p j Hscr ltac:(lia)) as Ha.
  pose proof (waypoint_on_screen p (j + 1) Hscr ltac:(lia)) as Hb.
  unfold on_screen. cbn [fst snd].
  repeat (apply andb_true_iff; split); apply Z.leb_le; lia.
Qed.

Lemma walks_at_point (e : Enemy) (ty : EnemyType.t) (a : nat) :
  walks e ty a -> exists q, on_screen q = true /\ at_point e q.
Proof.
  intros He. unfold walks, walker in He.
  rewrite (moves_walk ty game_path a game_path_on_screen) in He. cbn [fst] in He.
  destruct (walk_spec game_path (speed_of ty) a game_path_on_screen
              ltac:(pose proof (speed_of_pos ty); lia)) as (Hok & _).
  set (w := fst (walk game_path (speed_of ty) a)) in *.
  exists (w_x w, w_y w). split.
  - now apply (walker_on_screen game_path).
  - rewrite He. split; reflexivity.
Qed.

Lemma in_step_at_point (kind : nat -> EnemyType.t) (age : nat -> nat) (g : Game) (id : nat) :
  in_step kind age g -> id ∈ enemies g ->
  exists q, on_screen q = true /\ at_point (heap g !!! id) q.
Proof.
  intros (Hw & _) Hid. destruct (Hw id Hid) as (e & Hlook & He & _).
  rewrite (list_lookup_total_correct _ _ _ Hlook). now apply (walks_at_point e (kind id) (age id)).
Qed.

(** The enemies in step after the enemy loop of a tick. *)
Lemma tick_in_step (g : Game) :
  fair g -> state g = PLAYING ->
  exists kind age, in_step kind age (update_enemies (before_enemies g)).
Proof.
  intros (Hsound & (kind & age & Hstep) & Hlives) Es. unfold before_enemies.
  set (g0 := set_frame_count (frame_count g + 1) g).
  assert (Hs0 : sound g0).
  { destruct Hsound as (Hp & Hlive & Hw & Hq & Ht & Hpr & Hf). close_sound Hlive. }
  assert (Hstep0 : in_step kind age g0) by exact Hstep.
  destruct (update_wave_about_to_move kind age g0 Hs0 Hstep0) as (kind' & age' & Hpre).
  pose proof (sound_update_wave g0 Hs0) as Hs1.
  assert (Hnd : NoDup (enemies (update_wave g0))) by apply Hs1.
  destruct (enemies_loop_in_step kind' age' _ Hnd Hpre) as [Hstep2 _].
  now exists kind', (fun id => S (age' id)).
Qed.

(** *** The target after a tick *)

Lemma update_playing (g : Game) :
  state g = PLAYING ->
  update g = update_projectiles (update_towers (update_enemies (before_enemies g))).
Proof. intros Hs. unfold update. now rewrite Hs. Qed.

Lemma update_projectiles_towers (g : Game) : towers (update_projectiles g) = towers g.
Proof.
  unfold update_projectiles.
  destruct (projectiles_loop_frame (projectiles g) g) as (_ & _ & _ & Ht & _).
  destruct (projectiles_loop (projectiles g) g) as [g1 ps]. exact Ht.
Qed.

Lemma before_enemies_towers (g : Game) :
  towers (update_enemies (before_enemies g)) = towers g.
Proof.
  unfold update_enemies.
  destruct (enemies_loop_frame (enemies (before_enemies g)) (before_enemies g))
    as (_ & _ & _ & _ & Ht & _).
  cbv zeta in Ht. rewrite Ht. unfold before_enemies.
  destruct (update_wave_frame (set_frame_count (frame_count g + 1) g))
    as (_ & _ & _ & Ht1 & _).
  exact Ht1.
Qed.

Lemma tower_turn_target (g : Game) (t : Tower) :
  target (fst (tower_turn g t)) = find_target t (heap g) (enemies g).
Proof.
  unfold tower_turn, shoot. cbn [last_shot fire_rate set_target target].
  destruct (_ >=? _); [destruct (find_target t (heap g) (enemies g))|]; reflexivity.
Qed.

Lemma update_towers_after (g : Game) :
  state g = PLAYING ->
  let g2 := update_enemies (before_enemies g) in
  towers (update g) = (fun t => fst (tower_turn g2 t)) <$> towers g.
Proof.
  intros Hs g2. rewrite (update_playing g Hs), update_projectiles_towers.
  fold g2. rewrite update_towers_spec. cbn [towers set_projectiles set_towers].
  unfold g2. now rewrite before_enemies_towers.
Qed.

(** C6: for a tower with the range of the stat table and any list of
    live enemies, [find_target] returns none exactly when no enemy of
    the list is within range; otherwise it returns an enemy [c] of the
    list that is within range, strictly nearer than every enemy within
    range that comes before it in the list, and at least as near as
    every one that comes after it: the nearest, and the first among
    equally near ones.  The distances compared are the binary64 values
    of [math.sqrt(dx**2 + dy**2)]; for a tower and enemies at integer
    points of the screen (coordinates from 0 to 1023) that value is the
    square root of the exact square [d2] of the Euclidean distance, and
    the comparisons of the code are those of the exact squares: within
    range means [d2 <= range^2], nearer means a smaller [d2].  The
    enemies of the game are at such points, in every state of the main
    loop and when the towers look for their targets during a tick, and
    its towers have the ranges of the stat table.  In every tick of a
    game that is being played, each tower ends with the target that
    [find_target] returns for the enemies that are live after the enemy
    step of that tick, where they are then; the target the tower had
    before plays no part. *)
Theorem find_target_nearest_enemy (t : Tower) (h : list Enemy) (ids : list nat) :
  Tower_ok t ->
  let dist id := tower_distance t (h !!! id) in
  let near id := PrimFloat.leb (dist id) (float_of_Z (range t)) in
  match find_target t h ids with
  | Some c =>
      near c = true
      /\ exists before after, ids = before ++ c :: after
         /\ (forall j, j ∈ before -> near j = true ->
                       PrimFloat.ltb (dist c) (dist j) = true)
         /\ (forall j, j ∈ after -> near j = true ->
                       PrimFloat.leb (dist c) (dist j) = true)
  | None => forall j, j ∈ ids -> near j = false
  end
  /\ (forall pt : nat -> Z * Z,
        on_screen (site t) = true ->
        (forall j, j ∈ ids -> on_screen (pt j) = true /\ at_point (h !!! j) (pt j)) ->
        let d2 j := sq_from t (pt j) in
        (forall j, j ∈ ids ->
           dist j = sqrt_Z (d2 j) /\ near j = (d2 j <=? range t ^ 2))
        /\ match find_target t h ids with
           | Some c =>
               d2 c <= range t ^ 2
               /\ exists before after, ids = before ++ c :: after
                  /\ (forall j, j ∈ before -> d2 j <= range t ^ 2 -> d2 c < d2 j)
                  /\ (forall j, j ∈ after -> d2 j <= range t ^ 2 -> d2 c <= d2 j)
           | None => forall j, j ∈ ids -> range t ^ 2 < d2 j
           end)
  /\ (forall old, find_target (set_target old t) h ids = find_target t h ids)
  /\ (forall g, played g ->
        Forall Tower_ok (towers g)
        /\ (forall id, id ∈ enemies g ->
              exists q, on_screen q = true /\ at_point (heap g !!! id) q)
        /\ (state g = PLAYING ->
            let g2 := update_enemies (before_enemies g) in
            forall id, id ∈ enemies g2 ->
              exists q, on_screen q = true /\ at_point (heap g2 !!! id) q))
  /\ (forall g, state g = PLAYING ->
        let g2 := update_enemies (before_enemies g) in
        update g = update_projectiles (update_towers g2)
        /\ length (towers (update g)) = length (towers g)
        /\ forall i t0, towers g !! i = Some t0 ->
             exists t1, towers (update g) !! i = Some t1
               /\ target t1 = find_target t0 (heap g2) (enemies g2)
               /\ t1 = fst (tower_turn g2 t0)).
Proof.
  intros Hok dist near.
  assert (Hfloat :
    match find_target t h ids with
    | Some c =>
        near c = true
        /\ exists before after, ids = before ++ c :: after
           /\ (forall j, j ∈ before -> near j = true ->
                         PrimFloat.ltb (dist c) (dist j) = true)
           /\ (forall j, j ∈ after -> near j = true ->
                         PrimFloat.leb (dist c) (dist j) = true)
    | None => forall j, j ∈ ids -> near j = false
    end).
  { destruct (find_target_inv t h Hok ids) as (m & Hm & Hle & Hc).
    cbv zeta in Hle, Hc.
    destruct (find_target t h ids) as [c|].
    - destruct Hc as (-> & Hnc & before & after & -> & Hb).
      split; [exact Hnc|]. exists before, after. split; [reflexivity|].
      split; [exact Hb|]. intros j Hj Hn. apply Hle; [|exact Hn].
      apply elem_of_app. right. now apply elem_of_cons; right.
    - apply Hc. }
  split; [exact Hfloat|]. split; [|split; [|split]].
  - intros pt Ht Hpt d2.
    assert (Hd : forall j, j ∈ ids ->
              dist j = sqrt_Z (d2 j) /\ near j = (d2 j <=? range t ^ 2)
              /\ 0 <= d2 j < 2 ^ 21).
    { intros j Hj. destruct (Hpt j Hj) as [Hq Hat]. split; [|split].
      - now apply tower_distance_exact.
      - now apply in_range_exact.
      - now apply sq_from_small. }
    split; [intros j Hj; destruct (Hd j Hj) as (? & ? & _); now split|].
    destruct (find_target t h ids) as [c|].
    + destruct Hfloat as (Hnc & before & after & Hids & Hb & Ha).
      assert (Hin : forall j, j ∈ before \/ j = c \/ j ∈ after -> j ∈ ids).
      { intros j Hj. rewrite Hids. apply elem_of_app.
        destruct Hj as [Hj | [-> | Hj]]; [now left | right; now left | right; now right]. }
      destruct (Hd c (Hin c ltac:(auto))) as (Hdc & Hncc & Hbc).
      split; [apply Z.leb_le; now rewrite <- Hncc|].
      exists before, after. split; [exact Hids|]. split.
      * intros j Hj Hr. destruct (Hd j (Hin j ltac:(auto))) as (Hdj & Hnj & Hbj).
        apply Z.ltb_lt. rewrite <- (sqrt_Z_ltb (d2 c) (d2 j) Hbc Hbj), <- Hdc, <- Hdj.
        apply Hb; [exact Hj|]. rewrite Hnj. now apply Z.leb_le.
      * intros j Hj Hr. destruct (Hd j (Hin j ltac:(auto))) as (Hdj & Hnj & Hbj).
        apply Z.leb_le. rewrite <- (sqrt_Z_leb (d2 c) (d2 j) Hbc Hbj), <- Hdc, <- Hdj.
        apply Ha; [exact Hj|]. rewrite Hnj. now apply Z.leb_le.
    + intros j Hj. destruct (Hd j Hj) as (_ & Hnj & _).
      apply Z.leb_gt. rewrite <- Hnj. now apply Hfloat.
  - intros old. apply find_target_ignores_target.
  - intros g Hp. pose proof (played_fair g Hp) as Hfair.
    split; [apply (played_sound g Hp)|]. split.
    + intros id Hid. destruct Hfair as (_ & (kind & age & Hstep) & _).
      now apply (in_step_at_point kind age).
    + intros Hs g2 id Hid. destruct (tick_in_step g Hfair Hs) as (kind & age & Hstep).
      now apply (in_step_at_point kind age).
  - intros g Hs g2. split; [exact (update_playing g Hs)|].
    pose proof (update_towers_after g Hs) as Htow. cbv zeta in Htow. fold g2 in Htow.
    split; [rewrite Htow; apply length_fmap|].
    intros i t0 Hi. exists (fst (tower_turn g2 t0)). split; [|split].
    + rewrite Htow, list_lookup_fmap, Hi. reflexivity.
    + apply tower_turn_target.
    + reflexivity.
Qed.

(** A tower at (300, 250) and three enemies on the path, listed as the
    third, the first, the second: the third, at (100, 200), is out of
    range; the other two, at (200, 300) and (400, 300), are equally
    near, and the one listed first is the target. *)
Lemma find_target_nearest_enemy_witness :
  let t := new_Tower 300 250 TowerType.BASIC in
  let h := [enemy_at EnemyType.BASIC game_path (mkWalker 1 200 300);
            enemy_at EnemyType.FAST game_path (mkWalker 3 400 300);
            enemy_at EnemyType.TANK game_path (mkWalker 0 100 200)] in
  let pt (j : nat) := match j with O => (200, 300) | S O => (400, 300) | _ => (100, 200) end in
  Tower_ok t
  /\ find_target t h [2; 0; 1]%nat = Some 0%nat
  /\ in_range t (h !!! 0%nat) = true
  /\ sq_from t (pt 0%nat) <= range t ^ 2
  /\ sq_from t (pt 0%nat) = sq_from t (pt 1%nat)
  /\ range t ^ 2 < sq_from t (pt 2%nat).
Proof.
  intros t h pt.
  assert (Hok : Tower_ok t) by (cbv; repeat split; congruence).
  assert (E : find_target t h [2; 0; 1]%nat = Some 0%nat) by (vm_compute; reflexivity).
  assert (Hpt : forall j, j ∈ [2; 0; 1]%nat ->
            on_screen (pt j) = true /\ at_point (h !!! j) (pt j)).
  { intros j Hj. repeat (apply elem_of_cons in Hj as [-> | Hj]);
      [| | | inversion Hj]; (split; [reflexivity | split; reflexivity]). }
  destruct (find_target_nearest_enemy t h [2; 0; 1]%nat Hok) as (H1 & H2 & _).
  destruct (H2 pt eq_refl Hpt) as [_ H3].
  rewrite E in H1, H3. destruct H1 as [Hnear _]. destruct H3 as [Hin _].
  split; [exact Hok|]. split; [exact E|]. split; [exact Hnear|].
  split; [exact Hin|]. split; [reflexivity | reflexivity].
Defined.

(** ** The enemy step and the projectile step, declaratively *)

Lemma filter_all {A : Type} (f : A -> bool) (l : list A) :
  (forall x, In x l -> f x = true) -> List.filter f l = l.
Proof.
  induction l as [|a l IH]; intros H; cbn; [reflexivity|].
  rewrite (H a (or_introl eq_refl)), IH; [reflexivity|].
  intros x Hx. apply H. now right.
Qed.

Lemma filter_filter {A : Type} (f h : A -> bool) (l : list A) :
  List.filter f (List.filter h l) = List.filter (fun x => h x && f x) l.
Proof.
  induction l as [|a l IH]; cbn; [reflexivity|].
  destruct (h a); cbn; [destruct (f a)|]; now rewrite IH.
Qed.

Lemma remove_first_filter (id : nat) (l : list nat) :
  NoDup l -> remove_first id l = List.filter (fun x => negb (Nat.eqb x id)) l.
Proof.
  induction 1 as [|y l Hy Hl IH]; cbn; [reflexivity|].
  destruct (Nat.eqb_spec y id) as [->|Hne]; cbn.
  - symmetry. apply filter_all. intros x Hx%list_elem_of_In.
    destruct (Nat.eqb_spec x id) as [->|]; [contradiction | reflexivity].
  - now rewrite IH.
Qed.

Lemma mem_cons (id x : nat) (l : list nat) :
  mem id (x :: l) = Nat.eqb id x || mem id l.
Proof. reflexivity. Qed.

Lemma update_enemy_spec (id : nat) (g : Game) :
  let m := Enemy_move (heap g !!! id) in
  heap (update_enemy id g) = <[id := fst m]> (heap g)
  /\ enemies (update_enemy id g)
     = (if snd m then remove_first id (enemies g) else enemies g).
Proof.
  unfold update_enemy. destruct (Enemy_move (heap g !!! id)) as [e1 []]; cbn [fst snd].
  - cbn [lives set_lives set_heap set_enemies enemies heap].
    destruct (_ <=? 0); cbn; auto.
  - cbn. auto.
Qed.

(** The enemy loop moves every enemy of its snapshot, and removes from
    the live list those whose move reports the end. *)
Lemma enemies_loop_spec (l : list nat) (g : Game) :
  NoDup l -> NoDup (enemies g) ->
  (forall id, id ∈ l -> (id < length (heap g))%nat) ->
  let g' := enemies_loop l g in
  length (heap g') = length (heap g)
  /\ (forall id, id ∈ l -> heap g' !!! id = fst (Enemy_move (heap g !!! id)))
  /\ (forall id, id ∉ l -> heap g' !!! id = heap g !!! id)
  /\ enemies g'
     = List.filter (fun id => negb (mem id l && snd (Enemy_move (heap g !!! id))))
         (enemies g).
Proof.
  revert g. induction l as [|id0 rest IH]; intros g Hl Hg Hin; cbn [enemies_loop].
  - cbn zeta. split; [reflexivity|]. split; [intros id H; inversion H|].
    split; [reflexivity|]. symmetry. apply filter_all. reflexivity.
  - apply NoDup_cons in Hl as [Hid0 Hrest].
    destruct (update_enemy_spec id0 g) as [Hh He]. cbv zeta in Hh, He.
    set (g1 := update_enemy id0 g) in *.
    assert (Hlt : (id0 < length (heap g))%nat) by (apply Hin; now left).
    assert (Hlen1 : length (heap g1) = length (heap g)) by (rewrite Hh; apply length_insert).
    assert (Hother : forall id, id <> id0 -> heap g1 !!! id = heap g !!! id).
    { intros id Hne. rewrite Hh. apply list_lookup_total_insert_ne. congruence. }
    assert (Hnd1 : NoDup (enemies g1)).
    { rewrite He. destruct (snd _); [now apply remove_first_NoDup | exact Hg]. }
    destruct (IH g1 Hrest Hnd1) as (H1 & H2 & H3 & H4).
    { intros id Hid. rewrite Hlen1. apply Hin. now right. }
    cbv zeta. split; [congruence|]. split; [|split].
    + intros id [->|Hid]%elem_of_cons.
      * rewrite H3 by exact Hid0. rewrite Hh. now apply list_lookup_total_insert_eq.
      * rewrite H2 by exact Hid. rewrite Hother; [reflexivity|]. congruence.
    + intros id Hid. rewrite H3 by (intros ?; apply Hid; now right).
      apply Hother. intros ->. apply Hid. now left.
    + rewrite H4, He.
      assert (Hmem0 : mem id0 rest = false) by now apply mem_not_elem_of.
      destruct (snd (Enemy_move (heap g !!! id0))) eqn:E0.
      * rewrite (remove_first_filter id0 _ Hg), filter_filter.
        apply List.filter_ext. intros id. rewrite mem_cons.
        destruct (Nat.eqb_spec id id0) as [->|Hne]; cbn [negb andb orb].
        -- now rewrite E0.
        -- now rewrite Hother.
      * apply List.filter_ext. intros id. rewrite mem_cons.
        destruct (Nat.eqb_spec id id0) as [->|Hne]; cbn [negb andb orb].
        -- now rewrite Hmem0, E0.
        -- now rewrite Hother.
Qed.

Lemma update_enemies_spec (g : Game) :
  NoDup (enemies g) -> (forall id, id ∈ enemies g -> (id < length (heap g))%nat) ->
  let g' := update_enemies g in
  length (heap g') = length (heap g)
  /\ (forall id, id ∈ enemies g -> heap g' !!! id = fst (Enemy_move (heap g !!! id)))
  /\ (forall id, id ∉ enemies g -> heap g' !!! id = heap g !!! id)
  /\ enemies g'
     = List.filter (fun id => negb (snd (Enemy_move (heap g !!! id)))) (enemies g).
Proof.
  intros Hnd Hin.
  destruct (enemies_loop_spec (enemies g) g Hnd Hnd Hin) as (H1 & H2 & H3 & H4).
  cbv zeta in *. unfold update_enemies. repeat split; auto.
  rewrite H4. apply List.filter_ext_in. intros id Hid%list_elem_of_In.
  apply mem_elem_of in Hid. now rewrite Hid.
Qed.

Lemma elem_of_filter_bool {A : Type} (f : A -> bool) (l : list A) (x : A) :
  x ∈ List.filter f l <-> x ∈ l /\ f x = true.
Proof. rewrite !list_elem_of_In. apply List.filter_In. Qed.

Lemma NoDup_filter_bool {A : Type} (f : A -> bool) (l : list A) :
  NoDup l -> NoDup (List.filter f l).
Proof.
  induction 1 as [|a l Ha Hl IH]; cbn; [constructor|].
  destruct (f a); [|exact IH]. constructor; [|exact IH].
  intros H%elem_of_filter_bool. tauto.
Qed.

(** Damage changes the health of an enemy, not its place: the
    projectiles hit or miss as they would have. *)
Lemma hits_same (h h' : list Enemy) (p : Projectile) :
  (forall id, exists hl, h' !!! id = set_health hl (h !!! id)) ->
  hits h' p = hits h p /\ flown h' p = flown h p.
Proof.
  intros H. destruct (H (p_target p)) as [hl E]. unfold hits, flown. rewrite E.
  split; reflexivity.
Qed.

Lemma dealt_same (h h' : list Enemy) (p : Projectile) (id : nat) :
  (forall id, exists hl, h' !!! id = set_health hl (h !!! id)) ->
  dealt h' p id = dealt h p id.
Proof. intros H. unfold dealt. now rewrite (proj1 (hits_same h h' p H)). Qed.

Lemma damage_on_same (h h' : list Enemy) (ps : list Projectile) (id : nat) :
  (forall id, exists hl, h' !!! id = set_health hl (h !!! id)) ->
  damage_on h' ps id = damage_on h ps id.
Proof.
  intros H. induction ps as [|p ps IH]; cbn [damage_on]; [reflexivity|].
  now rewrite IH, (dealt_same h h' p id H).
Qed.

Lemma dealt_nonneg (h : list Enemy) (p : Projectile) (id : nat) :
  0 < p_damage p -> 0 <= dealt h p id.
Proof. intros H. unfold dealt. destruct (_ && _); lia. Qed.

Lemma damage_on_nonneg (h : list Enemy) (ps : list Projectile) (id : nat) :
  Forall (fun p => 0 < p_damage p) ps -> 0 <= damage_on h ps id.
Proof.
  induction 1 as [|p ps Hp _ IH]; cbn [damage_on]; [lia|].
  pose proof (dealt_nonneg h p id Hp). lia.
Qed.

Lemma outlives_one (h : list Enemy) (p : Projectile) (id : nat) :
  outlives h [p] id = (dealt h p id <? health (h !!! id)).
Proof. unfold outlives. cbn [damage_on]. now rewrite Z.add_0_r. Qed.

Lemma bounty_none (h : list Enemy) (ps : list Projectile) (l : list nat) :
  (forall id, id ∈ l -> outlives h ps id = true) -> bounty h ps l = 0.
Proof.
  induction l as [|a l IH]; intros H; cbn [bounty]; [reflexivity|].
  rewrite (H a) by now left. rewrite IH; [reflexivity|].
  intros id Hid. apply H. now right.
Qed.

Lemma bounty_one (h : list Enemy) (ps : list Projectile) (l : list nat) (tg : nat) :
  NoDup l -> tg ∈ l -> outlives h ps tg = false ->
  (forall id, id ∈ l -> id <> tg -> outlives h ps id = true) ->
  bounty h ps l = reward (h !!! tg).
Proof.
  intros Hnd. induction Hnd as [|a l Ha Hl IH]; intros Htg Hout Hrest; [inversion Htg|].
  cbn [bounty]. destruct (decide (a = tg)) as [->|Hne].
  - rewrite Hout, bounty_none; [lia|].
    intros id Hid. apply Hrest; [now right|]. intros ->. contradiction.
  - rewrite (Hrest a) by (auto; now left). rewrite IH; [lia | | exact Hout |].
    + apply elem_of_cons in Htg as [?|?]; [congruence | assumption].
    + intros id Hid. apply Hrest. now right.
Qed.

Lemma update_projectile_cases (p : Projectile) (g : Game) :
  let h := heap g in
  let e := h !!! p_target p in
  update_projectile p g
  = if mem (p_target p) (enemies g) then
      if hits h p then
        let g1 := set_heap (<[p_target p := set_health (health e - p_damage p) e]> h) g in
        if health e - p_damage p <=? 0
        then (set_enemies (remove_first (p_target p) (enemies g))
                (set_money (money g + reward e) g1), None)
        else (g1, None)
      else (g, Some (flown h p))
    else (g, None).
Proof.
  cbv zeta. unfold update_projectile, hits, flown, take_damage.
  destruct (Projectile_move (heap g !!! p_target p) p) as [p1 hit]. cbn [fst snd].
  destruct (mem (p_target p) (enemies g)); destruct hit; cbn [orb negb];
    reflexivity.
Qed.

(** One projectile of the snapshot. *)
Lemma update_projectile_spec (p : Projectile) (g : Game) :
  NoDup (enemies g) ->
  (forall id, id ∈ enemies g ->
     (id < length (heap g))%nat /\ 0 < health (heap g !!! id)) ->
  0 < p_damage p ->
  let h := heap g in
  let g1 := fst (update_projectile p g) in
  enemies g1 = List.filter (outlives h [p]) (enemies g)
  /\ money g1 = money g + bounty h [p] (enemies g)
  /\ length (heap g1) = length h
  /\ (forall id, id ∈ enemies g1 ->
        heap g1 !!! id = set_health (health (h !!! id) - dealt h p id) (h !!! id))
  /\ (forall id, exists hl, heap g1 !!! id = set_health hl (h !!! id))
  /\ snd (update_projectile p g)
     = (if mem (p_target p) (enemies g) && negb (hits h p)
        then Some (flown h p) else None).
Proof.
  intros Hnd Halive Hd h g1. subst g1. rewrite update_projectile_cases. fold h.
  set (tg := p_target p). set (e := h !!! tg).
  assert (Hquiet : (forall id, id ∈ enemies g -> dealt h p id = 0) ->
            enemies g = List.filter (outlives h [p]) (enemies g)
            /\ money g = money g + bounty h [p] (enemies g)
            /\ forall id, id ∈ enemies g ->
                 h !!! id = set_health (health (h !!! id) - dealt h p id) (h !!! id)).
  { intros H0.
    assert (Hall : forall id, id ∈ enemies g -> outlives h [p] id = true).
    { intros id Hid. rewrite outlives_one, (H0 id Hid). apply Z.ltb_lt.
      now apply Halive. }
    split; [symmetry; apply filter_all; intros id Hid%list_elem_of_In; auto|].
    split; [rewrite bounty_none by exact Hall; lia|].
    intros id Hid. rewrite (H0 id Hid), Z.sub_0_r. now rewrite set_health_same. }
  assert (Hsame : forall id, exists hl, h !!! id = set_health hl (h !!! id)).
  { intros id. exists (health (h !!! id)). now rewrite set_health_same. }
  destruct (mem tg (enemies g)) eqn:Em.
  - destruct (hits h p) eqn:Eh; cbn [andb negb].
    + (* a hit *)
      apply mem_elem_of in Em. destruct (Halive tg Em) as [Hlt Hpos].
      assert (Hdt : dealt h p tg = p_damage p).
      { unfold dealt. fold tg. now rewrite Nat.eqb_refl, Eh. }
      assert (Hdo : forall id, id <> tg -> dealt h p id = 0).
      { intros id Hne. unfold dealt. fold tg.
        destruct (Nat.eqb_spec tg id); [congruence | reflexivity]. }
      assert (Hins : forall id, id <> tg ->
                <[tg := set_health (health e - p_damage p) e]> h !!! id = h !!! id).
      { intros id Hne. apply list_lookup_total_insert_ne. congruence. }
      assert (Hat : <[tg := set_health (health e - p_damage p) e]> h !!! tg
                    = set_health (health e - p_damage p) e)
        by now apply list_lookup_total_insert_eq.
      assert (Hplace : forall id, exists hl,
                <[tg := set_health (health e - p_damage p) e]> h !!! id
                = set_health hl (h !!! id)).
      { intros id. destruct (decide (id = tg)) as [->|Hne].
        - exists (health e - p_damage p). exact Hat.
        - rewrite Hins by exact Hne. apply Hsame. }
      assert (Hhealth : forall id, id ∈ enemies g -> id <> tg ->
                outlives h [p] id = true).
      { intros id Hid Hne. rewrite outlives_one, Hdo by exact Hne.
        apply Z.ltb_lt. now apply Halive. }
      cbv zeta. destruct (health e - p_damage p <=? 0) eqn:Ek; cbn [fst snd].
      * (* the enemy is killed *)
        apply Z.leb_le in Ek.
        assert (Hout : outlives h [p] tg = false).
        { rewrite outlives_one, Hdt. apply Z.ltb_ge. fold e. lia. }
        cbn [enemies set_enemies money set_money heap set_heap].
        split.
        { rewrite (remove_first_filter tg _ Hnd). apply List.filter_ext_in.
          intros id Hid%list_elem_of_In. destruct (Nat.eqb_spec id tg) as [->|Hne].
          - now rewrite Hout.
          - now rewrite Hhealth. }
        split; [now rewrite (bounty_one h [p] (enemies g) tg Hnd Em Hout Hhealth)|].
        split; [apply length_insert|].
        split; [|split; [exact Hplace | reflexivity]].
        intros id Hid. destruct (remove_first_NoDup tg _ Hnd) as [_ Hnot].
        assert (Hne : id <> tg) by congruence.
        rewrite Hins, Hdo by exact Hne. rewrite Z.sub_0_r. now rewrite set_health_same.
      * (* the enemy lives on *)
        apply Z.leb_gt in Ek.
        cbn [enemies money heap set_heap].
        assert (Hall : forall id, id ∈ enemies g -> outlives h [p] id = true).
        { intros id Hid. destruct (decide (id = tg)) as [->|Hne]; [|auto].
          rewrite outlives_one, Hdt. apply Z.ltb_lt. fold e. lia. }
        split; [symmetry; apply filter_all; intros id Hid%list_elem_of_In; auto|].
        split; [rewrite bounty_none by exact Hall; lia|].
        split; [apply length_insert|].
        split; [|split; [exact Hplace | reflexivity]].
        intros id Hid. destruct (decide (id = tg)) as [->|Hne].
        -- rewrite Hat, Hdt. reflexivity.
        -- rewrite Hins, Hdo by exact Hne. rewrite Z.sub_0_r. now rewrite set_health_same.
    + (* no hit: the projectile flies on *)
      cbn [fst snd]. destruct Hquiet as (H1 & H2 & H3).
      { intros id _. unfold dealt. rewrite Eh. now rewrite andb_false_r. }
      repeat split; auto.
  - (* the target has left the field *)
    cbn [andb fst snd]. apply mem_not_elem_of in Em. destruct Hquiet as (H1 & H2 & H3).
    { intros id Hid. unfold dealt. fold tg.
      destruct (Nat.eqb_spec tg id) as [E|]; [|reflexivity]. subst id. contradiction. }
    repeat split; auto.
Qed.

Lemma bounty_split (h h1 : list Enemy) (p : Projectile) (rest : list Projectile)
    (l : list nat) :
  (forall id, id ∈ l ->
     outlives h (p :: rest) id = outlives h [p] id && outlives h1 rest id) ->
  (forall id, reward (h1 !!! id) = reward (h !!! id)) ->
  bounty h (p :: rest) l
  = bounty h [p] l + bounty h1 rest (List.filter (outlives h [p]) l).
Proof.
  intros Hc Hr. induction l as [|a l IH]; [reflexivity|].
  cbn [bounty List.filter]. rewrite IH by (intros id Hid; apply Hc; now right).
  rewrite (Hc a) by now left.
  destruct (outlives h [p] a); cbn [andb bounty]; [|lia].
  rewrite Hr. destruct (outlives h1 rest a); lia.
Qed.

(** The projectile loop: an enemy leaves the field, credited, when the
    projectiles of the snapshot that hit it deal its health or more;
    the others keep their place and lose the damage dealt; a
    projectile stays, moved, if it does not hit and its target is on
    the field when its turn comes. *)
Lemma projectiles_loop_spec (ps : list Projectile) (g : Game) :
  NoDup (enemies g) ->
  (forall id, id ∈ enemies g ->
     (id < length (heap g))%nat /\ 0 < health (heap g !!! id)) ->
  Forall (fun p => 0 < p_damage p) ps ->
  let h := heap g in
  let g' := fst (projectiles_loop ps g) in
  let kept := snd (projectiles_loop ps g) in
  enemies g' = List.filter (outlives h ps) (enemies g)
  /\ money g' = money g + bounty h ps (enemies g)
  /\ length (heap g') = length h
  /\ (forall id, id ∈ enemies g' ->
        heap g' !!! id = set_health (health (h !!! id) - damage_on h ps id) (h !!! id))
  /\ (forall id, exists hl, heap g' !!! id = set_health hl (h !!! id))
  /\ (forall q, q ∈ kept ->
        exists p, p ∈ ps /\ q = flown h p /\ hits h p = false
                  /\ p_target p ∈ enemies g)
  /\ (forall p, p ∈ ps -> hits h p = false -> p_target p ∈ enemies g' ->
        flown h p ∈ kept).
Proof.
  revert g. induction ps as [|p rest IH]; intros g Hnd Halive Hd; cbv zeta.
  - cbn [projectiles_loop fst snd].
    assert (Hall : forall id, id ∈ enemies g -> outlives (heap g) [] id = true).
    { intros id Hid. unfold outlives. cbn [damage_on]. apply Z.ltb_lt. now apply Halive. }
    split; [symmetry; apply filter_all; intros id Hid%list_elem_of_In; auto|].
    split; [rewrite bounty_none by exact Hall; lia|].
    split; [reflexivity|]. split.
    { intros id Hid. cbn [damage_on]. rewrite Z.sub_0_r. now rewrite set_health_same. }
    split; [intros id; exists (health (heap g !!! id)); now rewrite set_health_same|].
    split; [intros q Hq; inversion Hq | intros p Hp; inversion Hp].
  - apply Forall_cons in Hd as [Hp Hrest].
    destruct (update_projectile_spec p g Hnd Halive Hp) as (E1 & M1 & L1 & H1 & P1 & K1).
    cbv zeta in E1, M1, L1, H1, P1, K1. cbn [projectiles_loop].
    destruct (update_projectile p g) as [g1 k]. cbn [fst snd] in E1, M1, L1, H1, P1, K1.
    set (h := heap g) in *. set (h1 := heap g1) in *.
    assert (Hsub1 : forall id, id ∈ enemies g1 ->
              id ∈ enemies g /\ outlives h [p] id = true).
    { intros id. rewrite E1. apply elem_of_filter_bool. }
    assert (Hnd1 : NoDup (enemies g1)) by (rewrite E1; now apply NoDup_filter_bool).
    assert (Halive1 : forall id, id ∈ enemies g1 ->
              (id < length h1)%nat /\ 0 < health (h1 !!! id)).
    { intros id Hid. destruct (Hsub1 id Hid) as [Hin Hout]. rewrite L1.
      split; [now apply Halive|]. rewrite (H1 id Hid). cbn [health set_health].
      rewrite outlives_one in Hout. apply Z.ltb_lt in Hout. lia. }
    destruct (IH g1 Hnd1 Halive1 Hrest) as (E2 & M2 & L2 & H2 & P2 & K2a & K2b).
    cbv zeta in E2, M2, L2, H2, P2, K2a, K2b. fold h1 in E2, M2, L2, H2, P2, K2a, K2b.
    destruct (projectiles_loop rest g1) as [g2 ps'].
    cbn [fst snd] in E2, M2, L2, H2, P2, K2a, K2b |- *.
    assert (Hcomp : forall id, id ∈ enemies g ->
              outlives h (p :: rest) id = outlives h [p] id && outlives h1 rest id).
    { intros id Hid. destruct (outlives h [p] id) eqn:Eo; cbn [andb].
      - assert (Hid1 : id ∈ enemies g1) by (rewrite E1; now apply elem_of_filter_bool).
        unfold outlives. rewrite (damage_on_same h h1 rest id P1), (H1 id Hid1).
        cbn [damage_on health set_health].
        destruct (Z.ltb_spec (damage_on h rest id) (health (h !!! id) - dealt h p id));
          [apply Z.ltb_lt | apply Z.ltb_ge]; lia.
      - rewrite outlives_one in Eo. apply Z.ltb_ge in Eo. unfold outlives.
        cbn [damage_on]. apply Z.ltb_ge.
        pose proof (damage_on_nonneg h rest id Hrest). lia. }
    assert (Hrew : forall id, reward (h1 !!! id) = reward (h !!! id)).
    { intros id. destruct (P1 id) as [hl ->]. reflexivity. }
    assert (Hsub2 : forall id, id ∈ enemies g2 -> id ∈ enemies g1).
    { intros id. rewrite E2. intros H. now apply elem_of_filter_bool in H. }
    split; [|split; [|split; [|split; [|split; [|split]]]]].
    + rewrite E2, E1, filter_filter. apply List.filter_ext_in.
      intros id Hid%list_elem_of_In. symmetry. now apply Hcomp.
    + rewrite M2, M1, E1, (bounty_split h h1 p rest (enemies g) Hcomp Hrew). lia.
    + congruence.
    + intros id Hid. pose proof (Hsub2 id Hid) as Hid1.
      rewrite (H2 id Hid), (H1 id Hid1), (damage_on_same h h1 rest id P1).
      cbn [damage_on health set_health]. unfold set_health. cbn. f_equal. lia.
    + intros id. destruct (P2 id) as [hl2 ->]. destruct (P1 id) as [hl1 ->].
      exists hl2. reflexivity.
    + intros q Hq.
      assert (Hcases : (k = Some q /\ mem (p_target p) (enemies g) = true
                          /\ hits h p = false /\ q = flown h p) \/ q ∈ ps').
      { destruct k as [p1|]; [|now right].
        apply elem_of_cons in Hq as [->|Hq]; [left | now right].
        destruct (mem (p_target p) (enemies g)); [|discriminate].
        destruct (hits h p); [discriminate|]. cbn in K1. injection K1 as ->. auto. }
      destruct Hcases as [(_ & Hm & Hh & ->) | Hq'].
      * exists p. split; [now left|]. split; [reflexivity|]. split; [exact Hh|].
        now apply mem_elem_of.
      * destruct (K2a q Hq') as (p' & Hp' & -> & Hh & Ht).
        destruct (hits_same h h1 p' P1) as [Eh Ef].
        exists p'. split; [now right|]. split; [exact Ef|]. split; [congruence|].
        now apply Hsub1.
    + intros p' [->|Hp']%elem_of_cons Hh Ht.
      * assert (Hm : mem (p_target p) (enemies g) = true).
        { apply mem_elem_of. now apply Hsub1, Hsub2. }
        rewrite Hm, Hh in K1. cbn in K1. subst k. now left.
      * destruct (hits_same h h1 p' P1) as [Eh Ef].
        assert (Hin : flown h p' ∈ ps').
        { rewrite <- Ef. apply K2b; [exact Hp' | congruence | exact Ht]. }
        destruct k; [now right | exact Hin].
Qed.

Lemma sound_alive (g : Game) :
  sound g ->
  NoDup (enemies g)
  /\ (forall id, id ∈ enemies g ->
        (id < length (heap g))%nat /\ 0 < health (heap g !!! id))
  /\ Forall (fun p => 0 < p_damage p) (projectiles g).
Proof.
  intros (_ & [Hnd Hlive] & _ & _ & _ & Hpr & _). split; [exact Hnd|]. split.
  - intros id Hid. destruct (Hlive id Hid) as (e & Hlook & Hok).
    split; [eapply lookup_lt_Some, Hlook|].
    rewrite (list_lookup_total_correct _ _ _ Hlook). apply Hok.
  - eapply Forall_impl; [exact Hpr|]. intros p Hp. apply Hp.
Qed.

(** The projectile step of a tick. *)
Lemma update_projectiles_spec (g : Game) :
  sound g ->
  let h := heap g in
  let ps := projectiles g in
  let g' := update_projectiles g in
  enemies g' = List.filter (outlives h ps) (enemies g)
  /\ money g' = money g + bounty h ps (enemies g)
  /\ (forall id, id ∈ enemies g' ->
        heap g' !!! id = set_health (health (h !!! id) - damage_on h ps id) (h !!! id))
  /\ (forall q, q ∈ projectiles g' ->
        exists p, p ∈ ps /\ q = flown h p /\ hits h p = false
                  /\ p_target p ∈ enemies g)
  /\ (forall p, p ∈ ps -> hits h p = false -> p_target p ∈ enemies g' ->
        flown h p ∈ projectiles g').
Proof.
  intros (Hnd & Halive & Hd)%sound_alive.
  destruct (projectiles_loop_spec (projectiles g) g Hnd Halive Hd)
    as (H1 & H2 & _ & H3 & _ & H4 & H5).
  cbv zeta in *. unfold update_projectiles.
  destruct (projectiles_loop (projectiles g) g) as [g1 kept]. cbn [fst snd] in *.
  cbn [enemies money heap projectiles set_projectiles]. auto.
Qed.

Lemma sound_before_enemies (g : Game) : sound g -> sound (before_enemies g).
Proof.
  intros Hs. apply sound_update_wave.
  destruct Hs as (H1 & Hlive & Hw & Hq & Ht & Hpr & Hf). close_sound Hlive.
Qed.

Lemma tower_turn_shot (g : Game) (t : Tower) :
  snd (tower_turn g t)
  = match find_target t (heap g) (enemies g) with
    | Some c =>
        if frame_count g - last_shot t >=? fire_rate t
        then Some (new_Projectile (float_of_Z (t_x t)) (float_of_Z (t_y t)) c (damage t))
        else None
    | None => None
    end
  /\ last_shot (fst (tower_turn g t))
     = match snd (tower_turn g t) with
       | Some _ => frame_count g
       | None => last_shot t
       end.
Proof.
  unfold tower_turn, shoot. cbn [last_shot fire_rate set_target target t_x t_y damage].
  destruct (_ >=? _); destruct (find_target t (heap g) (enemies g)); split; reflexivity.
Qed.

(** C10: when the enemy step of a tick ends with the game over, it has
    gone through its whole snapshot: every enemy of the snapshot has
    made its move, those whose move reported the end have left the
    field, and each of them has taken a life; through the main loop
    that is one enemy, and the last life.  The tower step of that tick
    then runs as in any tick: each tower takes as its target what
    [find_target] returns for the enemies left on the field, and shoots
    at it if its cooldown has passed, which appends a projectile and
    sets [last_shot] to the frame of the tick.  So does the projectile
    step, on the projectiles in flight and the new ones: those that do
    not hit and whose target is on the field stay in flight, moved;
    the others are removed; an enemy loses the damage of the
    projectiles that hit it, and leaves the field when that is its
    health or more, in which case its reward is added to the money.
    The tick ends with the game over, and further ticks change
    nothing. *)
Theorem game_over_tick_runs_all_steps (g : Game) :
  reachable g \/ played g ->
  state g = PLAYING ->
  let g1 := before_enemies g in
  let g2 := update_enemies g1 in
  let g3 := update_towers g2 in
  state g2 = GAME_OVER ->
  ((forall id, id ∈ enemies g1 -> heap g2 !!! id = fst (Enemy_move (heap g1 !!! id)))
   /\ enemies g2
      = List.filter (fun id => negb (snd (Enemy_move (heap g1 !!! id)))) (enemies g1)
   /\ lives g2 = lives g - Z.of_nat (reached_end g)
   /\ 1 <= lives g /\ lives g2 <= 0
   /\ (played g -> lives g = 1 /\ reached_end g = 1%nat /\ lives g2 = 0))
  /\ (frame_count g2 = frame_count g + 1
      /\ towers (update g) = (fun t => fst (tower_turn g2 t)) <$> towers g
      /\ projectiles g3
         = projectiles g ++ omap (fun t => snd (tower_turn g2 t)) (towers g)
      /\ forall t,
           target (fst (tower_turn g2 t)) = find_target t (heap g2) (enemies g2)
           /\ snd (tower_turn g2 t)
              = match find_target t (heap g2) (enemies g2) with
                | Some c =>
                    if frame_count g2 - last_shot t >=? fire_rate t
                    then Some (new_Projectile (float_of_Z (t_x t)) (float_of_Z (t_y t))
                                 c (damage t))
                    else None
                | None => None
                end
           /\ last_shot (fst (tower_turn g2 t))
              = match snd (tower_turn g2 t) with
                | Some _ => frame_count g2
                | None => last_shot t
                end)
  /\ (let h := heap g2 in
      let ps := projectiles g3 in
      enemies (update g) = List.filter (outlives h ps) (enemies g2)
      /\ money (update g) = money g + bounty h ps (enemies g2)
      /\ (forall id, id ∈ enemies (update g) ->
            heap (update g) !!! id
            = set_health (health (h !!! id) - damage_on h ps id) (h !!! id))
      /\ (forall q, q ∈ projectiles (update g) ->
            exists p, p ∈ ps /\ q = flown h p /\ hits h p = false
                      /\ p_target p ∈ enemies g2)
      /\ (forall p, p ∈ ps -> hits h p = false -> p_target p ∈ enemies (update g) ->
            flown h p ∈ projectiles (update g)))
  /\ state (update g) = GAME_OVER
  /\ lives (update g) = lives g2
  /\ forall n, ticks n (update g) = update g.
Proof.
  intros Hg Hs g1 g2 g3 Hover.
  pose proof (either_sound g Hg) as Hsound.
  pose proof (sound_before_enemies g Hsound) as Hs1. fold g1 in Hs1.
  pose proof (sound_enemies_loop (enemies g1) g1 Hs1) as Hs2.
  change (enemies_loop (enemies g1) g1) with g2 in Hs2.
  pose proof (sound_towers_loop (seq 0 (length (towers g2))) g2 Hs2) as Hs3.
  change (towers_loop (seq 0 (length (towers g2))) g2) with g3 in Hs3.
  pose proof (update_playing g Hs) as Hu. fold g1 g2 g3 in Hu.
  (* the frames of the steps *)
  destruct (update_wave_frame (set_frame_count (frame_count g + 1) g))
    as (Hm1 & Hl1 & _ & Ht1 & Hp1 & Hf1).
  fold (before_enemies g) in Hm1, Hl1, Ht1, Hp1, Hf1. fold g1 in Hm1, Hl1, Ht1, Hp1, Hf1.
  cbv zeta in Hm1, Hl1, Ht1, Hp1, Hf1.
  cbn [money lives towers projectiles frame_count set_frame_count] in Hm1, Hl1, Ht1, Hp1, Hf1.
  destruct (enemies_loop_frame (enemies g1) g1) as (Hm2 & Hl2 & _ & _ & Ht2 & Hp2 & Hf2).
  change (enemies_loop (enemies g1) g1) with g2 in Hm2, Hl2, Ht2, Hp2, Hf2.
  cbv zeta in Hm2, Hl2, Ht2, Hp2, Hf2.
  pose proof (update_towers_spec g2) as Hg3. fold g3 in Hg3.
  assert (Hst3 : state g3 = GAME_OVER) by (rewrite Hg3; exact Hover).
  assert (Hen3 : enemies g3 = enemies g2) by now rewrite Hg3.
  assert (Hh3 : heap g3 = heap g2) by now rewrite Hg3.
  assert (Hmo3 : money g3 = money g) by (rewrite Hg3; cbn; congruence).
  assert (Hli3 : lives g3 = lives g2) by now rewrite Hg3.
  assert (Hlives : lives g2 = lives g - Z.of_nat (reached_end g)).
  { unfold reached_end. rewrite Hs. fold g1. lia. }
  assert (Hpos : 1 <= lives g).
  { destruct Hg as [Hr | Hp].
    - destruct (reachable_session_ok g Hr) as (_ & H & _). apply H. congruence.
    - destruct (played_fair g Hp) as (_ & _ & [Hr Hiff]).
      assert (lives g <> 0) by (intros H0; apply Hiff in H0; congruence). lia. }
  assert (Hneg : lives g2 <= 0).
  { apply (enemies_loop_game_over (enemies g1) g1); [|exact Hover].
    intros Hgo. exfalso. revert Hgo. apply update_wave_state. exact Hs. }
  destruct (sound_alive g1 Hs1) as (Hnd1 & Halive1 & _).
  destruct (update_enemies_spec g1 Hnd1 (fun id Hid => proj1 (Halive1 id Hid)))
    as (_ & Hmove & _ & Hleft).
  fold g2 in Hmove, Hleft.
  destruct (update_projectiles_spec g3 Hs3) as (Q1 & Q2 & Q3 & Q4 & Q5).
  cbv zeta in Q1, Q2, Q3, Q4, Q5. rewrite <- Hu in Q1, Q2, Q3, Q4, Q5.
  rewrite Hh3 in Q1, Q2, Q3, Q4, Q5. rewrite Hen3 in Q1, Q2, Q4. rewrite Hmo3 in Q2.
  split; [|split; [|split; [|split; [|split]]]].
  - split; [exact Hmove|]. split; [exact Hleft|]. split; [exact Hlives|].
    split; [exact Hpos|]. split; [exact Hneg|].
    intros Hp. pose proof (fair_reached_end g (played_fair g Hp)). lia.
  - split; [lia|]. split; [exact (update_towers_after g Hs)|]. split.
    + rewrite Hg3. cbn [projectiles set_projectiles]. now rewrite Hp2, Hp1, Ht2, Ht1.
    + intros t. split; [apply tower_turn_target | apply tower_turn_shot].
  - cbv zeta. auto.
  - rewrite Hu. unfold update_projectiles.
    destruct (projectiles_loop_frame (projectiles g3) g3) as (_ & Hst & _).
    destruct (projectiles_loop (projectiles g3) g3) as [g4 ps']. cbn [fst] in Hst.
    cbn [state set_projectiles]. congruence.
  - rewrite Hu. unfold update_projectiles.
    destruct (projectiles_loop_frame (projectiles g3) g3) as (Hli & _).
    destruct (projectiles_loop (projectiles g3) g3) as [g4 ps']. cbn [fst] in Hli.
    cbn [lives set_projectiles]. congruence.
  - intros n. apply ticks_not_playing. rewrite Hu. unfold update_projectiles.
    destruct (projectiles_loop_frame (projectiles g3) g3) as (_ & Hst & _).
    destruct (projectiles_loop (projectiles g3) g3) as [g4 ps']. cbn [fst] in Hst.
    cbn [state set_projectiles]. congruence.
Qed.

Lemma last_life_played : played last_life.
Proof.
  exact (handle_events_played _ _ (run_played losing_frames new_Game played_new)).
Qed.

Lemma last_life_playing : state last_life = PLAYING.
Proof. vm_compute. reflexivity. Qed.

Lemma last_life_lost : state (update_enemies (before_enemies last_life)) = GAME_OVER.
Proof. vm_compute. reflexivity. Qed.

(** The last tick of the game that is lost, evaluated. *)
Lemma last_life_tick :
  let g := last_life in
  let g2 := update_enemies (before_enemies g) in
  let g3 := update_towers g2 in
  length (enemies (before_enemies g)) = 13%nat
  /\ length (enemies g2) = 12%nat
  /\ (last_shot <$> towers g) = [3921; 3926; 0]
  /\ (last_shot <$> towers (update g)) = [3921; 3926; 3930]
  /\ (target <$> towers (update g)) = [Some 21%nat; Some 21%nat; Some 20%nat]
  /\ (p_target <$> projectiles g) = [21%nat; 21%nat]
  /\ (p_target <$> projectiles g3) = [21%nat; 21%nat; 20%nat]
  /\ (hits (heap g2) <$> projectiles g3) = [true; false; false]
  /\ projectiles (update g) = flown (heap g2) <$> drop 1 (projectiles g3)
  /\ health (heap g2 !!! 21%nat) = 100
  /\ health (heap (update g) !!! 21%nat) = 70
  /\ money (update g) = money g.
Proof. vm_compute. repeat split; reflexivity. Qed.

(** The game that is lost: in its last frame the player builds a third
    tower; in the tick of that frame an enemy takes the last life, the
    new tower shoots, one of the two projectiles in flight hits its
    target, which loses 30 of its health of 100, and the other and the
    new one fly on. *)
Lemma game_over_tick_runs_all_steps_witness :
  (played last_life /\ state last_life = PLAYING
   /\ state (update_enemies (before_enemies last_life)) = GAME_OVER)
  /\ (lives last_life = 1 /\ reached_end last_life = 1%nat
      /\ lives (update_enemies (before_enemies last_life)) = 0)
  /\ state (update last_life) = GAME_OVER
  /\ ticks 3 (update last_life) = update last_life
  /\ (let g := last_life in
      let g2 := update_enemies (before_enemies g) in
      let g3 := update_towers g2 in
      length (enemies (before_enemies g)) = 13%nat
      /\ length (enemies g2) = 12%nat
      /\ (last_shot <$> towers g) = [3921; 3926; 0]
      /\ (last_shot <$> towers (update g)) = [3921; 3926; 3930]
      /\ (target <$> towers (update g)) = [Some 21%nat; Some 21%nat; Some 20%nat]
      /\ (p_target <$> projectiles g) = [21%nat; 21%nat]
      /\ (p_target <$> projectiles g3) = [21%nat; 21%nat; 20%nat]
      /\ (hits (heap g2) <$> projectiles g3) = [true; false; false]
      /\ projectiles (update g) = flown (heap g2) <$> drop 1 (projectiles g3)
      /\ health (heap g2 !!! 21%nat) = 100
      /\ health (heap (update g) !!! 21%nat) = 70
      /\ money (update g) = money g).
Proof.
  destruct (game_over_tick_runs_all_steps last_life (or_intror last_life_played)
              last_life_playing last_life_lost)
    as ((_ & _ & _ & _ & _ & Hlast) & _ & _ & Hover & _ & Hticks).
  split; [exact (conj last_life_played (conj last_life_playing last_life_lost))|].
  split; [exact (Hlast last_life_played)|].
  split; [exact Hover|].
  split; [exact (Hticks 3%nat)|].
  exact last_life_tick.
Defined.


